(** * Time tracker: the background coordinator and the problem store

    A shallow embedding of [background.js] (the per-title time accounting
    engine of the service worker), of [storage-manager.js] (the persistent
    problem catalogue) and of the timer text and the storage reads of
    [popup.ts], with the properties of the specification proved over them,
    and further properties of the handlers, the writers and the readers.

    Conventions of the embedding:
    - JavaScript numbers that hold timestamps, counters and tab identifiers
      are integers ([Z]); [null] is [None].
    - A JavaScript condition [if (x)] tests truthiness: a number is truthy
      when it is not [0], a string when it is not empty, [null] and
      [undefined] never.  The tests are written out where the source has
      them.
    - Every call of [Date.now()] is an explicit argument of the function that
      makes the call, one argument per call.
    - An object used as a dictionary is a [gmap] over its own keys; the
      catalogue of problems, whose enumeration order decides eviction ties,
      is a list of entries in property order.
    - A string is the sequence of its character codes, each below 256. *)

From Stdlib Require Import ZArith List Ascii String.
From stdpp Require Import gmap strings list fin_maps pretty sorting.

Local Open Scope Z_scope.
Set Warnings "-register-all".

(** ** JavaScript truthiness *)

Definition truthyNum (o : option Z) : bool :=
  match o with
  | Some n => negb (n =? 0)
  | None => false
  end.

Definition truthyStr (o : option string) : bool :=
  match o with
  | Some s => negb (String.eqb s EmptyString)
  | None => false
  end.

(** * The time accounting engine ([background.js]) *)

Module Engine.

(** One entry of [titleTimers]. *)
Record Timer := mkTimer {
  accumulated : Z;
  runningSince : option Z;
  activeCount : Z
}.

(** The global state of the service worker.  Tab identifiers key
    [tabToTitle] through [String(id)], which is injective on integers (and
    never yields the text of [null]), so the keys are the identifiers
    themselves.  [persisted] is what the last [saveState] wrote. *)
Record State := mkState {
  tabToTitle : gmap Z string;
  titleTimers : gmap string Timer;
  currentActiveTabId : option Z;
  persisted : gmap string Timer * gmap Z string
}.

Definition freshTimer : Timer :=
  {| accumulated := 0; runningSince := None; activeCount := 0 |}.

Definition initialState : State :=
  {| tabToTitle := ∅; titleTimers := ∅; currentActiveTabId := None;
     persisted := (∅, ∅) |}.

Definition saveState (s : State) : State :=
  {| tabToTitle := tabToTitle s; titleTimers := titleTimers s;
     currentActiveTabId := currentActiveTabId s;
     persisted := (titleTimers s, tabToTitle s) |}.

Definition withTimers (tm : gmap string Timer) (s : State) : State :=
  {| tabToTitle := tabToTitle s; titleTimers := tm;
     currentActiveTabId := currentActiveTabId s; persisted := persisted s |}.

Definition withTabs (tt : gmap Z string) (s : State) : State :=
  {| tabToTitle := tt; titleTimers := titleTimers s;
     currentActiveTabId := currentActiveTabId s; persisted := persisted s |}.

Definition withActive (a : option Z) (s : State) : State :=
  {| tabToTitle := tabToTitle s; titleTimers := titleTimers s;
     currentActiveTabId := a; persisted := persisted s |}.

(** *** Timers of one title *)

(** [ensureTitleTimer]: the dictionary after the call. *)
Definition ensureTitleTimer (title : string) (tm : gmap string Timer)
  : gmap string Timer :=
  match tm !! title with
  | Some _ => tm
  | None => <[title := freshTimer]> tm
  end.

(** The timer the call returns. *)
Definition ensuredTimer (title : string) (tm : gmap string Timer) : Timer :=
  match tm !! title with
  | Some t => t
  | None => freshTimer
  end.

(** Body of [startTitleIfNeeded] on the timer object. *)
Definition startTimer (now : Z) (t : Timer) : Timer :=
  let rs := if (activeCount t =? 0) && negb (truthyNum (runningSince t))
            then Some now else runningSince t in
  {| accumulated := accumulated t; runningSince := rs;
     activeCount := activeCount t + 1 |}.

(** Body of [stopTitleIfNeeded] on the timer object. *)
Definition stopTimer (now : Z) (t : Timer) : Timer :=
  let ac := if 0 <? activeCount t then activeCount t - 1 else activeCount t in
  if ac <=? 0 then
    match runningSince t with
    | Some rs =>
        if negb (rs =? 0) then
          {| accumulated := accumulated t + (now - rs); runningSince := None;
             activeCount := 0 |}
        else
          {| accumulated := accumulated t; runningSince := Some rs;
             activeCount := 0 |}
    | None =>
        {| accumulated := accumulated t; runningSince := None;
           activeCount := 0 |}
    end
  else
    {| accumulated := accumulated t; runningSince := runningSince t;
       activeCount := ac |}.

(** Body of the loop of [pauseAllTitles] on one timer object. *)
Definition pauseTimer (now : Z) (t : Timer) : Timer :=
  match runningSince t with
  | Some rs =>
      if negb (rs =? 0) then
        {| accumulated := accumulated t + (now - rs); runningSince := None;
           activeCount := 0 |}
      else
        {| accumulated := accumulated t; runningSince := Some rs;
           activeCount := 0 |}
  | None =>
      {| accumulated := accumulated t; runningSince := None;
         activeCount := 0 |}
  end.

Definition startTitleTimers (now : Z) (title : string)
    (tm : gmap string Timer) : gmap string Timer :=
  <[title := startTimer now (ensuredTimer title tm)]> (ensureTitleTimer title tm).

Definition stopTitleTimers (now : Z) (title : string)
    (tm : gmap string Timer) : gmap string Timer :=
  match tm !! title with
  | None => tm
  | Some t => <[title := stopTimer now t]> tm
  end.

Definition startTitleIfNeeded (now : Z) (title : string) (s : State) : State :=
  saveState (withTimers (startTitleTimers now title (titleTimers s)) s).

Definition stopTitleIfNeeded (now : Z) (title : string) (s : State) : State :=
  match titleTimers s !! title with
  | None => s
  | Some t => saveState (withTimers (<[title := stopTimer now t]> (titleTimers s)) s)
  end.

(** [pauseAllTitles]: [now title] is the clock reading taken while the loop
    visits [title]. *)
Definition pauseAllTitles (now : string → Z) (s : State) : State :=
  saveState
    (withTimers (map_imap (λ title t, Some (pauseTimer (now title) t))
                          (titleTimers s)) s).

(** *** Tab and window events *)

(** [handleTabChange]; [nowStop] and [nowStart] are the readings of the two
    calls the function can make.  [newTabId = None] is [null]. *)
Definition handleTabChange (nowStop nowStart : Z) (newTabId : option Z)
    (s : State) : State :=
  if decide (currentActiveTabId s = newTabId) then s
  else
    let s1 :=
      match currentActiveTabId s with
      | Some prev =>
          if truthyStr (tabToTitle s !! prev) then
            stopTitleIfNeeded nowStop (default EmptyString (tabToTitle s !! prev)) s
          else s
      | None => s
      end in
    let s2 := withActive newTabId s1 in
    match newTabId with
    | None => s2
    | Some n =>
        if truthyStr (tabToTitle s2 !! n) then
          startTitleIfNeeded nowStart (default EmptyString (tabToTitle s2 !! n)) s2
        else s2
    end.

Definition handleTabRemoved (now : Z) (tabId : Z) (s : State) : State :=
  let title := tabToTitle s !! tabId in
  let s1 := withTabs (delete tabId (tabToTitle s)) s in
  let s2 :=
    if decide (currentActiveTabId s1 = Some tabId) then
      withActive None
        (if truthyStr title
         then stopTitleIfNeeded now (default EmptyString title) s1
         else s1)
    else s1 in
  saveState s2.

(** The listener of [chrome.windows.onFocusChanged].  [None] is
    [WINDOW_ID_NONE]; otherwise the argument carries the answer of the tab
    query: the identifier of the active tab of the focused window, if any. *)
Definition onFocusChanged (nowStop nowStart : Z) (nowAll : string → Z)
    (focus : option (option Z)) (s : State) : State :=
  match focus with
  | None => withActive None (pauseAllTitles nowAll s)
  | Some found =>
      if truthyNum found then handleTabChange nowStop nowStart found s
      else withActive None (pauseAllTitles nowAll s)
  end.

(** The [reportTitle] branch of the message listener, for a message that
    comes from tab [tabId]; [title] is [msg.title]. *)
Definition reportTitle (now : Z) (tabId : Z) (title : option string)
    (s : State) : State :=
  if truthyStr title then
    let t := default EmptyString title in
    let s1 := withTabs (<[tabId := t]> (tabToTitle s)) s in
    let s2 := withTimers (ensureTitleTimer t (titleTimers s1)) s1 in
    let s3 :=
      if truthyNum (currentActiveTabId s2)
         && bool_decide (currentActiveTabId s2 = Some tabId)
      then startTitleIfNeeded now t s2 else s2 in
    saveState s3
  else
    saveState (withTabs (delete tabId (tabToTitle s)) s).

(** [loadState], when the read of the storage completes: the two
    dictionaries are replaced by the persisted ones. *)
Definition loadState (s : State) : State :=
  {| tabToTitle := (persisted s).2; titleTimers := (persisted s).1;
     currentActiveTabId := currentActiveTabId s; persisted := persisted s |}.

(** The elapsed time the popup shows for a title, computed from the
    persisted snapshot ([popup.ts]); it tests [typeof ... === 'number']. *)
Definition elapsedMs (now : Z) (title : string)
    (snapshot : gmap string Timer * gmap Z string) : Z :=
  match snapshot.1 !! title with
  | None => 0
  | Some t =>
      accumulated t +
      match runningSince t with
      | Some rs => now - rs
      | None => 0
      end
  end.

(** *** Events

    The operations of the engine as one type of events, each carrying the
    clock readings its handler takes, and the step function that runs the
    handler. *)
Inductive Event :=
  | EvStart (now : Z) (title : string)
  | EvStop (now : Z) (title : string)
  | EvPauseAll (now : string → Z)
  | EvTabChange (nowStop nowStart : Z) (newTabId : option Z)
  | EvTabRemoved (now : Z) (tabId : Z)
  | EvFocusChanged (nowStop nowStart : Z) (nowAll : string → Z)
                   (focus : option (option Z))
  | EvReport (now : Z) (tabId : Z) (title : option string)
  | EvLoadState.

Definition step (ev : Event) (s : State) : State :=
  match ev with
  | EvStart now title => startTitleIfNeeded now title s
  | EvStop now title => stopTitleIfNeeded now title s
  | EvPauseAll now => pauseAllTitles now s
  | EvTabChange nowStop nowStart newTabId =>
      handleTabChange nowStop nowStart newTabId s
  | EvTabRemoved now tabId => handleTabRemoved now tabId s
  | EvFocusChanged nowStop nowStart nowAll focus =>
      onFocusChanged nowStop nowStart nowAll focus s
  | EvReport now tabId title => reportTitle now tabId title s
  | EvLoadState => loadState s
  end.

(** [Date.now()] counts milliseconds since 1970: every reading is positive. *)
Definition clockPositive (ev : Event) : Prop :=
  match ev with
  | EvStart now _ | EvStop now _ | EvTabRemoved now _ | EvReport now _ _ =>
      0 < now
  | EvPauseAll now => ∀ title, 0 < now title
  | EvTabChange nowStop nowStart _ => 0 < nowStop ∧ 0 < nowStart
  | EvFocusChanged nowStop nowStart nowAll _ =>
      0 < nowStop ∧ 0 < nowStart ∧ ∀ title, 0 < nowAll title
  | EvLoadState => True
  end.

(** The invariant of the data model on one timer, and the fact that a stored
    reading is a positive clock value. *)
Definition runningIffActive (t : Timer) : Prop :=
  is_Some (runningSince t) ↔ 0 < activeCount t.

Definition stampPositive (t : Timer) : Prop :=
  ∀ rs, runningSince t = Some rs → 0 < rs.

Definition timersInv (tm : gmap string Timer) : Prop :=
  ∀ title t, tm !! title = Some t → runningIffActive t ∧ stampPositive t.

(** The invariant of the engine: the timers in memory and the timers of the
    persisted snapshot. *)
Definition engineInv (s : State) : Prop :=
  timersInv (titleTimers s) ∧ timersInv (persisted s).1.

(** *** Start and stop events on one title *)

Inductive TimerEvent :=
  | Start (now : Z)
  | Stop (now : Z).

Definition eventTime (e : TimerEvent) : Z :=
  match e with Start now | Stop now => now end.

Definition applyEvent (title : string) (s : State) (e : TimerEvent) : State :=
  match e with
  | Start now => startTitleIfNeeded now title s
  | Stop now => stopTitleIfNeeded now title s
  end.

Definition runEvents (title : string) (evs : list TimerEvent) (s : State)
  : State :=
  fold_left (applyEvent title) evs s.

(** The timer of a title as [ensureTitleTimer] would return it. *)
Definition timerOf (title : string) (s : State) : Timer :=
  ensuredTimer title (titleTimers s).

(** The specification's reading of a trace: the number of holders of the
    title after an event, and the time during which that number is
    positive, summed over the gaps between consecutive events. *)
Definition countAfter (n : Z) (e : TimerEvent) : Z :=
  match e with
  | Start _ => n + 1
  | Stop _ => Z.max 0 (n - 1)
  end.

Fixpoint activeDuration (n last : Z) (evs : list TimerEvent) : Z :=
  match evs with
  | [] => 0
  | e :: rest =>
      (if 0 <? n then eventTime e - last else 0)
      + activeDuration (countAfter n e) (eventTime e) rest
  end.

(** The readings of a trace are clock values: positive, and none earlier
    than the one before it ([last] is the reading before the trace). *)
Fixpoint chronological (last : Z) (evs : list TimerEvent) : Prop :=
  match evs with
  | [] => True
  | e :: rest =>
      0 < eventTime e ∧ last ≤ eventTime e ∧ chronological (eventTime e) rest
  end.

(** What a step banks: the time since [runningSince] when the timer was
    running before the step and is not after it, nothing otherwise. *)
Definition bankedBy (before after : Timer) (now : Z) : Z :=
  match runningSince before, runningSince after with
  | Some rs, None => now - rs
  | _, _ => 0
  end.

(** One event on the timer object. *)
Definition stepTimer (t : Timer) (e : TimerEvent) : Timer :=
  match e with
  | Start now => startTimer now t
  | Stop now => stopTimer now t
  end.

(** A timer in one of the two states of the machine, whose stored reading is
    a clock value not later than [last]. *)
Definition wellTimed (last : Z) (t : Timer) : Prop :=
  0 ≤ activeCount t ∧ runningIffActive t ∧
  ∀ rs, runningSince t = Some rs → 0 < rs ≤ last.

(** Time not yet banked at clock value [at]. *)
Definition pending (at_ : Z) (t : Timer) : Z :=
  match runningSince t with
  | Some rs => at_ - rs
  | None => 0
  end.

(** The reading of the last event of a trace. *)
Definition lastTime (last : Z) (evs : list TimerEvent) : Z :=
  fold_left (λ _ e, eventTime e) evs last.

(** [n] reports of the same title by the same tab, one reading each. *)
Definition reportMany (nows : list Z) (tabId : Z) (title : string)
    (s : State) : State :=
  fold_left (λ s now, reportTitle now tabId (Some title) s) nows s.

Definition stopMany (nows : list Z) (title : string) (s : State) : State :=
  fold_left (λ s now, stopTitleIfNeeded now title s) nows s.

(** *** States and runs of events

    The predicates on states and on runs of events with which the
    properties of the handlers are stated. *)

(** Every change of the two dictionaries has been written: the persisted
    snapshot is the pair in memory. *)
Definition writtenThrough (s : State) : Prop :=
  persisted s = (titleTimers s, tabToTitle s).

(** No timer has a negative count. *)
Definition countsNonneg (tm : gmap string Timer) : Prop :=
  ∀ title t, tm !! title = Some t → 0 ≤ activeCount t.

(** No stored reading is later than [last]. *)
Definition stampsUpTo (last : Z) (tm : gmap string Timer) : Prop :=
  ∀ title t rs, tm !! title = Some t → runningSince t = Some rs → rs ≤ last.

(** A stored reading is not [0], the one number the tests of
    [runningSince] take for no reading. *)
Definition stampNonzero (t : Timer) : Prop :=
  ∀ rs, runningSince t = Some rs → rs ≠ 0.

(** The readings an event takes are none earlier than [last], and come in
    the order the handler takes them. *)
Definition readingsFrom (last : Z) (ev : Event) : Prop :=
  match ev with
  | EvStart now _ | EvStop now _ | EvTabRemoved now _ | EvReport now _ _ =>
      last ≤ now
  | EvPauseAll now => ∀ title, last ≤ now title
  | EvTabChange nowStop nowStart _ => last ≤ nowStop ∧ nowStop ≤ nowStart
  | EvFocusChanged nowStop nowStart nowAll _ =>
      last ≤ nowStop ∧ nowStop ≤ nowStart ∧ ∀ title, last ≤ nowAll title
  | EvLoadState => True
  end.

(** The latest reading an event can store. *)
Definition lastReading (last : Z) (ev : Event) : Z :=
  match ev with
  | EvStart now _ | EvStop now _ | EvTabRemoved now _ | EvReport now _ _ => now
  | EvTabChange _ nowStart _ | EvFocusChanged _ nowStart _ _ => nowStart
  | EvPauseAll _ | EvLoadState => last
  end.

(** The readings of a run of events do not go back. *)
Fixpoint chronologicalRun (last : Z) (evs : list Event) : Prop :=
  match evs with
  | [] => True
  | ev :: rest => readingsFrom last ev ∧ chronologicalRun (lastReading last ev) rest
  end.

(** The latest reading a run of events can have stored. *)
Fixpoint lastOfRun (last : Z) (evs : list Event) : Z :=
  match evs with
  | [] => last
  | ev :: rest => lastOfRun (lastReading last ev) rest
  end.

(** The state after a run of events. *)
Definition runAll (evs : list Event) (s : State) : State :=
  foldl (λ s ev, step ev s) s evs.

(** The first half of [handleTabChange] on the timers: the title of the
    tab that was active, if it has one, is stopped. *)
Definition stopPrevious (nowStop : Z) (s : State) : gmap string Timer :=
  match currentActiveTabId s with
  | Some prev =>
      if truthyStr (tabToTitle s !! prev)
      then stopTitleTimers nowStop (default EmptyString (tabToTitle s !! prev))
                           (titleTimers s)
      else titleTimers s
  | None => titleTimers s
  end.

(** [tm'] follows [tm]: no title has lost accumulated time, and no stored
    reading of [tm'] is later than [last']. *)
Definition follows (last' : Z) (tm tm' : gmap string Timer) : Prop :=
  stampsUpTo last' tm'
  ∧ ∀ title, accumulated (ensuredTimer title tm)
             ≤ accumulated (ensuredTimer title tm').

(** What the popup computes for a timer at clock value [at_]
    ([updateTimeForTab]): the accumulated time and the time not yet
    banked. *)
Definition view (at_ : Z) (t : Timer) : Z := accumulated t + pending at_ t.

(** No title shows less in [tm'] at [last'] than in [tm] at [last]. *)
Definition ahead (last last' : Z) (tm tm' : gmap string Timer) : Prop :=
  ∀ title, view last (ensuredTimer title tm) ≤ view last' (ensuredTimer title tm').

End Engine.

(** * The persistent record store ([storage-manager.js]) *)

Module Store.

(** ** JavaScript objects and arrays *)

(** An object whose keys are not array indices enumerates its own
    properties in the order they were created. *)
Section Obj.
Context {V : Type}.

Fixpoint objGet (k : string) (o : list (string * V)) : option V :=
  match o with
  | [] => None
  | (k', v) :: rest => if decide (k' = k) then Some v else objGet k rest
  end.

(** [o[k] = v]: an existing property keeps its place, a new one goes
    last. *)
Fixpoint objSet (k : string) (v : V) (o : list (string * V))
  : list (string * V) :=
  match o with
  | [] => [(k, v)]
  | (k', v') :: rest =>
      if decide (k' = k) then (k, v) :: rest else (k', v') :: objSet k v rest
  end.

(** [delete o[k]]. *)
Definition objDelete (k : string) (o : list (string * V))
  : list (string * V) :=
  filter (λ e, e.1 ≠ k) o.
End Obj.

(** [a.slice(0, end)]: a negative [end] counts from the end of the array,
    and the result never runs past it. *)
Definition sliceFromStart {A} (end_ : Z) (a : list A) : list A :=
  let len := Z.of_nat (length a) in
  take (Z.to_nat (if end_ <? 0 then Z.max (len + end_) 0 else Z.min end_ len)) a.

(** ** The document *)

(** What the content script passes to [saveProblem].  [number] is the
    leading integer of the page title, [-1] when there is none. *)
Record ProblemData := mkProblemData {
  title : string;
  number : Z;
  difficulty : string;
  problemType : string;
  tags : list string;
  description : string;
  link : string;
  isVisible : option bool;
  isCompleted : option bool;
  completedAt : option Z;
  attempts : option Z
}.

(** A stored problem: the payload it was saved from, under the two fields
    the store writes over whatever the payload carries. *)
Record Problem := mkProblem {
  info : ProblemData;
  lastAccessed : Z;
  timeSpent : Z
}.

Record SimilarQuestion := mkSimilarQuestion {
  sqTitle : string;
  sqNumber : Z;
  sqDifficulty : string;
  sqTags : list string;
  sqLink : string;
  sqAcceptanceRate : option Z
}.

Record TagStat := mkTagStat {
  count : Z;
  completed : Z;
  totalTime : Z;
  tagLastAccessed : Z
}.

Record Settings := mkSettings {
  maxStoredProblems : Z;
  autoSave : bool;
  maxRecommendations : Z
}.

Record Storage := mkStorage {
  problems : list (string * Problem);
  lastUsedProblemId : option string;
  recommendations : gmap string (list SimilarQuestion);
  revisions : gmap string Problem;
  tagStats : gmap string TagStat;
  settings : Settings
}.

Definition DEFAULT_SETTINGS : Settings :=
  {| maxStoredProblems := 50; autoSave := true; maxRecommendations := 20 |}.

Definition emptyStorage : Storage :=
  {| problems := []; lastUsedProblemId := None; recommendations := ∅;
     revisions := ∅; tagStats := ∅; settings := DEFAULT_SETTINGS |}.

(** ** The storage medium and the asynchronous functions

    The entry of [chrome.storage.local] under [STORAGE_KEY] is the list of
    the documents written to it, the latest first: [getStorage] reads the
    head, [saveStorage] adds one.  A function of the class is a computation
    over the medium. *)
Definition Medium : Type := list Storage.

Definition M (A : Type) : Type := Medium → A * Medium.

Definition ret {A} (a : A) : M A := λ m, (a, m).

Definition bind {A B} (c : M A) (k : A → M B) : M B :=
  λ m, let '(a, m') := c m in k a m'.

Notation "'await' x := c 'in' k" := (bind c (λ x, k))
  (at level 10, x name, c at level 100, k at level 200).

Definition getStorage : M Storage :=
  λ m, (match m with d :: _ => d | [] => emptyStorage end, m).

Definition saveStorage (storage : Storage) : M unit :=
  λ m, (tt, storage :: m).

(** The document a function gets from [getStorage] on a medium. *)
Definition current (m : Medium) : Storage := (getStorage m).1.

(** ** Problem identifiers *)

Definition isLowerOrDigit (c : ascii) : bool :=
  let n := nat_of_ascii c in
  ((97 <=? n) && (n <=? 122) || (48 <=? n) && (n <=? 57))%nat.

(** [toLowerCase] on one character code below 256: only the letters
    [A] to [Z] have a lower-case form among those the replacement keeps. *)
Definition lowerChar (c : ascii) : ascii :=
  let n := nat_of_ascii c in
  if ((65 <=? n) && (n <=? 90))%nat then ascii_of_nat (n + 32) else c.

Definition slugChar (c : ascii) : ascii :=
  let l := lowerChar c in
  if isLowerOrDigit l then l else "-"%char.

Fixpoint slug (s : string) : string :=
  match s with
  | EmptyString => EmptyString
  | String c rest => String (slugChar c) (slug rest)
  end.

Definition generateProblemId (problemData : ProblemData) : string :=
  pretty (number problemData) +:+ "-" +:+ slug (title problemData).

(** ** Eviction *)

(** [problems.sort((a, b) => a[1].lastAccessed - b[1].lastAccessed)]: the
    sort of an array is stable, so the result is the one of inserting each
    entry before the first later-or-equal one. *)
Fixpoint insertByAccess (e : string * Problem) (sorted : list (string * Problem))
  : list (string * Problem) :=
  match sorted with
  | [] => [e]
  | e' :: rest =>
      if lastAccessed e.2 <=? lastAccessed e'.2 then e :: e' :: rest
      else e' :: insertByAccess e rest
  end.

Definition sortByAccess (entries : list (string * Problem))
  : list (string * Problem) :=
  foldr insertByAccess [] entries.

(** The order of the sort. *)
Definition olderEq (a b : string * Problem) : Prop :=
  lastAccessed a.2 ≤ lastAccessed b.2.

Definition cleanupOldProblems (storage : Storage) : Storage :=
  let entries := problems storage in
  let maxProblems := maxStoredProblems (settings storage) in
  if Z.of_nat (length entries) <=? maxProblems then storage
  else
    let toRemove :=
      sliceFromStart (Z.of_nat (length entries) - maxProblems)
                     (sortByAccess entries) in
    {| problems := foldl (λ o e, objDelete e.1 o) (problems storage) toRemove;
       lastUsedProblemId := lastUsedProblemId storage;
       recommendations := recommendations storage;
       revisions := revisions storage;
       tagStats := tagStats storage;
       settings := settings storage |}.

(** ** Writers *)

Definition withProblems (ps : list (string * Problem)) (storage : Storage)
  : Storage :=
  {| problems := ps; lastUsedProblemId := lastUsedProblemId storage;
     recommendations := recommendations storage;
     revisions := revisions storage; tagStats := tagStats storage;
     settings := settings storage |}.

Definition withLastUsed (id : option string) (storage : Storage) : Storage :=
  {| problems := problems storage; lastUsedProblemId := id;
     recommendations := recommendations storage;
     revisions := revisions storage; tagStats := tagStats storage;
     settings := settings storage |}.

Definition saveProblem (now : Z) (problemData : ProblemData) : M unit :=
  let problemId := generateProblemId problemData in
  await storage := getStorage in
  let existingTimeSpent :=
    match objGet problemId (problems storage) with
    | Some existing => timeSpent existing
    | None => 0
    end in
  let updatedProblem :=
    {| info := problemData; lastAccessed := now;
       timeSpent := existingTimeSpent |} in
  let storage1 :=
    withLastUsed (Some problemId)
      (withProblems (objSet problemId updatedProblem (problems storage)) storage) in
  saveStorage (cleanupOldProblems storage1).

Definition updateTimeSpent (now : Z) (problemId : string) (additionalTime : Z)
  : M unit :=
  await storage := getStorage in
  match objGet problemId (problems storage) with
  | Some p =>
      saveStorage
        (withProblems
           (objSet problemId
              {| info := info p; lastAccessed := now;
                 timeSpent := timeSpent p + additionalTime |}
              (problems storage)) storage)
  | None => ret tt
  end.

Definition clearAllProblems : M unit :=
  await storage := getStorage in
  saveStorage (withLastUsed None (withProblems [] storage)).

Definition deleteProblem (problemId : string) : M unit :=
  await storage := getStorage in
  let storage1 := withProblems (objDelete problemId (problems storage)) storage in
  saveStorage
    (if decide (lastUsedProblemId storage1 = Some problemId)
     then withLastUsed None storage1 else storage1).

Definition zeroTagStat : TagStat :=
  {| count := 0; completed := 0; totalTime := 0; tagLastAccessed := 0 |}.

(** One round of the loop of [updateTagStats]. *)
Definition bumpTag (problem : Problem) (isCompleted : bool)
    (stats : gmap string TagStat) (tag : string) : gmap string TagStat :=
  let cur := default zeroTagStat (stats !! tag) in
  <[tag := {| count := count cur + 1;
              completed := completed cur + (if isCompleted then 1 else 0);
              totalTime := totalTime cur + timeSpent problem;
              tagLastAccessed := lastAccessed problem |}]> stats.

Definition updateTagStats (storage : Storage) (problem : Problem)
    (isCompleted : bool) : Storage :=
  {| problems := problems storage;
     lastUsedProblemId := lastUsedProblemId storage;
     recommendations := recommendations storage;
     revisions := revisions storage;
     tagStats := foldl (bumpTag problem isCompleted) (tagStats storage)
                       (tags (info problem));
     settings := settings storage |}.

(** [attempts || 0]. *)
Definition attemptsOrZero (a : option Z) : Z :=
  match a with
  | Some n => n
  | None => 0
  end.

(** The three assignments of [markProblemCompleted] to the stored record. *)
Definition completeProblem (now : Z) (p : Problem) : Problem :=
  {| info :=
       {| title := title (info p); number := number (info p);
          difficulty := difficulty (info p);
          problemType := problemType (info p); tags := tags (info p);
          description := description (info p); link := link (info p);
          isVisible := isVisible (info p);
          isCompleted := Some true;
          completedAt := Some now;
          attempts := Some (attemptsOrZero (attempts (info p)) + 1) |};
     lastAccessed := lastAccessed p;
     timeSpent := timeSpent p |}.

Definition markProblemCompleted (now : Z) (problemId : string) : M unit :=
  await storage := getStorage in
  match objGet problemId (problems storage) with
  | Some p =>
      let p' := completeProblem now p in
      let storage1 :=
        withProblems (objSet problemId p' (problems storage)) storage in
      let storage2 :=
        {| problems := problems storage1;
           lastUsedProblemId := lastUsedProblemId storage1;
           recommendations := recommendations storage1;
           revisions := <[problemId := p']> (revisions storage1);
           tagStats := tagStats storage1;
           settings := settings storage1 |} in
      saveStorage (updateTagStats storage2 p' true)
  | None => ret tt
  end.

Definition addRecommendations (problemId : string)
    (recs : list SimilarQuestion) : M unit :=
  await storage := getStorage in
  saveStorage
    {| problems := problems storage;
       lastUsedProblemId := lastUsedProblemId storage;
       recommendations :=
         <[problemId := sliceFromStart (maxRecommendations (settings storage)) recs]>
           (recommendations storage);
       revisions := revisions storage;
       tagStats := tagStats storage;
       settings := settings storage |}.

(** ** Readers *)

Definition getAllProblems : M (list (string * Problem)) :=
  await storage := getStorage in ret (problems storage).

Definition getProblem (problemId : string) : M (option Problem) :=
  await ps := getAllProblems in ret (objGet problemId ps).

Definition getLastUsedProblem : M (option Problem) :=
  await storage := getStorage in
  match lastUsedProblemId storage with
  | Some id => if negb (String.eqb id EmptyString) then getProblem id else ret None
  | None => ret None
  end.

Definition getRecommendations (problemId : string) : M (list SimilarQuestion) :=
  await storage := getStorage in
  ret (default [] (recommendations storage !! problemId)).

Definition getAllRecommendations : M (list SimilarQuestion) :=
  await storage := getStorage in
  ret (concat (map snd (map_to_list (recommendations storage)))).

Definition getTagStats : M (gmap string TagStat) :=
  await storage := getStorage in ret (tagStats storage).

Definition getRevisionProblems : M (list Problem) :=
  await storage := getStorage in ret (map snd (map_to_list (revisions storage))).

(** The random reads; [randomIndex] is [Math.floor(Math.random() * length)]. *)
Definition getRandomRecommendation (randomIndex : nat)
  : M (option SimilarQuestion) :=
  await all := getAllRecommendations in ret (all !! randomIndex).

Definition getRandomRevisionProblem (randomIndex : nat) : M (option Problem) :=
  await revs := getRevisionProblems in ret (revs !! randomIndex).

Definition totalTimeSpent (ps : list (string * Problem)) : Z :=
  foldl (λ sum e, sum + timeSpent e.2) 0 ps.

(** The counters of [getProblemStats] (the average, a quotient of floating
    point numbers, is left out). *)
Definition getProblemStats : M (nat * Z) :=
  await ps := getAllProblems in ret (length ps, totalTimeSpent ps).

(** An object has each key once: the identifiers of a catalogue are
    distinct. *)
Definition keysDistinct (storage : Storage) : Prop :=
  NoDup (problems storage).*1.

(** ** Sample data *)

Definition twoSum : ProblemData :=
  {| title := "1. Two Sum"; number := 1; difficulty := "Easy";
     problemType := "Algorithms"; tags := ["Array"; "Hash Table"];
     description := "A beautiful question";
     link := "https://leetcode.com/problems/two-sum/";
     isVisible := Some true; isCompleted := Some false; completedAt := None;
     attempts := Some 0 |}.

Definition threeSum : ProblemData :=
  {| title := "15. 3Sum"; number := 15; difficulty := "Medium";
     problemType := "Algorithms"; tags := ["Array"; "Sorting"];
     description := "A beautiful question";
     link := "https://leetcode.com/problems/3sum/";
     isVisible := Some true; isCompleted := Some false; completedAt := None;
     attempts := Some 0 |}.

(** A store whose cap is [cap], holding nothing. *)
Definition emptyWithCap (cap : Z) : Storage :=
  {| problems := []; lastUsedProblemId := None; recommendations := ∅;
     revisions := ∅; tagStats := ∅;
     settings := {| maxStoredProblems := cap; autoSave := true;
                    maxRecommendations := 20 |} |}.

(** ** The rest of the class *)

(** The [mostUsedProblem] of [getProblemStats]: the [reduce] starts from
    the first record and moves on to a record only when its [timeSpent] is
    greater. *)
Definition mostUsedProblem (ps : list (string * Problem)) : option Problem :=
  match ps with
  | [] => None
  | first :: _ =>
      Some (foldl (λ most current,
                     if timeSpent most <? timeSpent current then current else most)
                  first.2 ps.*2)
  end.

(** [toLowerCase] on a character code below 256: the letters [A] to [Z]
    and the capital letters of Latin-1 (192 to 222 but the multiplication
    sign, 215) move up by 32. *)
Definition toLowerCode (c : ascii) : ascii :=
  let n := nat_of_ascii c in
  if ((65 <=? n) && (n <=? 90)
      || (192 <=? n) && (n <=? 222) && negb (n =? 215))%nat
  then ascii_of_nat (n + 32) else c.

(** [s.toLowerCase()]. *)
Fixpoint toLowerCase (s : string) : string :=
  match s with
  | EmptyString => EmptyString
  | String c rest => String (toLowerCode c) (toLowerCase rest)
  end.

(** [s.replace(/[^a-z0-9]/g, '-')]. *)
Fixpoint replaceNonAlnum (s : string) : string :=
  match s with
  | EmptyString => EmptyString
  | String c rest =>
      String (if isLowerOrDigit c then c else "-"%char) (replaceNonAlnum rest)
  end.

(** [search] occurs in [s] at position [0]. *)
Fixpoint startsWith (s prefix : string) {struct prefix} : bool :=
  match prefix, s with
  | EmptyString, _ => true
  | String c p, String d r => Ascii.eqb c d && startsWith r p
  | String _ _, EmptyString => false
  end.

(** [s.includes(search)]. *)
Fixpoint includes (s search : string) : bool :=
  startsWith s search
  || match s with
     | EmptyString => false
     | String _ rest => includes rest search
     end.

(** [tags.some(t => t.toLowerCase().includes(tag.toLowerCase()))]. *)
Definition someTagIncludes (tag : string) (ts : list string) : bool :=
  existsb (λ t, includes (toLowerCase t) (toLowerCase tag)) ts.

(** [Object.values(problems)] is the records in property order. *)
Definition getProblemsByTag (tag : string) : M (list Problem) :=
  await ps := getAllProblems in
  ret (List.filter (λ p, someTagIncludes tag (tags (info p))) ps.*2).

Definition getRandomRecommendationByTag (tag : string) (randomIndex : nat)
  : M (option SimilarQuestion) :=
  await all := getAllRecommendations in
  ret (List.filter (λ rec, someTagIncludes tag (sqTags rec)) all !! randomIndex).

(** ** The writers as operations

    The functions of the class that write, as one type of operations, and
    the medium after one of them and after a list of them. *)

Inductive WriteOp :=
  | WSave (now : Z) (problemData : ProblemData)
  | WUpdateTime (now : Z) (problemId : string) (additionalTime : Z)
  | WClear
  | WDelete (problemId : string)
  | WComplete (now : Z) (problemId : string)
  | WRecommend (problemId : string) (recs : list SimilarQuestion).

Definition runWrite (w : WriteOp) (m : Medium) : Medium :=
  match w with
  | WSave now problemData => (saveProblem now problemData m).2
  | WUpdateTime now problemId additionalTime =>
      (updateTimeSpent now problemId additionalTime m).2
  | WClear => (clearAllProblems m).2
  | WDelete problemId => (deleteProblem problemId m).2
  | WComplete now problemId => (markProblemCompleted now problemId m).2
  | WRecommend problemId recs => (addRecommendations problemId recs m).2
  end.

Definition runWrites (ws : list WriteOp) (m : Medium) : Medium :=
  foldl (λ m w, runWrite w m) m ws.

(** The catalogue holds no more records than the cap. *)
Definition withinCap (storage : Storage) : Prop :=
  Z.of_nat (length (problems storage)) ≤ maxStoredProblems (settings storage).

(** A recommendation, for the examples. *)
Definition sampleQuestion (n : Z) : SimilarQuestion :=
  {| sqTitle := "3Sum"; sqNumber := n; sqDifficulty := "Medium";
     sqTags := ["Array"]; sqLink := "https://leetcode.com/problems/3sum/";
     sqAcceptanceRate := None |}.

End Store.

(** * Export and import ([exportData], [importData]) *)

Module Backup.
Import Store.

(** ** JavaScript values that JSON can carry

    Numbers are the integers the store holds.  The fields of an object are
    in property order. *)
Inductive jsval :=
  | JNull
  | JBool (b : bool)
  | JNum (n : Z)
  | JStr (s : string)
  | JArr (items : list jsval)
  | JObj (fields : list (string * jsval)).

(** [!v] is [negb (truthy v)]. *)
Definition truthy (v : jsval) : bool :=
  match v with
  | JNull => false
  | JBool b => b
  | JNum n => negb (n =? 0)
  | JStr s => negb (String.eqb s EmptyString)
  | JArr _ | JObj _ => true
  end.

Inductive jstype := TObject | TBoolean | TNumber | TString | TUndefined.

Definition typeof (v : option jsval) : jstype :=
  match v with
  | None => TUndefined
  | Some JNull | Some (JArr _) | Some (JObj _) => TObject
  | Some (JBool _) => TBoolean
  | Some (JNum _) => TNumber
  | Some (JStr _) => TString
  end.

(** [v.problems]: reading a property of [null] throws ([inl tt]); an object
    yields the property or [undefined] ([inr None]); a primitive value or an
    array has no property of that name. *)
Definition getProblemsProperty (v : jsval) : unit + option jsval :=
  match v with
  | JNull => inl tt
  | JObj fields => inr (objGet "problems" fields)
  | _ => inr None
  end.

(** ** The document as a JavaScript value *)

Definition optField (name : string) (o : option jsval)
  : list (string * jsval) :=
  match o with
  | Some v => [(name, v)]
  | None => []
  end.

Definition problemJS (p : Problem) : jsval :=
  JObj ([("title", JStr (title (info p)));
         ("number", JNum (number (info p)));
         ("difficulty", JStr (difficulty (info p)));
         ("problemType", JStr (problemType (info p)));
         ("tags", JArr (JStr <$> tags (info p)));
         ("description", JStr (description (info p)));
         ("link", JStr (link (info p)))]
        ++ optField "isVisible" (JBool <$> isVisible (info p))
        ++ optField "isCompleted" (JBool <$> isCompleted (info p))
        ++ optField "attempts" (JNum <$> attempts (info p))
        ++ [("lastAccessed", JNum (lastAccessed p));
            ("timeSpent", JNum (timeSpent p))]
        ++ optField "completedAt" (JNum <$> completedAt (info p))).

Definition similarQuestionJS (q : SimilarQuestion) : jsval :=
  JObj ([("title", JStr (sqTitle q));
         ("number", JNum (sqNumber q));
         ("difficulty", JStr (sqDifficulty q));
         ("tags", JArr (JStr <$> sqTags q));
         ("link", JStr (sqLink q))]
        ++ optField "acceptanceRate" (JNum <$> sqAcceptanceRate q)).

Definition tagStatJS (t : TagStat) : jsval :=
  JObj [("count", JNum (count t)); ("completed", JNum (completed t));
        ("totalTime", JNum (totalTime t));
        ("lastAccessed", JNum (tagLastAccessed t))].

Definition settingsJS (s : Settings) : jsval :=
  JObj [("maxStoredProblems", JNum (maxStoredProblems s));
        ("autoSave", JBool (autoSave s));
        ("maxRecommendations", JNum (maxRecommendations s))].

Definition problemsJS (ps : list (string * Problem)) : jsval :=
  JObj (prod_map id problemJS <$> ps).

Definition recommendationsJS (rs : gmap string (list SimilarQuestion)) : jsval :=
  JObj (prod_map id (λ l, JArr (similarQuestionJS <$> l)) <$> map_to_list rs).

Definition revisionsJS (rs : gmap string Problem) : jsval :=
  JObj (prod_map id problemJS <$> map_to_list rs).

Definition tagStatsJS (ts : gmap string TagStat) : jsval :=
  JObj (prod_map id tagStatJS <$> map_to_list ts).

Definition docJS (d : Storage) : jsval :=
  JObj [("problems", problemsJS (problems d));
        ("lastUsedProblemId",
         match lastUsedProblemId d with Some k => JStr k | None => JNull end);
        ("recommendations", recommendationsJS (recommendations d));
        ("revisions", revisionsJS (revisions d));
        ("tagStats", tagStatsJS (tagStats d));
        ("settings", settingsJS (settings d))].

(** ** The two functions

    The text layer is the platform's: [stringify v] is
    [JSON.stringify(v, null, 2)], and [parse text] is [JSON.parse(text)],
    [None] when it throws.  The raw medium is the list of the values written
    under the storage key, the latest first. *)
Class JsonText := {
  stringify : jsval → string;
  parse : string → option jsval
}.

Definition RawMedium : Type := list jsval.

Definition rawOf (m : Medium) : RawMedium := docJS <$> m.

Definition exportData `{JsonText} (m : Medium) : string :=
  stringify (docJS (current m)).

(** The test of [importData]: [true] when the function goes on to save. *)
Definition problemsAccepted (problemsField : option jsval) : bool :=
  match problemsField with
  | Some p =>
      truthy p && match typeof (Some p) with TObject => true | _ => false end
  | None => false
  end.

Definition importData `{JsonText} (jsonData : string) (raw : RawMedium)
  : bool * RawMedium :=
  match parse jsonData with
  | None => (false, raw)
  | Some importedData =>
      match getProblemsProperty importedData with
      | inl _ => (false, raw)
      | inr problemsField =>
          if problemsAccepted problemsField
          then (true, importedData :: raw)
          else (false, raw)
      end
  end.

(** ** The text layer

    A printer and a parser of JSON text for the values above, over lists of
    characters.  The printer lays a value out as [JSON.stringify(v, null, 2)]
    does: two spaces of indentation a level, one member a line, the quote, the
    backslash and the control characters of a string escaped.  The parser
    reads the JSON grammar for these values; a number with a fraction or an
    exponent and an escape of a character code above 255 are outside them and
    are not read. *)
Module Text.

Definition quote : ascii := ascii_of_nat 34.
Definition backslash : ascii := ascii_of_nat 92.
Definition newline : ascii := ascii_of_nat 10.
Definition tab : ascii := ascii_of_nat 9.
Definition carriage : ascii := ascii_of_nat 13.
Definition backspace : ascii := ascii_of_nat 8.
Definition formfeed : ascii := ascii_of_nat 12.

Definition chars : string → list ascii := list_ascii_of_string.

(** *** Printing *)

Definition hexDigit (n : nat) : ascii :=
  if (n <? 10)%nat then ascii_of_nat (48 + n) else ascii_of_nat (87 + n).

(** The text of one character inside a string literal: the quote, the
    backslash and the control characters are escaped. *)
Definition escapeChar (c : ascii) : list ascii :=
  if decide (c = quote) then [backslash; quote]
  else if decide (c = backslash) then [backslash; backslash]
  else if decide (c = backspace) then [backslash; "b"%char]
  else if decide (c = formfeed) then [backslash; "f"%char]
  else if decide (c = newline) then [backslash; "n"%char]
  else if decide (c = carriage) then [backslash; "r"%char]
  else if decide (c = tab) then [backslash; "t"%char]
  else if (nat_of_ascii c <? 32)%nat then
    [backslash; "u"%char; "0"%char; "0"%char;
     hexDigit (nat_of_ascii c / 16); hexDigit (nat_of_ascii c mod 16)]
  else [c].

Fixpoint escape (s : string) : list ascii :=
  match s with
  | EmptyString => []
  | String c rest => escapeChar c ++ escape rest
  end.

Definition printString (s : string) : list ascii :=
  quote :: escape s ++ [quote].

(** The lines of an array or of an object, each behind the indentation
    [inner], with a comma and a line break between two of them. *)
Fixpoint joinLines (inner : list ascii) (lines : list (list ascii))
  : list ascii :=
  match lines with
  | [] => []
  | [line] => inner ++ line
  | line :: rest => inner ++ line ++ ","%char :: newline :: joinLines inner rest
  end.

Fixpoint printValue (indent : list ascii) (v : jsval) : list ascii :=
  let inner := indent ++ [" "%char; " "%char] in
  match v with
  | JNull => chars "null"
  | JBool true => chars "true"
  | JBool false => chars "false"
  | JNum n => chars (pretty n)
  | JStr s => printString s
  | JArr [] => chars "[]"
  | JArr items =>
      "["%char :: newline
      :: joinLines inner (map (printValue inner) items)
      ++ newline :: indent ++ ["]"%char]
  | JObj [] => chars "{}"
  | JObj fields =>
      "{"%char :: newline
      :: joinLines inner
           (map (λ f, printString f.1 ++ ":"%char :: " "%char
                      :: printValue inner f.2) fields)
      ++ newline :: indent ++ ["}"%char]
  end.

Definition print (v : jsval) : string :=
  string_of_list_ascii (printValue [] v).

(** *** Parsing *)

Definition isSpace (c : ascii) : bool :=
  bool_decide (c = " "%char ∨ c = newline ∨ c = tab ∨ c = carriage).

Fixpoint skipSpace (cs : list ascii) : list ascii :=
  match cs with
  | c :: rest => if isSpace c then skipSpace rest else cs
  | [] => []
  end.

Definition digitOf (c : ascii) : option Z :=
  let n := nat_of_ascii c in
  if ((48 <=? n) && (n <=? 57))%nat then Some (Z.of_nat n - 48) else None.

Fixpoint readDigits (acc : Z) (cs : list ascii) : Z * list ascii :=
  match cs with
  | c :: rest =>
      match digitOf c with
      | Some d => readDigits (10 * acc + d) rest
      | None => (acc, cs)
      end
  | [] => (acc, [])
  end.

(** The digits of an integer: a single [0], or a digit other than [0]
    and the digits after it. *)
Definition readNatural (cs : list ascii) : option (Z * list ascii) :=
  match cs with
  | c :: rest =>
      match digitOf c with
      | Some 0 =>
          match rest with
          | d :: _ =>
              match digitOf d with
              | Some _ => None
              | None => Some (0, rest)
              end
          | [] => Some (0, rest)
          end
      | Some _ => Some (readDigits 0 cs)
      | None => None
      end
  | [] => None
  end.

Definition readNumber (cs : list ascii) : option (Z * list ascii) :=
  match cs with
  | c :: rest =>
      if decide (c = "-"%char) then
        '(n, rest') ← readNatural rest; Some (- n, rest')
      else readNatural cs
  | [] => None
  end.

Definition hexValue (c : ascii) : option nat :=
  let n := nat_of_ascii c in
  if ((48 <=? n) && (n <=? 57))%nat then Some (n - 48)%nat
  else if ((97 <=? n) && (n <=? 102))%nat then Some (n - 87)%nat
  else if ((65 <=? n) && (n <=? 70))%nat then Some (n - 55)%nat
  else None.

(** The character a one-letter escape stands for. *)
Definition simpleEscape (e : ascii) : option ascii :=
  if decide (e = "n"%char) then Some newline
  else if decide (e = "t"%char) then Some tab
  else if decide (e = "r"%char) then Some carriage
  else if decide (e = "b"%char) then Some backspace
  else if decide (e = "f"%char) then Some formfeed
  else if decide (e = quote) then Some quote
  else if decide (e = backslash) then Some backslash
  else if decide (e = "/"%char) then Some "/"%char
  else None.

(** The characters of a string literal after its opening quote.  A control
    character has to be escaped; an escape by four hexadecimal digits is read
    when it names a character code below 256. *)
Fixpoint readString (cs : list ascii) : option (string * list ascii) :=
  match cs with
  | [] => None
  | c :: rest =>
      if decide (c = quote) then Some (EmptyString, rest)
      else if decide (c = backslash) then
        match rest with
        | e :: rest' =>
            if decide (e = "u"%char) then
              match rest' with
              | h1 :: h2 :: h3 :: h4 :: rest'' =>
                  match hexValue h1, hexValue h2, hexValue h3, hexValue h4 with
                  | Some a, Some b, Some c', Some d =>
                      let code := (((a * 16 + b) * 16 + c') * 16 + d)%nat in
                      if (code <? 256)%nat then
                        match readString rest'' with
                        | Some (s, rest3) =>
                            Some (String (ascii_of_nat code) s, rest3)
                        | None => None
                        end
                      else None
                  | _, _, _, _ => None
                  end
              | _ => None
              end
            else
              match simpleEscape e, readString rest' with
              | Some x, Some (s, rest'') => Some (String x s, rest'')
              | _, _ => None
              end
        | [] => None
        end
      else if (nat_of_ascii c <? 32)%nat then None
      else
        match readString rest with
        | Some (s, rest') => Some (String c s, rest')
        | None => None
        end
  end.

Fixpoint expect (word : list ascii) (cs : list ascii) : option (list ascii) :=
  match word, cs with
  | [] , _ => Some cs
  | w :: word', c :: cs' => if decide (w = c) then expect word' cs' else None
  | _ :: _, [] => None
  end.

Fixpoint readValue (fuel : nat) (cs : list ascii) : option (jsval * list ascii) :=
  match fuel with
  | O => None
  | S fuel =>
      match skipSpace cs with
      | [] => None
      | c :: rest =>
          match readNumber (c :: rest) with
          | Some (n, rest') => Some (JNum n, rest')
          | None =>
          if decide (c = "n"%char) then
            rest' ← expect (chars "ull") rest; Some (JNull, rest')
          else if decide (c = "t"%char) then
            rest' ← expect (chars "rue") rest; Some (JBool true, rest')
          else if decide (c = "f"%char) then
            rest' ← expect (chars "alse") rest; Some (JBool false, rest')
          else if decide (c = quote) then
            '(s, rest') ← readString rest; Some (JStr s, rest')
          else if decide (c = "["%char) then
            match skipSpace rest with
            | c' :: rest' =>
                if decide (c' = "]"%char) then Some (JArr [], rest')
                else '(items, rest'') ← readItems fuel rest;
                     Some (JArr items, rest'')
            | [] => None
            end
          else if decide (c = "{"%char) then
            match skipSpace rest with
            | c' :: rest' =>
                if decide (c' = "}"%char) then Some (JObj [], rest')
                else '(fields, rest'') ← readFields fuel [] rest;
                     Some (JObj fields, rest'')
            | [] => None
            end
          else None
          end
      end
  end
with readItems (fuel : nat) (cs : list ascii)
  : option (list jsval * list ascii) :=
  match fuel with
  | O => None
  | S fuel =>
      '(v, rest) ← readValue fuel cs;
      match skipSpace rest with
      | c :: rest' =>
          if decide (c = ","%char) then
            '(vs, rest'') ← readItems fuel rest'; Some (v :: vs, rest'')
          else if decide (c = "]"%char) then Some ([v], rest')
          else None
      | [] => None
      end
  end
with readFields (fuel : nat) (seen : list (string * jsval)) (cs : list ascii)
  : option (list (string * jsval) * list ascii) :=
  match fuel with
  | O => None
  | S fuel =>
      match skipSpace cs with
      | q :: rest =>
          if decide (q = quote) then
            '(k, rest1) ← readString rest;
            match skipSpace rest1 with
            | colon :: rest2 =>
                if decide (colon = ":"%char) then
                  '(v, rest3) ← readValue fuel rest2;
                  let seen' := objSet k v seen in
                  match skipSpace rest3 with
                  | c :: rest4 =>
                      if decide (c = ","%char) then readFields fuel seen' rest4
                      else if decide (c = "}"%char) then Some (seen', rest4)
                      else None
                  | [] => None
                  end
                else None
            | [] => None
            end
          else None
      | [] => None
      end
  end.

Definition parseText (text : string) : option jsval :=
  let cs := chars text in
  match readValue (S (length cs)) cs with
  | Some (v, rest) =>
      match skipSpace rest with
      | [] => Some v
      | _ :: _ => None
      end
  | None => None
  end.

(** *** What the parser is proved to read back

    Values whose objects have each key once; their size, which bounds the
    fuel the parser needs; white space and the characters that may follow a
    number. *)

Inductive wf : jsval → Prop :=
  | wf_null : wf JNull
  | wf_bool b : wf (JBool b)
  | wf_num n : wf (JNum n)
  | wf_str s : wf (JStr s)
  | wf_arr items : Forall wf items → wf (JArr items)
  | wf_obj fields :
      NoDup fields.*1 → Forall (λ f, wf f.2) fields → wf (JObj fields).

Fixpoint jsize (v : jsval) : nat :=
  match v with
  | JArr items => S (list_sum (map (λ x, S (jsize x)) items))
  | JObj fields => S (list_sum (map (λ f, S (jsize f.2)) fields))
  | _ => 1
  end.

Definition allSpace (ws : list ascii) : Prop := Forall (λ c, isSpace c = true) ws.

Definition delimited (rest : list ascii) : Prop :=
  match rest with
  | [] => True
  | c :: _ => digitOf c = None
  end.

Definition plainHead (c : ascii) : Prop :=
  isSpace c = false ∧ c ≠ "]"%char ∧ c ≠ "}"%char.

Definition printField (inner : list ascii) (f : string * jsval) : list ascii :=
  printString f.1 ++ ":"%char :: " "%char :: printValue inner f.2.

Definition reads (v : jsval) : Prop :=
  ∀ indent ws rest fuel,
    allSpace indent → allSpace ws → delimited rest → (jsize v ≤ fuel)%nat →
    readValue fuel (ws ++ printValue indent v ++ rest) = Some (v, rest).

Definition quoted (s : string) : string :=
  String quote (s +:+ String quote EmptyString).

End Text.

#[export] Instance referenceText : JsonText :=
  {| stringify := Text.print; parse := Text.parseText |}.

(** The text [{"problems":[]}] and the text [{"foo":1}]. *)
Definition problemsArrayText : string :=
  "{" +:+ Text.quoted "problems" +:+ ":[]}".

Definition fooText : string :=
  "{" +:+ Text.quoted "foo" +:+ ":1}".

End Backup.

(** * The popup ([popup.ts])

    The text of the timer, and the reads the popup makes of the entry of the
    storage without going through the class. *)

Module Popup.
Import Engine Backup.Text.

(** [formatSeconds]; the argument is an integer, which [Number.isFinite]
    accepts and, below [10^21], a template prints in full. *)
Definition formatSeconds (sec : Z) : string :=
  if sec <? 0 then "0s"
  else if sec <? 60 then pretty sec +:+ "s"
  else
    let h := sec / 3600 in
    let m := (sec mod 3600) / 60 in
    let s := sec mod 60 in
    if 0 <? h
    then pretty h +:+ "h " +:+ pretty m +:+ "m " +:+ pretty s +:+ "s"
    else pretty m +:+ "m " +:+ pretty s +:+ "s".

(** Not part of the popup: a reader of the texts [formatSeconds] prints,
    by which two durations are told apart from their texts. *)
Definition readUnit (unit_ : ascii) (cs : list ascii)
  : option (Z * list ascii) :=
  match readNumber cs with
  | Some (n, c :: rest) => if decide (c = unit_) then Some (n, rest) else None
  | _ => None
  end.

Definition readSeconds (text : string) : option Z :=
  let cs := chars text in
  match readUnit "s" cs with
  | Some (s, []) => Some s
  | _ =>
      match readUnit "m" cs with
      | Some (m, sp :: rest) =>
          match readUnit "s" rest with
          | Some (s, []) => if decide (sp = " "%char) then Some (60 * m + s) else None
          | _ => None
          end
      | _ =>
          match readUnit "h" cs with
          | Some (h, sp :: rest) =>
              match readUnit "m" rest with
              | Some (m, sp' :: rest') =>
                  match readUnit "s" rest' with
                  | Some (s, []) =>
                      if decide (sp = " "%char ∧ sp' = " "%char)
                      then Some (3600 * h + 60 * m + s) else None
                  | _ => None
                  end
              | _ => None
              end
          | _ => None
          end
      end
  end.

(** The text [updateTimeForTab] puts in the popup for tab [tabId], from the
    snapshot the background wrote, when the read of the storage succeeds;
    [tabId] is [null] or a number. *)
Definition updateTimeForTab (now : Z) (tabId : option Z)
    (res : gmap string Timer * gmap Z string) : string :=
  match tabId with
  | Some id =>
      if negb (id =? 0) then
        match res.2 !! id with
        | Some title =>
            if negb (String.eqb title EmptyString) then
              match res.1 !! title with
              | Some _ => formatSeconds (elapsedMs now title res / 1000)
              | None => "0s"
              end
            else "0s"
        | None => "0s"
        end
      else "—"
  | None => "—"
  end.

End Popup.

Module PopupStore.
Import Store.

(** The popup reads the entry of the storage itself; the entry is absent
    until the first write. *)
Definition getLastUsedProblem (m : Medium) : option Problem :=
  match m with
  | storage :: _ =>
      match lastUsedProblemId storage with
      | Some id =>
          if negb (String.eqb id EmptyString)
          then objGet id (problems storage) else None
      | None => None
      end
  | [] => None
  end.

(** The counters of the popup's [getProblemStats] (the average apart). *)
Record Stats := mkStats {
  totalProblems : nat;
  statsTotalTimeSpent : Z;
  statsMostUsedProblem : option Problem;
  completedProblems : nat
}.

(** [p.isCompleted] as a condition. *)
Definition truthyBool (o : option bool) : bool :=
  match o with
  | Some b => b
  | None => false
  end.

Definition getProblemStats (m : Medium) : Stats :=
  match m with
  | storage :: _ =>
      let ps := (problems storage).*2 in
      {| totalProblems := length ps;
         completedProblems :=
           length (List.filter (λ p, truthyBool (isCompleted (info p))) ps);
         statsTotalTimeSpent := foldl (λ sum p, sum + timeSpent p) 0 ps;
         statsMostUsedProblem :=
           match ps with
           | [] => None
           | first :: _ =>
               Some (foldl (λ most current,
                              if timeSpent most <? timeSpent current
                              then current else most) first ps)
           end |}
  | [] =>
      {| totalProblems := 0; statsTotalTimeSpent := 0;
         statsMostUsedProblem := None; completedProblems := 0 |}
  end.

Definition getTagStats (m : Medium) : gmap string TagStat :=
  match m with
  | storage :: _ => tagStats storage
  | [] => ∅
  end.

Definition getAllRecommendations (m : Medium) : list SimilarQuestion :=
  match m with
  | storage :: _ => concat (map snd (map_to_list (recommendations storage)))
  | [] => []
  end.

Definition getRandomRecommendation (randomIndex : nat) (m : Medium)
  : option SimilarQuestion :=
  match m with
  | storage :: _ =>
      concat (map snd (map_to_list (recommendations storage))) !! randomIndex
  | [] => None
  end.

Definition getRandomRevisionProblem (randomIndex : nat) (m : Medium)
  : option Problem :=
  match m with
  | storage :: _ => map snd (map_to_list (revisions storage)) !! randomIndex
  | [] => None
  end.

End PopupStore.

(** * Properties of the time accounting engine *)

Module EngineProps.
Import Engine.

(** ** Projections of the handlers *)

Lemma timers_start now title s :
  titleTimers (startTitleIfNeeded now title s)
  = startTitleTimers now title (titleTimers s).
Proof. reflexivity. Qed.

Lemma timers_stop now title s :
  titleTimers (stopTitleIfNeeded now title s)
  = stopTitleTimers now title (titleTimers s).
Proof.
  unfold stopTitleIfNeeded, stopTitleTimers.
  destruct (titleTimers s !! title); reflexivity.
Qed.

Lemma active_start now title s :
  currentActiveTabId (startTitleIfNeeded now title s) = currentActiveTabId s.
Proof. reflexivity. Qed.

Lemma active_stop now title s :
  currentActiveTabId (stopTitleIfNeeded now title s) = currentActiveTabId s.
Proof.
  unfold stopTitleIfNeeded. destruct (titleTimers s !! title); reflexivity.
Qed.

Lemma tabs_start now title s :
  tabToTitle (startTitleIfNeeded now title s) = tabToTitle s.
Proof. reflexivity. Qed.

Lemma tabs_stop now title s :
  tabToTitle (stopTitleIfNeeded now title s) = tabToTitle s.
Proof.
  unfold stopTitleIfNeeded. destruct (titleTimers s !! title); reflexivity.
Qed.

Lemma lookup_startTitleTimers now title tm title' :
  startTitleTimers now title tm !! title'
  = if decide (title = title') then Some (startTimer now (ensuredTimer title tm))
    else tm !! title'.
Proof.
  unfold startTitleTimers, ensureTitleTimer.
  rewrite lookup_insert. case_decide; [done|].
  destruct (tm !! title) eqn:E; [done|]. by rewrite lookup_insert_ne.
Qed.

Lemma lookup_stopTitleTimers now title tm title' :
  stopTitleTimers now title tm !! title'
  = if decide (title = title') then stopTimer now <$> tm !! title
    else tm !! title'.
Proof.
  unfold stopTitleTimers. destruct (tm !! title) eqn:E.
  - rewrite lookup_insert. by case_decide.
  - case_decide; [by subst|done].
Qed.

Lemma stopTimer_fresh now : stopTimer now freshTimer = freshTimer.
Proof. reflexivity. Qed.

Lemma timerOf_start now title s :
  timerOf title (startTitleIfNeeded now title s)
  = startTimer now (timerOf title s).
Proof.
  unfold timerOf, ensuredTimer at 1. rewrite timers_start, lookup_startTitleTimers.
  by rewrite decide_True.
Qed.

Lemma timerOf_stop now title s :
  timerOf title (stopTitleIfNeeded now title s)
  = stopTimer now (timerOf title s).
Proof.
  unfold timerOf, ensuredTimer. rewrite timers_stop, lookup_stopTitleTimers.
  rewrite decide_True by done.
  destruct (titleTimers s !! title); simpl; [done|].
  by rewrite stopTimer_fresh.
Qed.

(** ** One timer under start and stop *)

Lemma timerOf_applyEvent title s e :
  timerOf title (applyEvent title s e) = stepTimer (timerOf title s) e.
Proof. destruct e; [apply timerOf_start | apply timerOf_stop]. Qed.

Lemma timerOf_runEvents title evs s :
  timerOf title (runEvents title evs s)
  = fold_left stepTimer evs (timerOf title s).
Proof.
  unfold runEvents. revert s.
  induction evs as [|e evs IH]; intros s; simpl; [done|].
  by rewrite IH, timerOf_applyEvent.
Qed.

Ltac timer_cases :=
  repeat match goal with
  | |- context [Z.eqb ?a ?b] => destruct (Z.eqb_spec a b)
  | |- context [Z.ltb ?a ?b] => destruct (Z.ltb_spec a b)
  | |- context [Z.leb ?a ?b] => destruct (Z.leb_spec a b)
  | H : context [Z.eqb ?a ?b] |- _ => destruct (Z.eqb_spec a b)
  | H : context [Z.ltb ?a ?b] |- _ => destruct (Z.ltb_spec a b)
  | H : context [Z.leb ?a ?b] |- _ => destruct (Z.leb_spec a b)
  end; simpl in *.

Lemma wellTimed_inv last t :
  wellTimed last t →
  (runningSince t = None ∧ activeCount t = 0)
  ∨ (∃ rs, runningSince t = Some rs ∧ 0 < rs ≤ last ∧ 0 < activeCount t).
Proof.
  intros (Hac & Hiff & Hrs). unfold runningIffActive in Hiff.
  destruct (runningSince t) as [rs|] eqn:E.
  - right. exists rs. split; [done|]. split; [by apply Hrs|].
    apply Hiff. by eexists.
  - left. split; [done|].
    destruct (decide (0 < activeCount t)) as [H|H]; [|lia].
    apply Hiff in H. by destruct H.
Qed.

Lemma stepTimer_wellTimed last t e :
  wellTimed last t → last ≤ eventTime e → 0 < eventTime e →
  wellTimed (eventTime e) (stepTimer t e)
  ∧ activeCount (stepTimer t e) = countAfter (activeCount t) e
  ∧ accumulated (stepTimer t e) + pending (eventTime e) (stepTimer t e)
    = accumulated t + pending last t
      + (if 0 <? activeCount t then eventTime e - last else 0).
Proof.
  intros Hw Hle Hpos.
  destruct (wellTimed_inv _ _ Hw) as [[Hrs Hac]|(rs & Hrs & Hr & Hac)];
    destruct t as [acc rs0 ac]; simpl in *; subst;
    destruct e as [now|now]; simpl in *;
    unfold wellTimed, runningIffActive, startTimer, stopTimer, pending;
    simpl; timer_cases; simpl;
    repeat split; try lia; try (intros [? ?]; congruence);
    try (intros; eexists; reflexivity);
    try (intros; simplify_eq; lia).
Qed.

Lemma chronological_app last p q :
  chronological last (p ++ q)
  ↔ chronological last p ∧ chronological (lastTime last p) q.
Proof.
  revert last. induction p as [|e p IH]; intros last; simpl.
  - tauto.
  - rewrite IH. unfold lastTime. tauto.
Qed.

Lemma stepTimer_banks last t e :
  wellTimed last t → last ≤ eventTime e → 0 < eventTime e →
  accumulated (stepTimer t e)
  = accumulated t + bankedBy t (stepTimer t e) (eventTime e)
  ∧ 0 ≤ bankedBy t (stepTimer t e) (eventTime e).
Proof.
  intros Hw Hle Hpos.
  destruct (wellTimed_inv _ _ Hw) as [[Hrs Hac]|(rs & Hrs & Hr & Hac)];
    destruct t as [acc rs0 ac]; simpl in *; subst;
    destruct e as [now|now]; simpl in *;
    unfold startTimer, stopTimer, bankedBy; simpl; timer_cases; simpl; lia.
Qed.

Lemma runTimer_wellTimed evs : ∀ last t,
  wellTimed last t → chronological last evs →
  wellTimed (lastTime last evs) (fold_left stepTimer evs t)
  ∧ accumulated t ≤ accumulated (fold_left stepTimer evs t)
  ∧ accumulated (fold_left stepTimer evs t)
    + pending (lastTime last evs) (fold_left stepTimer evs t)
    = accumulated t + pending last t
      + activeDuration (activeCount t) last evs.
Proof.
  induction evs as [|e evs IH]; intros last t Hw Hc; simpl.
  - split; [exact Hw|]. split; lia.
  - destruct Hc as (Hpos & Hle & Hc).
    destruct (stepTimer_wellTimed last t e Hw Hle Hpos) as (Hw' & Hn & Hacc).
    destruct (stepTimer_banks last t e Hw Hle Hpos) as (Hb & Hb0).
    destruct (IH _ _ Hw' Hc) as (Hw'' & Hmono & Hsum).
    unfold lastTime in *. simpl. split; [done|]. split; [lia|].
    rewrite Hn in Hsum. lia.
Qed.

Lemma idle_wellTimed last t :
  runningSince t = None → activeCount t = 0 → wellTimed last t.
Proof.
  intros Hrs Hac. unfold wellTimed, runningIffActive. rewrite Hrs, Hac.
  repeat split; try lia; try (intros [? ?]; congruence); congruence.
Qed.


(** The second scenario of the specification, with the clock started at a
    positive reading: two tabs hold the title, the first lets go after two
    seconds and the second four seconds later. *)
Example two_holders_scenario :
  let s := runEvents "A" [Start 1000; Start 2000; Stop 3000] initialState in
  activeCount (timerOf "A" s) = 1
  ∧ is_Some (runningSince (timerOf "A" s))
  ∧ accumulated (timerOf "A" (applyEvent "A" s (Stop 7000))) = 6000.
Proof. vm_compute. repeat split; eauto. Qed.

(** The first scenario, with the clock started at a positive reading: five
    seconds between the start and the stop, and the popup shows five seconds
    at any later time. *)
Example five_seconds_scenario (later : Z) :
  let s := runEvents "A" [Start 1000; Stop 6000] initialState in
  elapsedMs later "A" (persisted s) = 5000.
Proof. reflexivity. Qed.



(** Why the readings are required to be positive: the source tests
    [runningSince] for truthiness, so a reading of [0] stored by a start is
    taken for an unset field by the stop that follows. *)
Remark reading_zero_is_not_banked :
  timerOf "A" (runEvents "A" [Start 0; Stop 5000] initialState)
  = {| accumulated := 0; runningSince := Some 0; activeCount := 0 |}.
Proof. reflexivity. Qed.

(** ** The invariant of the data model *)

Lemma startTimer_inv now t :
  0 < now → runningIffActive t ∧ stampPositive t →
  runningIffActive (startTimer now t) ∧ stampPositive (startTimer now t).
Proof.
  intros Hnow [Hiff Hpos]. unfold runningIffActive, stampPositive in *.
  destruct t as [acc rs ac]; simpl in *. unfold startTimer; simpl.
  destruct (Z.eqb_spec ac 0) as [->|Hne]; simpl.
  - destruct rs as [r|]; simpl.
    + exfalso. assert (0 < 0) by (apply Hiff; by eexists). lia.
    + split; [|intros ? [= <-]; lia].
      split; [lia|]. intros _. by eexists.
  - split; [|done]. rewrite Hiff. split; [lia|]. intros H.
    destruct (decide (0 < ac)) as [|Hn]; [done|].
    destruct rs as [r|]; [apply Hiff; by eexists|].
    exfalso. assert (ac < 0) by lia. clear -Hiff H H0.
    destruct Hiff as [_ Hiff]. lia.
Qed.

Lemma stopTimer_inv now t :
  runningIffActive t ∧ stampPositive t →
  runningIffActive (stopTimer now t) ∧ stampPositive (stopTimer now t).
Proof.
  intros [Hiff Hpos]. unfold runningIffActive, stampPositive in *.
  destruct t as [acc rs ac]; simpl in *. unfold stopTimer; simpl.
  destruct rs as [r|].
  - assert (0 < ac) by (apply Hiff; by eexists).
    assert (0 < r) by (by apply Hpos).
    timer_cases; try lia; (split; [|by intros ? [= <-] || done]);
      (split; [intros [? ?]; simplify_eq; lia | intros; first [lia | by eexists]]).
  - assert (¬ 0 < ac) by (intros H%Hiff; by destruct H).
    timer_cases; try lia; (split; [|done]);
      (split; [intros [? ?]; simplify_eq | lia]).
Qed.

Lemma pauseTimer_inv now t :
  stampPositive t →
  runningIffActive (pauseTimer now t) ∧ stampPositive (pauseTimer now t).
Proof.
  intros Hpos. unfold runningIffActive, stampPositive in *.
  destruct t as [acc rs ac]; simpl in *. unfold pauseTimer; simpl.
  destruct rs as [r|]; simpl.
  - assert (0 < r) by (by apply Hpos).
    destruct (Z.eqb_spec r 0); [lia|]. simpl.
    split; [|done]. split; [intros [? ?]; simplify_eq | lia].
  - split; [|done]. split; [intros [? ?]; simplify_eq | lia].
Qed.

Lemma freshTimer_inv : runningIffActive freshTimer ∧ stampPositive freshTimer.
Proof.
  split; [|done]. split; [intros [? ?]; simplify_eq | simpl; lia].
Qed.

Lemma timersInv_start now title tm :
  0 < now → timersInv tm → timersInv (startTitleTimers now title tm).
Proof.
  intros Hnow Hinv title' t'. rewrite lookup_startTitleTimers.
  case_decide; [|apply Hinv]. intros [= <-].
  apply startTimer_inv; [done|]. unfold ensuredTimer.
  destruct (tm !! title) eqn:E; [by eapply Hinv|apply freshTimer_inv].
Qed.

Lemma timersInv_stop now title tm :
  timersInv tm → timersInv (stopTitleTimers now title tm).
Proof.
  intros Hinv title' t'. rewrite lookup_stopTitleTimers.
  case_decide; [|apply Hinv].
  destruct (tm !! title) eqn:E; simpl; [|done].
  intros [= <-]. apply stopTimer_inv. by eapply Hinv.
Qed.

Lemma timersInv_pause now tm :
  timersInv tm →
  timersInv (map_imap (λ title t, Some (pauseTimer (now title) t)) tm).
Proof.
  intros Hinv title t. rewrite map_lookup_imap.
  destruct (tm !! title) eqn:E; simpl; [|done].
  intros [= <-]. apply pauseTimer_inv. by eapply Hinv.
Qed.

Lemma timersInv_ensure title tm :
  timersInv tm → timersInv (ensureTitleTimer title tm).
Proof.
  intros Hinv title' t'. unfold ensureTitleTimer.
  destruct (tm !! title) eqn:E; [apply Hinv|].
  rewrite lookup_insert. case_decide; [|apply Hinv].
  intros [= <-]. apply freshTimer_inv.
Qed.

Lemma engineInv_save s : timersInv (titleTimers s) → engineInv (saveState s).
Proof. intros H. by split. Qed.

Lemma engineInv_same s s' :
  titleTimers s' = titleTimers s → persisted s' = persisted s →
  engineInv s → engineInv s'.
Proof. unfold engineInv. by intros -> ->. Qed.

Lemma engineInv_start now title s :
  0 < now → engineInv s → engineInv (startTitleIfNeeded now title s).
Proof.
  intros Hnow [Hinv _]. apply engineInv_save. by apply timersInv_start.
Qed.

Lemma engineInv_stop now title s :
  engineInv s → engineInv (stopTitleIfNeeded now title s).
Proof.
  intros Hinv. pose proof (timersInv_stop now title _ (proj1 Hinv)) as Hstop.
  unfold stopTitleIfNeeded, stopTitleTimers in *.
  destruct (titleTimers s !! title); [by apply engineInv_save|done].
Qed.

Lemma engineInv_pauseAll now s :
  engineInv s → engineInv (pauseAllTitles now s).
Proof. intros [Hinv _]. apply engineInv_save. by apply timersInv_pause. Qed.

Lemma engineInv_tabChange nowStop nowStart newTabId s :
  0 < nowStart → engineInv s →
  engineInv (handleTabChange nowStop nowStart newTabId s).
Proof.
  intros Hnow Hinv. unfold handleTabChange. case_decide; [done|].
  set (s1 := match currentActiveTabId s with Some _ => _ | None => _ end).
  assert (engineInv s1) as H1.
  { subst s1. destruct (currentActiveTabId s); [|done].
    destruct (truthyStr _); [by apply engineInv_stop|done]. }
  destruct newTabId as [n|]; [|done].
  destruct (truthyStr _); [|done].
  by apply engineInv_start.
Qed.

Lemma engineInv_tabRemoved now tabId s :
  engineInv s → engineInv (handleTabRemoved now tabId s).
Proof.
  intros Hinv. unfold handleTabRemoved. apply engineInv_save.
  case_decide; [|apply Hinv].
  destruct (truthyStr _); [|apply Hinv].
  apply (engineInv_stop now (default EmptyString (tabToTitle s !! tabId))
           (withTabs (delete tabId (tabToTitle s)) s) Hinv).
Qed.

Lemma engineInv_report now tabId title s :
  0 < now → engineInv s → engineInv (reportTitle now tabId title s).
Proof.
  intros Hnow Hinv. unfold reportTitle.
  destruct (truthyStr title); [|apply engineInv_save; apply Hinv].
  apply engineInv_save.
  set (s2 := withTimers _ _).
  assert (engineInv s2) as H2.
  { split; [|apply Hinv]. apply timersInv_ensure, Hinv. }
  destruct (_ && _); [|apply H2].
  by apply (engineInv_start now (default EmptyString title) s2).
Qed.

Lemma engineInv_load s : engineInv s → engineInv (loadState s).
Proof. intros [_ Hp]. by split. Qed.

Lemma engineInv_initial : engineInv initialState.
Proof. split; intros ? ? H; simpl in H; by rewrite lookup_empty in H. Qed.

Lemma engineInv_step ev s :
  clockPositive ev → engineInv s → engineInv (step ev s).
Proof.
  intros Hclock Hinv. destruct ev; simpl in *.
  - by apply engineInv_start.
  - by apply engineInv_stop.
  - by apply engineInv_pauseAll.
  - apply engineInv_tabChange; [lia|done].
  - by apply engineInv_tabRemoved.
  - unfold onFocusChanged. destruct focus as [found|].
    + destruct (truthyNum found).
      * apply engineInv_tabChange; [lia|done].
      * apply (engineInv_same (pauseAllTitles nowAll s)); [done|done|].
        by apply engineInv_pauseAll.
    + apply (engineInv_same (pauseAllTitles nowAll s)); [done|done|].
      by apply engineInv_pauseAll.
  - by apply engineInv_report.
  - by apply engineInv_load.
Qed.

(** C2.  Every timer of the initial state, and the timer [ensureTitleTimer]
    creates, has [runningSince] set exactly when [activeCount] is positive;
    and every operation of the engine, run at positive clock readings from a
    state whose timers (in memory and persisted) are so, their stored
    readings being clock values, leaves every timer so. *)
Theorem running_iff_active_invariant :
  engineInv initialState
  ∧ runningIffActive freshTimer
  ∧ ∀ (ev : Event) (s : State),
      clockPositive ev → engineInv s → engineInv (step ev s).
Proof.
  split; [apply engineInv_initial|].
  split; [apply freshTimer_inv|].
  intros ev s. apply engineInv_step.
Qed.

(** So the invariant holds in every state the engine reaches from its
    initial state at positive clock readings. *)
Corollary running_iff_active_reachable (evs : list Event) :
  Forall clockPositive evs →
  ∀ title t,
    titleTimers (foldl (λ s ev, step ev s) initialState evs) !! title = Some t →
    runningIffActive t.
Proof.
  intros Hclock.
  assert (∀ s, engineInv s → engineInv (foldl (λ s ev, step ev s) s evs))
    as Hall.
  { induction Hclock as [|ev evs Hev _ IH]; intros s Hs; [done|].
    simpl. apply IH. by apply engineInv_step. }
  intros title t Ht.
  by destruct (proj1 (Hall _ engineInv_initial) title t Ht).
Qed.

Lemma running_iff_active_invariant_witness :
  engineInv (step (EvTabChange 3000 3000 (Some 8))
              (step (EvReport 2000 7 (Some "Two Sum"))
                (step (EvTabChange 1000 1000 (Some 7)) initialState))).
Proof.
  destruct running_iff_active_invariant as (Hinit & _ & Hstep).
  apply Hstep; [simpl; lia|].
  apply Hstep; [simpl; lia|].
  apply Hstep; [simpl; lia|].
  exact Hinit.
Defined.

(** ** Stop never goes below zero *)

Lemma stopTimer_activeCount_nonneg now t : 0 ≤ activeCount (stopTimer now t).
Proof.
  unfold stopTimer. destruct t as [acc rs ac]; simpl.
  timer_cases; destruct rs as [r|]; simpl; timer_cases; lia.
Qed.

Lemma stopTimer_accumulated_nonneg now t :
  0 ≤ accumulated t → (∀ rs, runningSince t = Some rs → rs ≤ now) →
  0 ≤ accumulated (stopTimer now t).
Proof.
  intros Hacc Hrs. unfold stopTimer. destruct t as [acc rs ac]; simpl in *.
  destruct rs as [r|]; [pose proof (Hrs r eq_refl)|];
    timer_cases; lia.
Qed.



(** A stop with nothing to stop, on an idle timer: nothing changes. *)
Example stop_without_start :
  timerOf "A" (stopTitleIfNeeded 5000 "A"
                 (reportTitle 1000 7 (Some "A") initialState))
  = freshTimer.
Proof. reflexivity. Qed.

(** ** Focusing the same tab twice *)

Lemma active_tabChange nowStop nowStart newTabId s :
  currentActiveTabId (handleTabChange nowStop nowStart newTabId s) = newTabId.
Proof.
  unfold handleTabChange. case_decide; [done|].
  destruct newTabId as [n|]; [|done].
  destruct (truthyStr _); [|done]. by rewrite active_start.
Qed.

(** C4.  [handleTabChange] called again for the same tab, whatever the
    clock readings of the second call, returns the state of the first call
    unchanged: the timers (so no [activeCount] is incremented a second time),
    the tab map, the active tab and the persisted snapshot. *)
Theorem tab_focus_idempotent (nowStop nowStart nowStop' nowStart' : Z)
    (tabId : option Z) (s : State) :
  handleTabChange nowStop' nowStart' tabId
    (handleTabChange nowStop nowStart tabId s)
  = handleTabChange nowStop nowStart tabId s.
Proof.
  set (s' := handleTabChange nowStop nowStart tabId s).
  pose proof (active_tabChange nowStop nowStart tabId s) as Hact.
  fold s' in Hact. unfold handleTabChange at 1.
  by rewrite decide_True.
Qed.

(** The listener of [chrome.tabs.onActivated] run twice on a tab whose title
    is known: the count is one, not two. *)
Example focus_twice_counts_once :
  let s0 := reportTitle 500 7 (Some "Two Sum") initialState in
  let s1 := step (EvTabChange 1000 1000 (Some 7)) s0 in
  let s2 := step (EvTabChange 2000 2000 (Some 7)) s1 in
  activeCount (timerOf "Two Sum" s1) = 1
  ∧ activeCount (timerOf "Two Sum" s2) = 1.
Proof. vm_compute. done. Qed.


(** ** Repeated reports of the active tab *)

Lemma truthyStr_Some title : title ≠ EmptyString → truthyStr (Some title) = true.
Proof.
  intros H. simpl. destruct (String.eqb_spec title EmptyString); [done|done].
Qed.

Lemma ensuredTimer_ensure title tm :
  ensuredTimer title (ensureTitleTimer title tm) = ensuredTimer title tm.
Proof.
  unfold ensuredTimer, ensureTitleTimer.
  destruct (tm !! title) eqn:E; [by rewrite E|by rewrite lookup_insert_eq].
Qed.

Lemma report_active now tabId title s :
  title ≠ EmptyString → tabId ≠ 0 → currentActiveTabId s = Some tabId →
  timerOf title (reportTitle now tabId (Some title) s)
  = startTimer now (timerOf title s)
  ∧ currentActiveTabId (reportTitle now tabId (Some title) s) = Some tabId.
Proof.
  intros Ht Hid Hcur. unfold reportTitle.
  rewrite truthyStr_Some by done. simpl. rewrite Hcur. simpl.
  destruct (Z.eqb_spec tabId 0); [done|]. simpl.
  rewrite bool_decide_eq_true_2 by done.
  split; [|done].
  unfold timerOf. simpl. unfold startTitleTimers.
  unfold ensuredTimer at 1. rewrite lookup_insert_eq.
  by rewrite ensuredTimer_ensure.
Qed.

Lemma reportMany_active nows : ∀ tabId title s,
  title ≠ EmptyString → tabId ≠ 0 → currentActiveTabId s = Some tabId →
  timerOf title (reportMany nows tabId title s)
  = fold_left (λ t now, startTimer now t) nows (timerOf title s).
Proof.
  induction nows as [|now nows IH]; intros tabId title s Ht Hid Hcur;
    [done|].
  destruct (report_active now tabId title s Ht Hid Hcur) as [Htm Hact].
  unfold reportMany in *. simpl. rewrite IH by done. by rewrite Htm.
Qed.

Lemma stopMany_timer nows : ∀ title s,
  timerOf title (stopMany nows title s)
  = fold_left (λ t now, stopTimer now t) nows (timerOf title s).
Proof.
  induction nows as [|now nows IH]; intros title s; [done|].
  unfold stopMany in *. simpl. by rewrite IH, timerOf_stop.
Qed.

Lemma starts_count nows : ∀ t,
  activeCount (fold_left (λ t now, startTimer now t) nows t)
  = activeCount t + Z.of_nat (length nows).
Proof.
  induction nows as [|now nows IH]; intros t; simpl; [lia|].
  rewrite IH. simpl. lia.
Qed.

Lemma starts_running nows : ∀ t,
  0 < activeCount t →
  fold_left (λ t now, startTimer now t) nows t
  = {| accumulated := accumulated t; runningSince := runningSince t;
       activeCount := activeCount t + Z.of_nat (length nows) |}.
Proof.
  induction nows as [|now nows IH]; intros t Hac; simpl.
  - destruct t; simpl. f_equal. lia.
  - rewrite IH by (simpl; lia). unfold startTimer; simpl.
    destruct (Z.eqb_spec (activeCount t) 0); [lia|]. simpl. f_equal. lia.
Qed.

Lemma stops_above nows : ∀ t,
  Z.of_nat (length nows) < activeCount t →
  fold_left (λ t now, stopTimer now t) nows t
  = {| accumulated := accumulated t; runningSince := runningSince t;
       activeCount := activeCount t - Z.of_nat (length nows) |}.
Proof.
  induction nows as [|now nows IH]; intros t Hlen; simpl in *.
  - destruct t; simpl. f_equal. lia.
  - assert (stopTimer now t
            = {| accumulated := accumulated t; runningSince := runningSince t;
                 activeCount := activeCount t - 1 |}) as ->.
    { unfold stopTimer. timer_cases; try lia; reflexivity. }
    rewrite IH by (simpl; lia). simpl. f_equal. lia.
Qed.



End EngineProps.

(** * Properties of the record store *)

Module StoreProps.
Import Store.

(** ** Filters that keep or drop everything *)

Lemma filter_keep_all {A} (P : A → Prop) `{!∀ x, Decision (P x)} (l : list A) :
  (∀ x, x ∈ l → P x) → filter P l = l.
Proof.
  induction l as [|a l IH]; intros Hall; [done|].
  rewrite filter_cons_True by (apply Hall; left).
  f_equal. apply IH. intros x Hx. apply Hall. by right.
Qed.

Lemma filter_drop_all {A} (P : A → Prop) `{!∀ x, Decision (P x)} (l : list A) :
  (∀ x, x ∈ l → ¬ P x) → filter P l = [].
Proof.
  induction l as [|a l IH]; intros Hall; [done|].
  rewrite filter_cons_False by (apply Hall; left).
  apply IH. intros x Hx. apply Hall. by right.
Qed.

(** ** Objects *)

Section ObjFacts.
Context {V : Type}.
Implicit Types (o : list (string * V)) (k : string) (v : V).

Lemma objGet_None k o : objGet k o = None ↔ k ∉ o.*1.
Proof.
  induction o as [|[k' v'] o IH]; simpl.
  - split; [intros _; apply not_elem_of_nil|done].
  - case_decide as Hk; subst.
    + split; [done|]. intros H. exfalso. apply H. left.
    + rewrite IH, not_elem_of_cons. split; [by intros ?; split|by intros [_ ?]].
Qed.

Lemma objGet_Some_elem k v o : objGet k o = Some v → (k, v) ∈ o.
Proof.
  induction o as [|[k' v'] o IH]; simpl; [done|].
  case_decide as Hk; subst.
  - intros [= ->]. left.
  - intros H. right. by apply IH.
Qed.

Lemma objGet_elem k v o : NoDup o.*1 → (k, v) ∈ o → objGet k o = Some v.
Proof.
  induction o as [|[k' v'] o IH]; simpl; [by intros _ ?%elem_of_nil|].
  intros [Hk Hnd]%NoDup_cons [[= -> ->]|Hin]%elem_of_cons.
  - by rewrite decide_True.
  - rewrite decide_False; [by apply IH|].
    intros ->. apply Hk. apply list_elem_of_fmap. by exists (k, v).
Qed.

Lemma objSet_new k v o : objGet k o = None → objSet k v o = o ++ [(k, v)].
Proof.
  induction o as [|[k' v'] o IH]; simpl; [done|].
  case_decide as Hk; [done|]. intros Hg. by rewrite IH.
Qed.

Lemma objSet_keys_existing k v o :
  is_Some (objGet k o) → (objSet k v o).*1 = o.*1.
Proof.
  induction o as [|[k' v'] o IH]; simpl; [by intros [? ?]|].
  case_decide as Hk; subst; [done|]. intros Hg. csimpl. f_equal. by apply IH.
Qed.

Lemma objGet_objSet k v o k' :
  objGet k' (objSet k v o) = if decide (k = k') then Some v else objGet k' o.
Proof.
  induction o as [|[k0 v0] o IH]; simpl.
  - by repeat case_decide.
  - destruct (decide (k0 = k)) as [->|Hne]; simpl.
    + by repeat case_decide.
    + rewrite IH. repeat case_decide; congruence.
Qed.

Lemma objGet_objDelete k o k' :
  objGet k' (objDelete k o) = if decide (k = k') then None else objGet k' o.
Proof.
  unfold objDelete. induction o as [|[k0 v0] o IH]; simpl.
  - by case_decide.
  - rewrite filter_cons. simpl. destruct (decide (k0 ≠ k)) as [Hne|Heq]; simpl.
    + rewrite IH. repeat case_decide; congruence.
    + apply dec_stable in Heq. subst. rewrite IH.
      repeat case_decide; congruence.
Qed.

Lemma foldl_objDelete (rem : list (string * V)) : ∀ o,
  foldl (λ o e, objDelete e.1 o) o rem = filter (λ e, e.1 ∉ rem.*1) o.
Proof.
  induction rem as [|r rem IH]; intros o; simpl.
  - symmetry. apply filter_keep_all. intros ? _. apply not_elem_of_nil.
  - rewrite IH. unfold objDelete. rewrite list_filter_filter.
    apply list_filter_iff. intros e. rewrite not_elem_of_cons. tauto.
Qed.

Lemma filter_keys_split (rem rest o : list (string * V)) :
  NoDup o.*1 → o ≡ₚ rem ++ rest →
  filter (λ e, e.1 ∉ rem.*1) o ≡ₚ rest.
Proof.
  intros Hnd Hperm. rewrite Hperm, filter_app.
  assert (NoDup (rem ++ rest).*1) as Hnd' by (by rewrite <- Hperm).
  rewrite fmap_app in Hnd'. apply NoDup_app in Hnd' as (_ & Hdisj & _).
  rewrite (filter_drop_all _ rem), (filter_keep_all _ rest); [done| |].
  - intros e He Hin. apply (Hdisj e.1); [done|].
    apply list_elem_of_fmap. by exists e.
  - intros e He Hne. apply Hne. apply list_elem_of_fmap. by exists e.
Qed.
End ObjFacts.


(** ** The sort of the eviction *)

Lemma insertByAccess_perm e l : insertByAccess e l ≡ₚ e :: l.
Proof.
  induction l as [|e' l IH]; simpl; [done|].
  destruct (_ <=? _); [done|]. rewrite IH. apply Permutation_swap.
Qed.

Lemma sortByAccess_perm l : sortByAccess l ≡ₚ l.
Proof.
  induction l as [|e l IH]; simpl; [done|].
  by rewrite insertByAccess_perm, IH.
Qed.

Lemma insertByAccess_sorted e l :
  StronglySorted olderEq l → StronglySorted olderEq (insertByAccess e l).
Proof.
  induction l as [|e' l IH]; simpl; intros Hs.
  - repeat constructor.
  - apply StronglySorted_inv in Hs as [Hs Hall].
    destruct (Z.leb_spec (lastAccessed e.2) (lastAccessed e'.2)) as [Hle|Hgt].
    + constructor; [by constructor|]. constructor; [done|].
      eapply Forall_impl; [exact Hall|]. unfold olderEq. intros; simpl in *; lia.
    + constructor; [by apply IH|].
      rewrite insertByAccess_perm. constructor; [|done].
      unfold olderEq. lia.
Qed.

Lemma sortByAccess_sorted l : StronglySorted olderEq (sortByAccess l).
Proof.
  induction l as [|e l IH]; simpl; [constructor|].
  by apply insertByAccess_sorted.
Qed.

Lemma sorted_take_drop k (l : list (string * Problem)) :
  StronglySorted olderEq l →
  ∀ a b, a ∈ take k l → b ∈ drop k l → olderEq a b.
Proof.
  revert k. induction l as [|e l IH]; intros k Hs a b Ha Hb.
  - rewrite take_nil in Ha. by apply elem_of_nil in Ha.
  - apply StronglySorted_inv in Hs as [Hs Hall].
    destruct k as [|k]; simpl in *; [by apply elem_of_nil in Ha|].
    apply elem_of_cons in Ha as [->|Ha].
    + rewrite Forall_forall in Hall. apply Hall.
      by apply (subseteq_drop k l).
    + by eapply IH.
Qed.


(** ** Eviction *)

Lemma cleanup_within_cap storage :
  Z.of_nat (length (problems storage)) ≤ maxStoredProblems (settings storage) →
  cleanupOldProblems storage = storage.
Proof.
  intros Hle. unfold cleanupOldProblems.
  destruct (Z.leb_spec (Z.of_nat (length (problems storage)))
                       (maxStoredProblems (settings storage))); [done|lia].
Qed.

Lemma cleanup_frame storage :
  lastUsedProblemId (cleanupOldProblems storage) = lastUsedProblemId storage
  ∧ recommendations (cleanupOldProblems storage) = recommendations storage
  ∧ revisions (cleanupOldProblems storage) = revisions storage
  ∧ tagStats (cleanupOldProblems storage) = tagStats storage
  ∧ settings (cleanupOldProblems storage) = settings storage.
Proof. unfold cleanupOldProblems. by destruct (_ <=? _). Qed.

Lemma cleanup_over_cap storage :
  let entries := problems storage in
  let cap := maxStoredProblems (settings storage) in
  let excess := (length entries - Z.to_nat cap)%nat in
  let removed := take excess (sortByAccess entries) in
  cap < Z.of_nat (length entries) → 0 ≤ cap → NoDup entries.*1 →
  problems (cleanupOldProblems storage)
  = filter (λ e, e.1 ∉ removed.*1) entries
  ∧ problems (cleanupOldProblems storage) ≡ₚ drop excess (sortByAccess entries)
  ∧ length removed = excess
  ∧ Z.of_nat (length (problems (cleanupOldProblems storage))) = cap
  ∧ removed ⊆ entries
  ∧ (∀ r e, r ∈ removed → e ∈ problems (cleanupOldProblems storage) →
       lastAccessed r.2 ≤ lastAccessed e.2).
Proof.
  intros entries cap excess removed Hover Hcap Hnd.
  assert (length (sortByAccess entries) = length entries) as Hlen
    by (by rewrite sortByAccess_perm).
  assert (problems (cleanupOldProblems storage)
          = filter (λ e, e.1 ∉ removed.*1) entries) as Heq.
  { unfold cleanupOldProblems. fold entries cap.
    destruct (Z.leb_spec (Z.of_nat (length entries)) cap); [lia|]. simpl.
    rewrite foldl_objDelete. unfold sliceFromStart. rewrite Hlen.
    destruct (Z.ltb_spec (Z.of_nat (length entries) - cap) 0); [lia|].
    replace (Z.to_nat (Z.min (Z.of_nat (length entries) - cap)
                             (Z.of_nat (length entries)))) with excess
      by (subst excess; lia).
    done. }
  assert (problems (cleanupOldProblems storage)
          ≡ₚ drop excess (sortByAccess entries)) as Hperm.
  { rewrite Heq. apply filter_keys_split; [done|].
    subst removed. by rewrite take_drop, sortByAccess_perm. }
  split; [done|]. split; [done|].
  split; [subst removed; rewrite length_take; lia|].
  split; [rewrite Hperm, length_drop; lia|].
  split.
  - intros r Hr. rewrite <- (sortByAccess_perm entries).
    by apply (subseteq_take excess).
  - intros r e Hr He. rewrite Hperm in He.
    by apply (sorted_take_drop excess (sortByAccess entries)
                (sortByAccess_sorted entries)).
Qed.


(** ** The writers, run on a medium *)

Lemma saveProblem_run now data m :
  (saveProblem now data m).2
  = cleanupOldProblems
      (withLastUsed (Some (generateProblemId data))
         (withProblems
            (objSet (generateProblemId data)
               {| info := data; lastAccessed := now;
                  timeSpent :=
                    match objGet (generateProblemId data) (problems (current m)) with
                    | Some existing => timeSpent existing
                    | None => 0
                    end |}
               (problems (current m)))
            (current m)))
    :: m.
Proof. reflexivity. Qed.

Lemma markProblemCompleted_run now id m :
  (markProblemCompleted now id m).2
  = match objGet id (problems (current m)) with
    | Some p =>
        updateTagStats
          {| problems := objSet id (completeProblem now p) (problems (current m));
             lastUsedProblemId := lastUsedProblemId (current m);
             recommendations := recommendations (current m);
             revisions := <[id := completeProblem now p]> (revisions (current m));
             tagStats := tagStats (current m);
             settings := settings (current m) |}
          (completeProblem now p) true
        :: m
    | None => m
    end.
Proof.
  unfold markProblemCompleted, bind, current. simpl.
  by destruct (objGet id _).
Qed.

(** ** Saving a problem that is already in the catalogue *)

Lemma objGet_filter_keys {V} (K : list string) (o : list (string * V)) k :
  objGet k (filter (λ e, e.1 ∉ K) o)
  = if decide (k ∈ K) then None else objGet k o.
Proof.
  induction o as [|[k' v'] o IH]; simpl.
  - by case_decide.
  - rewrite filter_cons. simpl. destruct (decide (k' ∉ K)) as [Hk|Hk]; simpl.
    + rewrite IH. repeat case_decide; subst; done.
    + apply dec_stable in Hk. rewrite IH.
      repeat case_decide; subst; done.
Qed.

Lemma cleanup_lookup storage k :
  objGet k (problems (cleanupOldProblems storage)) = None
  ∨ objGet k (problems (cleanupOldProblems storage))
    = objGet k (problems storage).
Proof.
  unfold cleanupOldProblems. destruct (_ <=? _); [by right|]. simpl.
  rewrite foldl_objDelete, objGet_filter_keys. case_decide; [by left|by right].
Qed.

(** C9.  [saveProblem] of a payload whose identifier is already in the
    catalogue writes one document in which [lastUsedProblemId] is that
    identifier and the record under it, if any, is the payload with
    [lastAccessed = now] and the [timeSpent] of the record it replaces, never
    another value; the rest of the document is as before.  For a catalogue
    within its cap the record is there, the catalogue has the same
    identifiers and every other record is as before. *)
Theorem save_existing_keeps_time (now : Z) (data : ProblemData) (m : Medium)
    (old : Problem) :
  let storage := current m in
  let id := generateProblemId data in
  let saved :=
    {| info := data; lastAccessed := now; timeSpent := timeSpent old |} in
  objGet id (problems storage) = Some old →
  ∃ doc,
    (saveProblem now data m).2 = doc :: m
    ∧ lastUsedProblemId doc = Some id
    ∧ (∀ r, objGet id (problems doc) = Some r → r = saved)
    ∧ (Z.of_nat (length (problems storage))
       ≤ maxStoredProblems (settings storage) →
       objGet id (problems doc) = Some saved
       ∧ (problems doc).*1 = (problems storage).*1
       ∧ ∀ id', id' ≠ id →
           objGet id' (problems doc) = objGet id' (problems storage))
    ∧ recommendations doc = recommendations storage
    ∧ revisions doc = revisions storage
    ∧ tagStats doc = tagStats storage
    ∧ settings doc = settings storage.
Proof.
  intros storage id saved Hold.
  rewrite saveProblem_run. fold storage id. rewrite Hold. fold saved.
  set (storage1 := withLastUsed _ _).
  exists (cleanupOldProblems storage1). split; [reflexivity|].
  destruct (cleanup_frame storage1) as (-> & -> & -> & -> & ->).
  split; [done|]. split; [|split; [|done]].
  - intros r Hr.
    destruct (cleanup_lookup storage1 id) as [Hnone|Hsame]; [congruence|].
    rewrite Hsame in Hr. simpl in Hr.
    rewrite objGet_objSet, decide_True in Hr by done. congruence.
  - intros Hcap. rewrite cleanup_within_cap.
    2:{ simpl. rewrite <- (length_fmap fst), objSet_keys_existing, length_fmap
          by (by eexists). done. }
    simpl. split; [by rewrite objGet_objSet, decide_True|].
    split; [by apply objSet_keys_existing; eexists|].
    intros id' Hne. by rewrite objGet_objSet, decide_False.
Qed.

Example twoSum_id : generateProblemId twoSum = "1-1--two-sum".
Proof. reflexivity. Qed.

Lemma save_existing_keeps_time_witness :
  let m := (updateTimeSpent 2000 "1-1--two-sum" 5000
              (saveProblem 1000 twoSum []).2).2 in
  ∃ doc,
    (saveProblem 3000 twoSum m).2 = doc :: m
    ∧ objGet "1-1--two-sum" (problems doc)
      = Some {| info := twoSum; lastAccessed := 3000; timeSpent := 5000 |}
    ∧ lastUsedProblemId doc = Some "1-1--two-sum".
Proof.
  intros m.
  destruct (save_existing_keeps_time 3000 twoSum m
              {| info := twoSum; lastAccessed := 2000; timeSpent := 5000 |})
    as (doc & Hw & Hlast & _ & Hcap & _); [reflexivity|].
  destruct Hcap as (Hrec & _); [by vm_compute|].
  exists doc. split; [exact Hw|]. split; [exact Hrec|exact Hlast].
Defined.


(** ** Completion *)

Lemma bumpTag_lookup p b stats tag tag' :
  bumpTag p b stats tag !! tag'
  = if decide (tag = tag') then
      Some {| count := count (default zeroTagStat (stats !! tag)) + 1;
              completed := completed (default zeroTagStat (stats !! tag))
                           + (if b then 1 else 0);
              totalTime := totalTime (default zeroTagStat (stats !! tag))
                           + timeSpent p;
              tagLastAccessed := lastAccessed p |}
    else stats !! tag'.
Proof. unfold bumpTag. by rewrite lookup_insert. Qed.

Lemma bumpTags_other p b ts : ∀ stats tag,
  tag ∉ ts → foldl (bumpTag p b) stats ts !! tag = stats !! tag.
Proof.
  induction ts as [|t ts IH]; intros stats tag Hnot; simpl; [done|].
  apply not_elem_of_cons in Hnot as [Hne Hnot].
  rewrite IH by done. rewrite bumpTag_lookup. by rewrite decide_False.
Qed.

Lemma bumpTags_member p b ts : ∀ stats tag,
  NoDup ts → tag ∈ ts →
  foldl (bumpTag p b) stats ts !! tag
  = Some {| count := count (default zeroTagStat (stats !! tag)) + 1;
            completed := completed (default zeroTagStat (stats !! tag))
                         + (if b then 1 else 0);
            totalTime := totalTime (default zeroTagStat (stats !! tag))
                         + timeSpent p;
            tagLastAccessed := lastAccessed p |}.
Proof.
  induction ts as [|t ts IH]; intros stats tag Hnd Hin; simpl.
  - by apply elem_of_nil in Hin.
  - apply NoDup_cons in Hnd as [Ht Hnd].
    apply elem_of_cons in Hin as [->|Hin].
    + rewrite bumpTags_other by done. by rewrite bumpTag_lookup, decide_True.
    + rewrite IH by done. rewrite bumpTag_lookup.
      rewrite decide_False; [done|]. by intros ->.
Qed.




(** ** Saving at the cap *)

(** C6 as stated fails on a catalogue at its cap that already holds the
    identifier of the payload: the save replaces the record in place, and no
    identifier of the catalogue is missing afterwards. *)
Lemma save_existing_at_cap_removes_nothing :
  let m := (saveProblem 1000 twoSum [emptyWithCap 1]).2 in
  let m' := (saveProblem 2000 twoSum m).2 in
  Z.of_nat (length (problems (current m)))
  = maxStoredProblems (settings (current m))
  ∧ ¬ ∃ victim, victim ∈ (problems (current m)).*1
                ∧ victim ∉ (problems (current m')).*1.
Proof.
  intros m m'. split; [reflexivity|].
  intros (victim & Hin & Hout). apply Hout.
  vm_compute in Hin. vm_compute. exact Hin.
Qed.

Lemma saved_entries_NoDup (o : list (string * Problem)) id v :
  NoDup o.*1 → objGet id o = None → NoDup (o ++ [(id, v)]).*1.
Proof.
  intros Hnd Hnone. rewrite fmap_app. apply NoDup_app.
  split; [done|]. split; [|apply NoDup_singleton].
  intros k Hk Hk'. simpl in Hk'. apply list_elem_of_singleton in Hk' as ->.
  by apply objGet_None in Hnone.
Qed.

(** The readers leave the medium as it is. *)
Lemma readers_write_nothing (m : Medium) (id : string) (i : nat) :
  (getAllProblems m).2 = m
  ∧ (getProblem id m).2 = m
  ∧ (getLastUsedProblem m).2 = m
  ∧ (getRecommendations id m).2 = m
  ∧ (getAllRecommendations m).2 = m
  ∧ (getRandomRecommendation i m).2 = m
  ∧ (getTagStats m).2 = m
  ∧ (getRevisionProblems m).2 = m
  ∧ (getRandomRevisionProblem i m).2 = m
  ∧ (getProblemStats m).2 = m.
Proof.
  repeat split; try reflexivity.
  unfold getLastUsedProblem, bind. simpl.
  destruct (lastUsedProblemId _) as [k|]; [|done].
  by destruct (negb _).
Qed.

(** The identifiers of the catalogue stay distinct under every writer. *)
Lemma objSet_NoDup {V} k (v : V) o : NoDup o.*1 → NoDup (objSet k v o).*1.
Proof.
  intros Hnd. destruct (objGet k o) as [v'|] eqn:E.
  - by rewrite objSet_keys_existing by (by eexists).
  - rewrite objSet_new by done. rewrite fmap_app. apply NoDup_app.
    split; [done|]. split; [|apply NoDup_singleton].
    intros k' Hk Hk'. simpl in Hk'. apply list_elem_of_singleton in Hk' as ->.
    by apply objGet_None in E.
Qed.

Lemma filter_NoDup_keys {V} (P : string * V → Prop) `{!∀ e, Decision (P e)} o :
  NoDup o.*1 → NoDup (filter P o).*1.
Proof.
  intros Hnd. eapply sublist_NoDup; [exact Hnd|].
  apply fmap_sublist, sublist_filter.
Qed.

Lemma cleanup_keysDistinct storage :
  keysDistinct storage → keysDistinct (cleanupOldProblems storage).
Proof.
  unfold keysDistinct, cleanupOldProblems. intros Hnd.
  destruct (_ <=? _); [done|]. simpl. rewrite foldl_objDelete.
  by apply filter_NoDup_keys.
Qed.

Lemma writers_keep_keys_distinct (m : Medium) :
  keysDistinct (current m) →
  (∀ now data, keysDistinct (current (saveProblem now data m).2))
  ∧ (∀ now id extra, keysDistinct (current (updateTimeSpent now id extra m).2))
  ∧ keysDistinct (current (clearAllProblems m).2)
  ∧ (∀ id, keysDistinct (current (deleteProblem id m).2))
  ∧ (∀ now id, keysDistinct (current (markProblemCompleted now id m).2))
  ∧ (∀ id recs, keysDistinct (current (addRecommendations id recs m).2)).
Proof.
  intros Hnd. repeat split.
  - intros now data. rewrite saveProblem_run.
    apply cleanup_keysDistinct. by apply objSet_NoDup.
  - intros now id extra. unfold updateTimeSpent, bind, current in *. simpl.
    destruct (objGet id _); [|done]. by apply objSet_NoDup.
  - apply NoDup_nil_2.
  - intros id. unfold deleteProblem, bind, current in *. simpl.
    case_decide; by apply filter_NoDup_keys.
  - intros now id. rewrite markProblemCompleted_run.
    destruct (objGet id _); [|done]. by apply objSet_NoDup.
  - done.
Qed.

(** C6, as the code has it.  Saving a problem whose identifier is not yet
    in a catalogue that holds exactly [maxStoredProblems] records (under
    distinct identifiers) writes a document from which exactly one record of
    the catalogue with the saved record added is missing, one whose
    [lastAccessed] is smallest among them, and whose catalogue has the size
    of the cap; saving one whose identifier is already there leaves the
    identifiers of the catalogue as they are.  In general [cleanupOldProblems] changes nothing when the
    count is within the cap, and otherwise (for a cap that is not negative)
    leaves exactly the cap, every record it removes being accessed no later
    than every record it keeps.  No reader writes to the medium. *)
Theorem eviction_at_cap :
  (∀ (now : Z) (data : ProblemData) (m : Medium),
     let storage := current m in
     let id := generateProblemId data in
     let entries :=
       problems storage
       ++ [(id, {| info := data; lastAccessed := now; timeSpent := 0 |})] in
     Z.of_nat (length (problems storage)) = maxStoredProblems (settings storage) →
     keysDistinct storage →
     objGet id (problems storage) = None →
     ∃ doc victim,
       (saveProblem now data m).2 = doc :: m
       ∧ victim ∈ entries
       ∧ problems doc = filter (λ e, e.1 ≠ victim.1) entries
       ∧ Z.of_nat (length (problems doc)) = maxStoredProblems (settings storage)
       ∧ ∀ e, e ∈ entries → lastAccessed victim.2 ≤ lastAccessed e.2)
  ∧ (∀ (now : Z) (data : ProblemData) (m : Medium),
       let storage := current m in
       Z.of_nat (length (problems storage))
       = maxStoredProblems (settings storage) →
       is_Some (objGet (generateProblemId data) (problems storage)) →
       ∃ doc,
         (saveProblem now data m).2 = doc :: m
         ∧ (problems doc).*1 = (problems storage).*1)
  ∧ (∀ storage : Storage,
       Z.of_nat (length (problems storage))
       ≤ maxStoredProblems (settings storage) →
       cleanupOldProblems storage = storage)
  ∧ (∀ storage : Storage,
       maxStoredProblems (settings storage)
       < Z.of_nat (length (problems storage)) →
       0 ≤ maxStoredProblems (settings storage) →
       keysDistinct storage →
       ∃ removed,
         removed ⊆ problems storage
         ∧ problems (cleanupOldProblems storage)
           = filter (λ e, e.1 ∉ removed.*1) (problems storage)
         ∧ Z.of_nat (length (problems (cleanupOldProblems storage)))
           = maxStoredProblems (settings storage)
         ∧ ∀ r e, r ∈ removed → e ∈ problems (cleanupOldProblems storage) →
             lastAccessed r.2 ≤ lastAccessed e.2)
  ∧ (∀ (m : Medium) (id : string) (i : nat),
       (getAllProblems m).2 = m
       ∧ (getProblem id m).2 = m
       ∧ (getLastUsedProblem m).2 = m
       ∧ (getRecommendations id m).2 = m
       ∧ (getAllRecommendations m).2 = m
       ∧ (getRandomRecommendation i m).2 = m
       ∧ (getTagStats m).2 = m
       ∧ (getRevisionProblems m).2 = m
       ∧ (getRandomRevisionProblem i m).2 = m
       ∧ (getProblemStats m).2 = m).
Proof.
  split; [|split; [|split; [apply cleanup_within_cap
                           |split; [|apply readers_write_nothing]]]].
  2:{ intros now data m storage Hcap [old Hold].
      rewrite saveProblem_run. fold storage. rewrite Hold.
      eexists. split; [reflexivity|].
      rewrite cleanup_within_cap; simpl.
      - by apply objSet_keys_existing; eexists.
      - rewrite <- (length_fmap fst), objSet_keys_existing, length_fmap
          by (by eexists). lia. }
  - intros now data m storage id entries Hcap Hnd Hnone.
    rewrite saveProblem_run. fold storage id. rewrite Hnone.
    rewrite (objSet_new _ _ _ Hnone). fold entries.
    set (storage1 := withLastUsed _ _).
    assert (length entries = S (length (problems storage))) as Hlen
      by (subst entries; rewrite length_app; simpl; lia).
    destruct (cleanup_over_cap storage1)
      as (Hfilter & _ & _ & Hsize & Hsub & Hmin);
      [simpl; lia | simpl; lia | by apply saved_entries_NoDup|].
    simpl in *.
    replace (length entries - Z.to_nat (maxStoredProblems (settings storage)))%nat
      with 1%nat in * by lia.
    pose proof (sortByAccess_perm entries) as Hperm.
    pose proof (sortByAccess_sorted entries) as Hsorted.
    destruct (sortByAccess entries) as [|victim rest] eqn:Hs.
    { apply Permutation_length in Hperm. simpl in Hperm. lia. }
    simpl in *. exists (cleanupOldProblems storage1), victim.
    split; [done|]. split; [apply Hsub; left|].
    split.
    { rewrite Hfilter. apply list_filter_iff. intros e.
      rewrite list_elem_of_singleton. done. }
    split; [done|].
    intros e He. rewrite <- Hperm in He.
    apply StronglySorted_inv in Hsorted as [_ Hall].
    apply elem_of_cons in He as [->|He]; [lia|].
    rewrite Forall_forall in Hall. by apply Hall.
  - intros storage Hover Hcap Hnd.
    destruct (cleanup_over_cap storage Hover Hcap Hnd)
      as (Hfilter & _ & _ & Hsize & Hsub & Hmin).
    eexists. split; [exact Hsub|]. split; [exact Hfilter|].
    split; [exact Hsize|exact Hmin].
Qed.


Lemma eviction_at_cap_witness :
  let m := (saveProblem 1000 twoSum [emptyWithCap 1]).2 in
  ∃ doc victim,
    (saveProblem 2000 threeSum m).2 = doc :: m
    ∧ victim ∈ problems (current m)
               ++ [("15-15--3sum",
                    {| info := threeSum; lastAccessed := 2000; timeSpent := 0 |})]
    ∧ Z.of_nat (length (problems doc)) = 1.
Proof.
  intros m.
  destruct (proj1 eviction_at_cap 2000 threeSum m)
    as (doc & victim & Hw & Hin & _ & Hsize & _).
  - reflexivity.
  - apply (bool_decide_unpack _). by vm_compute.
  - reflexivity.
  - exists doc, victim. split; [exact Hw|]. split; [exact Hin|exact Hsize].
Defined.

(** The same save, evaluated: the older record goes, the new one stays. *)
Example eviction_evaluated :
  let m := (saveProblem 1000 twoSum [emptyWithCap 1]).2 in
  (problems (current (saveProblem 2000 threeSum m).2)).*1 = ["15-15--3sum"].
Proof. reflexivity. Qed.

(** Among records accessed at the same time the one that comes first in the
    catalogue goes. *)
Example eviction_tie :
  let m := (saveProblem 1000 threeSum (saveProblem 1000 twoSum [emptyWithCap 1]).2).2 in
  (problems (current m)).*1 = ["15-15--3sum"].
Proof. reflexivity. Qed.

End StoreProps.

(** * The text layer reads back what it prints *)

Module TextProps.
Import Store Backup Backup.Text.

(** ** White space *)

Lemma skipSpace_app ws cs : allSpace ws → skipSpace (ws ++ cs) = skipSpace cs.
Proof.
  induction 1 as [|c ws Hc _ IH]; simpl; [done|]. by rewrite Hc.
Qed.

Lemma skipSpace_head c cs : isSpace c = false → skipSpace (c :: cs) = c :: cs.
Proof. intros H. simpl. by rewrite H. Qed.

(** ** Strings *)

Lemma readString_escapeChar c rest :
  readString (escapeChar c ++ rest)
  = match readString rest with
    | Some (s, rest') => Some (String c s, rest')
    | None => None
    end.
Proof. destruct c as [[] [] [] [] [] [] [] []]; reflexivity. Qed.

Lemma readString_escape s rest :
  readString (escape s ++ quote :: rest) = Some (s, rest).
Proof.
  induction s as [|c s IH]; [done|].
  cbn [escape]. by rewrite <- app_assoc, readString_escapeChar, IH.
Qed.

(** ** Numbers *)

Lemma digitOf_char d :
  (d < 10)%N → digitOf (pretty_N_char d) = Some (Z.of_N d).
Proof.
  intros Hd.
  assert (d = 0 ∨ d = 1 ∨ d = 2 ∨ d = 3 ∨ d = 4 ∨ d = 5 ∨ d = 6 ∨ d = 7
          ∨ d = 8 ∨ d = 9)%N as Hcases by lia.
  repeat (destruct Hcases as [->|Hcases]; [reflexivity|]). by subst.
Qed.

Lemma readDigits_delimited acc rest :
  delimited rest → readDigits acc rest = (acc, rest).
Proof. destruct rest as [|c rest]; simpl; [done|]. by intros ->. Qed.

Lemma readDigits_pretty_go x : ∀ s acc tail,
  ∃ r, readDigits acc (chars (pretty_N_go x s) ++ tail)
       = readDigits r (chars s ++ tail)
       ∧ (acc = 0 → r = Z.of_N x).
Proof.
  induction (N.lt_wf_0 x) as [x _ IH]; intros s acc tail.
  destruct (decide (x = 0)%N) as [->|Hx].
  - rewrite pretty_N_go_0. exists acc. split; [done|]. by intros ->.
  - rewrite pretty_N_go_step by lia.
    destruct (IH (x `div` 10)%N (N.div_lt x 10 ltac:(lia) eq_refl)
                (String (pretty_N_char (x `mod` 10)) s) acc tail)
      as (r & Hr & Hr0).
    rewrite Hr. simpl.
    rewrite digitOf_char by (apply N.mod_lt; lia).
    eexists. split; [reflexivity|]. intros Hacc. rewrite (Hr0 Hacc).
    pose proof (N.div_mod x 10 ltac:(lia)) as E.
    apply (f_equal Z.of_N) in E. rewrite N2Z.inj_add, N2Z.inj_mul in E.
    simpl Z.of_N in E. symmetry. exact E.
Qed.

Lemma pretty_go_head x : ∀ s,
  (0 < x)%N →
  ∃ c t d, chars (pretty_N_go x s) = c :: t ∧ digitOf c = Some d ∧ 0 < d.
Proof.
  induction (N.lt_wf_0 x) as [x _ IH]; intros s Hx.
  rewrite pretty_N_go_step by done.
  destruct (decide (x `div` 10 = 0)%N) as [Hd|Hd].
  - rewrite Hd, pretty_N_go_0. simpl. eexists _, _, _.
    split; [reflexivity|].
    rewrite digitOf_char by (apply N.mod_lt; lia). split; [reflexivity|].
    pose proof (N.div_mod x 10 ltac:(lia)) as E. rewrite Hd in E. lia.
  - apply IH; [apply N.div_lt; lia|by apply N.neq_0_lt_0].
Qed.

Lemma readDigits_positive p rest :
  delimited rest →
  readDigits 0 (chars (pretty (N.pos p)) ++ rest) = (Z.pos p, rest).
Proof.
  intros Hrest. unfold pretty, pretty_N. rewrite decide_False by done.
  destruct (readDigits_pretty_go (N.pos p) "" 0 rest) as (r & -> & Hr).
  rewrite (Hr eq_refl). simpl. by apply readDigits_delimited.
Qed.

Lemma positive_head p :
  ∃ c t d, chars (pretty (N.pos p)) = c :: t ∧ digitOf c = Some d ∧ 0 < d.
Proof.
  unfold pretty, pretty_N. rewrite decide_False by done.
  by apply pretty_go_head.
Qed.

Lemma readNatural_positive p rest :
  delimited rest →
  readNatural (chars (pretty (N.pos p)) ++ rest) = Some (Z.pos p, rest).
Proof.
  intros Hrest. pose proof (readDigits_positive p rest Hrest) as Hread.
  destruct (positive_head p) as (c & t & d & Hc & Hd & Hpos).
  rewrite Hc in *. simpl app in *. unfold readNatural. rewrite Hd.
  destruct d as [|d|d]; [lia| |lia]. by rewrite Hread.
Qed.

Lemma readNumber_pretty n rest :
  delimited rest → readNumber (chars (pretty n) ++ rest) = Some (n, rest).
Proof.
  intros Hrest. destruct n as [|p|p].
  - destruct rest as [|c rest]; [done|]. simpl in Hrest.
    change (chars (pretty 0) ++ c :: rest) with ("0"%char :: c :: rest).
    unfold readNumber. rewrite decide_False by done.
    unfold readNatural. change (digitOf "0") with (Some 0). by rewrite Hrest.
  - change (pretty (Z.pos p)) with (pretty (N.pos p)).
    pose proof (readNatural_positive p rest Hrest) as Hread.
    destruct (positive_head p) as (c & t & d & Hc & Hd & _).
    rewrite Hc in *. simpl app in *. unfold readNumber.
    rewrite decide_False by (intros ->; done). exact Hread.
  - change (chars (pretty (Z.neg p)) ++ rest)
      with ("-"%char :: (chars (pretty (N.pos p)) ++ rest)).
    unfold readNumber. rewrite decide_True by done.
    by rewrite readNatural_positive.
Qed.

(** ** The first character of a printed value *)

Lemma digit_plain c : is_Some (digitOf c) → plainHead c.
Proof.
  intros [d Hd]. repeat split.
  - unfold isSpace. apply bool_decide_eq_false.
    intros [-> | [-> | [-> | ->]]]; discriminate.
  - intros ->; discriminate.
  - intros ->; discriminate.
Qed.

Lemma printValue_head indent v :
  ∃ c t, printValue indent v = c :: t ∧ plainHead c.
Proof.
  destruct v as [|[]|n|s|[|x items]|[|f fields]];
    try (eexists _, _; split; [reflexivity|]; by repeat split).
  destruct n as [|p|p].
  - eexists _, _; split; [reflexivity|]; by repeat split.
  - destruct (positive_head p) as (c & t & d & Hc & Hd & _).
    exists c, t. split; [exact Hc|]. apply digit_plain. by eexists.
  - eexists _, _; split; [reflexivity|]; by repeat split.
Qed.

Lemma skipSpace_to ws c t :
  allSpace ws → isSpace c = false → skipSpace (ws ++ c :: t) = c :: t.
Proof. intros Hws Hc. rewrite skipSpace_app by done. by apply skipSpace_head. Qed.

Lemma readNumber_other c rest :
  c ≠ "-"%char → digitOf c = None → readNumber (c :: rest) = None.
Proof.
  intros Hc Hd. unfold readNumber, readNatural. by rewrite decide_False, Hd.
Qed.

Lemma allSpace_inner indent : allSpace indent → allSpace (indent ++ [" "%char; " "%char]).
Proof. intros H. apply Forall_app. split; [done|]. by repeat constructor. Qed.

Lemma allSpace_newline ws : allSpace ws → allSpace (newline :: ws).
Proof. intros H. by constructor. Qed.

(** ** The items of an array *)

Lemma joinLines_one inner line : joinLines inner [line] = inner ++ line.
Proof. reflexivity. Qed.

Lemma joinLines_more inner line line' lines :
  joinLines inner (line :: line' :: lines)
  = inner ++ line ++ ","%char :: newline :: joinLines inner (line' :: lines).
Proof. reflexivity. Qed.

Lemma readItems_last fuel cs v ws tail :
  readValue fuel cs = Some (v, ws ++ "]"%char :: tail) → allSpace ws →
  readItems (S fuel) cs = Some ([v], tail).
Proof.
  intros Hv Hws. simpl. rewrite Hv. simpl.
  rewrite skipSpace_to by done. by rewrite decide_False, decide_True.
Qed.

Lemma readItems_more fuel cs v ws rest vs tail :
  readValue fuel cs = Some (v, ws ++ ","%char :: rest) → allSpace ws →
  readItems fuel rest = Some (vs, tail) →
  readItems (S fuel) cs = Some (v :: vs, tail).
Proof.
  intros Hv Hws Hvs. simpl. rewrite Hv. simpl.
  rewrite skipSpace_to by done. rewrite decide_True by done.
  by rewrite Hvs.
Qed.

Lemma delimited_newline tail : delimited (newline :: tail).
Proof. reflexivity. Qed.

Lemma delimited_comma tail : delimited (","%char :: tail).
Proof. reflexivity. Qed.

Lemma readItems_lines items : ∀ inner indent ws rest fuel,
  items ≠ [] → Forall reads items →
  allSpace inner → allSpace indent → allSpace ws →
  (list_sum (map (λ x, S (jsize x)) items) ≤ fuel)%nat →
  readItems fuel
    (ws ++ joinLines inner (map (printValue inner) items)
        ++ newline :: indent ++ "]"%char :: rest)
  = Some (items, rest).
Proof.
  induction items as [|x items IH];
    intros inner indent ws rest fuel Hne Hall Hin Hind Hws Hfuel; [done|].
  apply Forall_cons in Hall as [Hx Hall].
  destruct fuel as [|fuel]; [simpl in Hfuel; lia|].
  assert (jsize x ≤ fuel)%nat as Hfx by (simpl in Hfuel; lia).
  destruct items as [|y items].
  - rewrite map_cons, joinLines_one.
    apply (readItems_last _ _ _ (newline :: indent)); [|by constructor].
    rewrite <- (app_assoc inner), (app_assoc ws).
    apply Hx; [done|by apply Forall_app|apply delimited_newline|done].
  - rewrite (map_cons _ x), (map_cons _ y), joinLines_more, <- (map_cons _ y).
    set (J := joinLines inner (map (printValue inner) (y :: items))).
    set (tail := newline :: indent ++ "]"%char :: rest).
    assert (ws ++ (inner ++ printValue inner x ++ ","%char :: newline :: J) ++ tail
            = (ws ++ inner) ++ printValue inner x
              ++ [] ++ ","%char :: ([newline] ++ J ++ tail)) as ->.
    { rewrite <- !app_assoc. simpl. by rewrite <- ?app_assoc. }
    eapply (readItems_more _ _ x []); [|constructor|].
    + apply Hx; [done|by apply Forall_app|apply delimited_comma|done].
    + apply (IH inner indent [newline]); try done.
      * by repeat constructor.
      * simpl in *. lia.
Qed.

(** ** The members of an object *)

Lemma readFields_step fuel seen ws k rest2 v rest3 :
  allSpace ws → readValue fuel rest2 = Some (v, rest3) →
  readFields (S fuel) seen
    (ws ++ printString k ++ ":"%char :: rest2)
  = match skipSpace rest3 with
    | c :: rest4 =>
        if decide (c = ","%char) then readFields fuel (objSet k v seen) rest4
        else if decide (c = "}"%char) then Some (objSet k v seen, rest4)
        else None
    | [] => None
    end.
Proof.
  intros Hws Hv. unfold printString.
  rewrite <- app_comm_cons, <- app_assoc. simpl.
  rewrite skipSpace_to by done.
  destruct (decide (quote = quote)); [|done].
  rewrite readString_escape. simpl.
  destruct (decide (":"%char = ":"%char)); [|done].
  rewrite Hv. reflexivity.
Qed.

Lemma readFields_lines fields : ∀ inner indent ws seen rest fuel,
  fields ≠ [] → Forall (λ f, reads f.2) fields →
  allSpace inner → allSpace indent → allSpace ws →
  (list_sum (map (λ f, S (jsize f.2)) fields) ≤ fuel)%nat →
  readFields fuel seen
    (ws ++ joinLines inner (map (printField inner) fields)
        ++ newline :: indent ++ "}"%char :: rest)
  = Some (foldl (λ acc f, objSet f.1 f.2 acc) seen fields, rest).
Proof.
  induction fields as [|[k v] fields IH];
    intros inner indent ws seen rest fuel Hne Hall Hin Hind Hws Hfuel; [done|].
  apply Forall_cons in Hall as [Hv Hall]. simpl in Hv.
  destruct fuel as [|fuel]; [simpl in Hfuel; lia|].
  assert (jsize v ≤ fuel)%nat as Hfv by (simpl in Hfuel; lia).
  set (tail := newline :: indent ++ "}"%char :: rest).
  destruct fields as [|f fields].
  - rewrite map_cons, joinLines_one. unfold printField at 1. simpl fst. simpl snd.
    assert (ws ++ (inner ++ printString k ++ ":"%char :: " "%char
                   :: printValue inner v) ++ tail
            = (ws ++ inner) ++ printString k ++ ":"%char
              :: ([" "%char] ++ printValue inner v ++ tail)) as ->.
    { rewrite <- !app_assoc. simpl. by rewrite <- ?app_assoc. }
    rewrite (readFields_step fuel seen (ws ++ inner) k _ v tail).
    + subst tail. change (newline :: indent ++ "}"%char :: rest)
        with ((newline :: indent) ++ "}"%char :: rest).
      rewrite skipSpace_to; [|by constructor|done].
      destruct (decide ("}"%char = ","%char)); [done|].
      by destruct (decide ("}"%char = "}"%char)).
    + by apply Forall_app.
    + apply Hv; [done|by repeat constructor|apply delimited_newline|done].
  - rewrite (map_cons _ (k, v)), (map_cons _ f), joinLines_more,
      <- (map_cons _ f).
    set (J := joinLines inner (map (printField inner) (f :: fields))).
    unfold printField at 1. simpl fst. simpl snd.
    assert (ws ++ (inner ++ (printString k ++ ":"%char :: " "%char
                             :: printValue inner v)
                   ++ ","%char :: newline :: J) ++ tail
            = (ws ++ inner) ++ printString k ++ ":"%char
              :: ([" "%char] ++ printValue inner v
                  ++ ","%char :: ([newline] ++ J ++ tail))) as ->.
    { rewrite <- !app_assoc. simpl. by rewrite <- ?app_assoc. }
    rewrite (readFields_step fuel seen (ws ++ inner) k _ v
               (","%char :: ([newline] ++ J ++ tail))).
    + change (skipSpace (","%char :: ([newline] ++ J ++ tail)))
        with (","%char :: ([newline] ++ J ++ tail)).
      cbn beta iota. destruct (decide (","%char = ","%char)); [|done].
      subst J tail.
      rewrite (IH inner indent [newline]); try done.
      * by repeat constructor.
      * simpl in *. lia.
    + by apply Forall_app.
    + apply Hv; [done|by repeat constructor|apply delimited_comma|done].
Qed.

Lemma foldl_objSet_fresh (fields : list (string * jsval)) : ∀ seen,
  NoDup (seen ++ fields).*1 →
  foldl (λ acc f, objSet f.1 f.2 acc) seen fields = seen ++ fields.
Proof.
  induction fields as [|[k v] fields IH]; intros seen Hnd; simpl.
  - by rewrite app_nil_r.
  - assert (objSet k v seen = seen ++ [(k, v)]) as ->.
    { rewrite fmap_app in Hnd. apply NoDup_app in Hnd as (_ & Hdisj & _).
      assert (k ∉ seen.*1) as Hk.
      { intros Hin. apply (Hdisj k Hin). left. }
      clear -Hk. induction seen as [|[k' v'] seen IH]; simpl; [done|].
      apply not_elem_of_cons in Hk as [Hne Hk].
      rewrite decide_False by done. by rewrite IH. }
    rewrite IH; rewrite <- app_assoc; done.
Qed.

(** ** Values *)

Lemma readValue_array fuel ws ws' c t items rest :
  allSpace ws → allSpace ws' → isSpace c = false → c ≠ "]"%char →
  readItems fuel (ws' ++ c :: t) = Some (items, rest) →
  readValue (S fuel) (ws ++ "["%char :: ws' ++ c :: t) = Some (JArr items, rest).
Proof.
  intros Hws Hws' Hc Hne Hitems. cbn [readValue].
  rewrite (skipSpace_to ws) by done. cbn beta iota.
  rewrite readNumber_other by done.
  repeat (destruct (decide _) as [|_]; [discriminate|]).
  destruct (decide _) as [_|]; [|done].
  rewrite (skipSpace_to ws') by done. cbn beta iota.
  rewrite decide_False by done. by rewrite Hitems.
Qed.

Lemma readValue_object fuel ws ws' c t fields rest :
  allSpace ws → allSpace ws' → isSpace c = false → c ≠ "}"%char →
  readFields fuel [] (ws' ++ c :: t) = Some (fields, rest) →
  readValue (S fuel) (ws ++ "{"%char :: ws' ++ c :: t) = Some (JObj fields, rest).
Proof.
  intros Hws Hws' Hc Hne Hfields. cbn [readValue].
  rewrite (skipSpace_to ws) by done. cbn beta iota.
  rewrite readNumber_other by done.
  repeat (destruct (decide _) as [|_]; [discriminate|]).
  destruct (decide _) as [_|]; [|done].
  rewrite (skipSpace_to ws') by done. cbn beta iota.
  rewrite decide_False by done. by rewrite Hfields.
Qed.

Lemma readValue_word fuel ws (word : list ascii) c t v rest :
  allSpace ws → isSpace c = false →
  (∀ tail, readValue (S fuel) (c :: t ++ tail) = Some (v, tail)) →
  readValue (S fuel) (ws ++ (c :: t) ++ rest) = Some (v, rest).
Proof.
  intros Hws Hc Hread. rewrite <- (Hread rest). cbn [readValue].
  rewrite <- !app_comm_cons, (skipSpace_to ws) by done.
  by rewrite skipSpace_head.
Qed.

Lemma jsize_pos v : (1 ≤ jsize v)%nat.
Proof. destruct v; simpl; lia. Qed.

Lemma jsize_item x items :
  x ∈ items → (jsize x < list_sum (map (λ x, S (jsize x)) items))%nat.
Proof.
  induction items as [|y items IH]; [by intros ?%elem_of_nil|].
  intros [->|Hin]%elem_of_cons; simpl; [lia|]. specialize (IH Hin). lia.
Qed.

Lemma jsize_field (f : string * jsval) fields :
  f ∈ fields → (jsize f.2 < list_sum (map (λ f, S (jsize f.2)) fields))%nat.
Proof.
  induction fields as [|g fields IH]; [by intros ?%elem_of_nil|].
  intros [->|Hin]%elem_of_cons; simpl; [lia|]. specialize (IH Hin). lia.
Qed.

Lemma printed_reads_sized n : ∀ v, (jsize v ≤ n)%nat → wf v → reads v.
Proof.
  induction n as [|n IH]; intros v Hsize Hwf.
  { pose proof (jsize_pos v). lia. }
  intros indent ws rest fuel Hind Hws Hrest Hfuel.
  destruct fuel as [|fuel]; [pose proof (jsize_pos v); lia|].
  destruct v as [|b|z|s|items|fields].
  - by apply (readValue_word fuel ws [] "n"%char (chars "ull")).
  - destruct b.
    + by apply (readValue_word fuel ws [] "t"%char (chars "rue")).
    + by apply (readValue_word fuel ws [] "f"%char (chars "alse")).
  - destruct (printValue_head indent (JNum z)) as (c & t & Hc & Hplain & _).
    pose proof (readNumber_pretty z rest Hrest) as Hnum.
    simpl printValue in *. rewrite Hc in *. cbn [readValue].
    rewrite <- app_comm_cons, (skipSpace_to ws) by done. cbn beta iota.
    rewrite <- app_comm_cons in Hnum. by rewrite Hnum.
  - simpl printValue. unfold printString.
    rewrite <- !app_comm_cons, <- app_assoc. cbn [readValue].
    rewrite (skipSpace_to ws) by done. cbn beta iota.
    rewrite readNumber_other by done.
    repeat (destruct (decide _) as [|_]; [discriminate|]).
    destruct (decide _) as [_|]; [|done].
    simpl app. by rewrite readString_escape.
  - inversion Hwf as [| | | |items' Hitems|]; subst.
    destruct items as [|x items].
    { by apply (readValue_word fuel ws [] "["%char (chars "]")). }
    assert (Forall reads (x :: items)) as Hreads.
    { apply Forall_forall. intros y Hy. apply IH.
      - pose proof (jsize_item y (x :: items) Hy).
        change (jsize (JArr (x :: items)))
          with (S (list_sum (map (λ x, S (jsize x)) (x :: items)))) in Hsize.
        lia.
      - rewrite Forall_forall in Hitems. by apply Hitems. }
    set (inner := indent ++ [" "%char; " "%char]).
    destruct (printValue_head inner x) as (c & t & Hc & Hsp & Hbr & _).
    assert (∃ t', [newline]
                  ++ joinLines inner (map (printValue inner) (x :: items))
                  ++ newline :: indent ++ "]"%char :: rest
                  = (newline :: inner) ++ c :: t') as [t' Ht'].
    { destruct items as [|y items].
      - rewrite map_cons, joinLines_one, Hc. eexists.
        simpl. rewrite <- !app_assoc. simpl. reflexivity.
      - rewrite (map_cons _ x), (map_cons _ y), joinLines_more, Hc. eexists.
        simpl. rewrite <- !app_assoc. simpl. reflexivity. }
    assert (printValue indent (JArr (x :: items)) ++ rest
            = "["%char :: (newline :: inner) ++ c :: t') as ->.
    { rewrite <- Ht'. simpl. fold inner. f_equal. f_equal.
      rewrite <- !app_assoc. simpl. by rewrite <- ?app_assoc. }
    apply readValue_array; [done|by constructor; [|apply allSpace_inner]|done|done|].
    rewrite <- Ht'. apply readItems_lines; try done.
    + by apply allSpace_inner.
    + by repeat constructor.
    + simpl in Hfuel. simpl. lia.
  - inversion Hwf as [| | | | |fields' Hnd Hfields]; subst.
    destruct fields as [|f fields].
    { by apply (readValue_word fuel ws [] "{"%char (chars "}")). }
    assert (Forall (λ g, reads g.2) (f :: fields)) as Hreads.
    { apply Forall_forall. intros g Hg. apply IH.
      - pose proof (jsize_field g (f :: fields) Hg).
        change (jsize (JObj (f :: fields)))
          with (S (list_sum (map (λ f, S (jsize f.2)) (f :: fields)))) in Hsize.
        lia.
      - rewrite Forall_forall in Hfields. by apply Hfields. }
    set (inner := indent ++ [" "%char; " "%char]).
    assert (∃ t', [newline]
                  ++ joinLines inner (map (printField inner) (f :: fields))
                  ++ newline :: indent ++ "}"%char :: rest
                  = (newline :: inner) ++ quote :: t') as [t' Ht'].
    { destruct fields as [|g fields].
      - rewrite map_cons, joinLines_one. unfold printField, printString.
        eexists. simpl. rewrite <- !app_assoc. simpl. reflexivity.
      - rewrite (map_cons _ f), (map_cons _ g), joinLines_more.
        unfold printField at 1, printString. eexists.
        simpl. rewrite <- !app_assoc. simpl. reflexivity. }
    assert (printValue indent (JObj (f :: fields)) ++ rest
            = "{"%char :: (newline :: inner) ++ quote :: t') as ->.
    { rewrite <- Ht'.
      change (printValue indent (JObj (f :: fields)))
        with ("{"%char :: newline
              :: joinLines inner (map (printField inner) (f :: fields))
              ++ newline :: indent ++ ["}"%char]).
      set (J := joinLines inner (map (printField inner) (f :: fields))).
      simpl. f_equal. f_equal. rewrite <- !app_assoc. simpl.
      by rewrite <- ?app_assoc. }
    apply readValue_object; [done|by constructor; [|apply allSpace_inner]|done|done|].
    rewrite <- Ht'. rewrite (readFields_lines (f :: fields)); try done.
    + by rewrite foldl_objSet_fresh.
    + by apply allSpace_inner.
    + by repeat constructor.
    + simpl in Hfuel. simpl. lia.
Qed.

Lemma printed_reads v : wf v → reads v.
Proof. by apply (printed_reads_sized (jsize v)). Qed.

(** ** The fuel the text provides *)

Lemma length_joinLines inner lines :
  (list_sum (map (λ l, length inner + length l)%nat lines)
   ≤ length (joinLines inner lines))%nat.
Proof.
  induction lines as [|l lines IH]; [done|].
  destruct lines as [|l' lines].
  - rewrite joinLines_one, length_app. simpl. lia.
  - rewrite joinLines_more.
    set (R := joinLines inner (l' :: lines)) in *.
    set (S0 := list_sum (map (λ l, length inner + length l)%nat (l' :: lines))) in *.
    rewrite !length_app. cbn [length]. 
    change (list_sum (map (λ l, length inner + length l)%nat (l :: l' :: lines)))
      with (length inner + length l + S0)%nat.
    lia.
Qed.

Lemma list_sum_le {A} (f g : A → nat) l :
  (∀ x, x ∈ l → f x ≤ g x)%nat →
  (list_sum (map f l) ≤ list_sum (map g l))%nat.
Proof.
  induction l as [|a l IH]; intros Hle; simpl; [done|].
  pose proof (Hle a ltac:(left)).
  assert (list_sum (map f l) ≤ list_sum (map g l))%nat
    by (apply IH; intros x Hx; apply Hle; by right).
  lia.
Qed.

Lemma jsize_printed_sized n : ∀ v indent,
  (jsize v ≤ n)%nat → (jsize v ≤ length (printValue indent v))%nat.
Proof.
  induction n as [|n IH]; intros v indent Hsize.
  { pose proof (jsize_pos v). lia. }
  destruct v as [|b|z|s|items|fields].
  - simpl. lia.
  - destruct b; simpl; lia.
  - destruct (printValue_head indent (JNum z)) as (c & t & -> & _). simpl. lia.
  - simpl. lia.
  - destruct items as [|x items]; [simpl; lia|].
    set (inner := indent ++ [" "%char; " "%char]).
    change (printValue indent (JArr (x :: items)))
      with ("["%char :: newline
            :: joinLines inner (map (printValue inner) (x :: items))
            ++ newline :: indent ++ ["]"%char]).
    change (jsize (JArr (x :: items)))
      with (S (list_sum (map (λ x, S (jsize x)) (x :: items)))) in *.
    pose proof (length_joinLines inner (map (printValue inner) (x :: items)))
      as Hlen.
    rewrite map_map in Hlen.
    assert (list_sum (map (λ x, S (jsize x)) (x :: items))
            ≤ list_sum (map (λ x, length inner + length (printValue inner x))%nat
                          (x :: items)))%nat as Hle.
    { apply list_sum_le. intros y Hy.
      pose proof (jsize_item y _ Hy).
      pose proof (IH y inner ltac:(lia)).
      subst inner. rewrite length_app. simpl. lia. }
    set (J := joinLines inner (map (printValue inner) (x :: items))) in *.
    cbn [length]. rewrite length_app. lia.
  - destruct fields as [|f fields]; [simpl; lia|].
    set (inner := indent ++ [" "%char; " "%char]).
    change (printValue indent (JObj (f :: fields)))
      with ("{"%char :: newline
            :: joinLines inner (map (printField inner) (f :: fields))
            ++ newline :: indent ++ ["}"%char]).
    change (jsize (JObj (f :: fields)))
      with (S (list_sum (map (λ f, S (jsize f.2)) (f :: fields)))) in *.
    pose proof (length_joinLines inner (map (printField inner) (f :: fields)))
      as Hlen.
    rewrite map_map in Hlen.
    assert (list_sum (map (λ f, S (jsize f.2)) (f :: fields))
            ≤ list_sum (map (λ f, length inner + length (printField inner f))%nat
                          (f :: fields)))%nat as Hle.
    { apply list_sum_le. intros g Hg.
      pose proof (jsize_field g _ Hg).
      pose proof (IH g.2 inner ltac:(lia)).
      unfold printField. rewrite !length_app. simpl. lia. }
    set (J := joinLines inner (map (printField inner) (f :: fields))) in *.
    cbn [length]. rewrite length_app. lia.
Qed.

(** The parser reads back every value the printer prints. *)
Theorem parse_print v : wf v → parseText (print v) = Some v.
Proof.
  intros Hwf. unfold parseText, print, chars.
  rewrite list_ascii_of_string_of_list_ascii.
  pose proof (printed_reads v Hwf [] [] [] (S (length (printValue [] v)))) as Hread.
  rewrite app_nil_r in Hread. simpl app in Hread. rewrite Hread; [done|..].
  - constructor.
  - constructor.
  - done.
  - pose proof (jsize_printed_sized (jsize v) v [] ltac:(lia)). lia.
Qed.

End TextProps.

(** * Properties of export and import *)

Module BackupProps.
Import Store Backup.

Lemma docJS_problems d :
  getProblemsProperty (docJS d) = inr (Some (problemsJS (problems d))).
Proof. reflexivity. Qed.

Lemma problemsJS_accepted ps : problemsAccepted (Some (problemsJS ps)) = true.
Proof. reflexivity. Qed.

(** What [importData] does with a text it turns down: nothing. *)
Lemma import_rejected `{JsonText} (jsonData : string) (raw : RawMedium) :
  (parse jsonData = None
   ∨ ∃ v, parse jsonData = Some v
          ∧ (getProblemsProperty v = inl tt
             ∨ ∃ f, getProblemsProperty v = inr f ∧ problemsAccepted f = false)) →
  importData jsonData raw = (false, raw).
Proof.
  unfold importData. intros [->|(v & -> & [->|(f & -> & ->)])]; reflexivity.
Qed.

(** A parsed object without a [problems] property is turned down, and so is
    one whose [problems] is [null], a boolean, a number or a string. *)
Lemma import_without_problems `{JsonText} (jsonData : string)
    (fields : list (string * jsval)) (raw : RawMedium) :
  parse jsonData = Some (JObj fields) →
  match objGet "problems" fields with
  | None | Some JNull | Some (JBool _) | Some (JNum _) | Some (JStr _) => True
  | Some (JArr _) | Some (JObj _) => False
  end →
  importData jsonData raw = (false, raw).
Proof.
  intros Hparse Hfield. apply import_rejected. right.
  exists (JObj fields). split; [done|]. right. simpl.
  eexists. split; [reflexivity|].
  destruct (objGet "problems" fields) as [[|b|n|s|items|fs]|];
    try done; simpl; by rewrite ?andb_false_r.
Qed.

(** The scenario of the specification, with the text layer above. *)
Example import_foo (m : Medium) :
  importData fooText (rawOf m) = (false, rawOf m).
Proof. reflexivity. Qed.

(** The value of a document whose catalogue has each identifier once is one
    the text layer reads back. *)
Lemma wf_strings (l : list string) : Text.wf (JArr (JStr <$> l)).
Proof.
  constructor. apply Forall_fmap, Forall_forall. intros s _. constructor.
Qed.

Lemma wf_problemJS p : Text.wf (problemJS p).
Proof.
  unfold problemJS.
  destruct (isVisible (info p)), (isCompleted (info p)), (attempts (info p)),
    (completedAt (info p)); simpl;
    (constructor; [apply (bool_decide_unpack _); by vm_compute|]);
    repeat (constructor; [first [apply wf_strings | constructor]|]);
    constructor.
Qed.

Lemma wf_similarQuestionJS q : Text.wf (similarQuestionJS q).
Proof.
  unfold similarQuestionJS. destruct (sqAcceptanceRate q); simpl;
    (constructor; [apply (bool_decide_unpack _); by vm_compute|]);
    repeat (constructor; [first [apply wf_strings | constructor]|]);
    constructor.
Qed.

Lemma wf_tagStatJS t : Text.wf (tagStatJS t).
Proof.
  constructor; [apply (bool_decide_unpack _); by vm_compute|].
  repeat (constructor; [constructor|]). constructor.
Qed.

Lemma wf_settingsJS s : Text.wf (settingsJS s).
Proof.
  constructor; [apply (bool_decide_unpack _); by vm_compute|].
  repeat (constructor; [constructor|]). constructor.
Qed.

Lemma wf_object {A} (f : A → jsval) (entries : list (string * A)) :
  NoDup entries.*1 → (∀ a, Text.wf (f a)) →
  Text.wf (JObj (prod_map id f <$> entries)).
Proof.
  intros Hnd Hf. constructor.
  - rewrite <- list_fmap_compose.
    by rewrite (list_fmap_ext (fst ∘ prod_map id f) fst entries)
      by (by intros ? []).
  - apply Forall_fmap, Forall_forall. intros [k a] _. apply Hf.
Qed.

Lemma wf_docJS d : NoDup (problems d).*1 → Text.wf (docJS d).
Proof.
  intros Hnd. unfold docJS.
  constructor; [apply (bool_decide_unpack _); by vm_compute|].
  repeat apply Forall_cons_2; simpl; try apply Forall_nil_2.
  - apply wf_object; [done|apply wf_problemJS].
  - destruct (lastUsedProblemId d); constructor.
  - apply wf_object; [apply NoDup_fst_map_to_list|].
    intros l. constructor. apply Forall_fmap, Forall_forall.
    intros q _. apply wf_similarQuestionJS.
  - apply wf_object; [apply NoDup_fst_map_to_list|apply wf_problemJS].
  - apply wf_object; [apply NoDup_fst_map_to_list|apply wf_tagStatJS].
  - apply wf_settingsJS.
Qed.

(** The round trip over any text layer that reads back the value it printed
    for the document. *)
Lemma roundtrip_over_text `{JsonText} (m : Medium) :
  parse (stringify (docJS (current m))) = Some (docJS (current m)) →
  importData (exportData m) (rawOf m) = (true, docJS (current m) :: rawOf m).
Proof. intros Hround. unfold importData, exportData. by rewrite Hround. Qed.



(** The text of that export parses, by evaluation, to the document. *)
Example export_evaluated :
  let m := (markProblemCompleted 2000 "15-15--3sum"
              (saveProblem 1000 threeSum []).2).2 in
  parse (exportData m) = Some (docJS (current m)).
Proof. by vm_compute. Qed.

(** C8, where the code departs from it: a text whose [problems] is an
    array holds no mapping under that name, yet [importData] accepts it and
    writes it over the stored document. *)
Theorem import_accepts_problems_array (m : Medium) :
  parse problemsArrayText = Some (JObj [("problems", JArr [])])
  ∧ importData problemsArrayText (rawOf m)
    = (true, JObj [("problems", JArr [])] :: rawOf m).
Proof. split; reflexivity. Qed.

End BackupProps.

(** * More on the engine: all handlers, and runs of events *)

Module EngineEvents.
Import Engine EngineProps.

(** ** The persisted snapshot *)

Lemma writtenThrough_save s : writtenThrough (saveState s).
Proof. reflexivity. Qed.

Lemma writtenThrough_start now title s : writtenThrough (startTitleIfNeeded now title s).
Proof. reflexivity. Qed.

Lemma writtenThrough_stop now title s :
  writtenThrough s → writtenThrough (stopTitleIfNeeded now title s).
Proof.
  intros Hs. unfold stopTitleIfNeeded. destruct (titleTimers s !! title); [reflexivity | exact Hs].
Qed.

Lemma writtenThrough_active a s : writtenThrough s → writtenThrough (withActive a s).
Proof. intros Hs; exact Hs. Qed.

Lemma writtenThrough_tabChange nowStop nowStart newTabId s :
  writtenThrough s → writtenThrough (handleTabChange nowStop nowStart newTabId s).
Proof.
  intros Hs. unfold handleTabChange.
  destruct (decide _) as [_ | _]; [exact Hs |].
  cbv zeta.
  set (s1 := match currentActiveTabId s with Some prev => _ | None => s end).
  assert (H1 : writtenThrough s1).
  { subst s1. destruct (currentActiveTabId s) as [prev |]; [| exact Hs].
    destruct (truthyStr _); [apply writtenThrough_stop, Hs | exact Hs]. }
  destruct newTabId as [n |]; [| exact H1].
  destruct (truthyStr _); [apply writtenThrough_start | exact H1].
Qed.

Lemma loadState_writtenThrough s : writtenThrough s → loadState s = s.
Proof.
  unfold writtenThrough, loadState. destruct s as [tt tm a p]; simpl.
  intros ->. reflexivity.
Qed.

Lemma writtenThrough_step ev s : writtenThrough s → writtenThrough (step ev s).
Proof.
  intros Hs. destruct ev as [now title | now title | now | nowStop nowStart newTabId
    | now tabId | nowStop nowStart nowAll focus | now tabId title |]; simpl.
  - apply writtenThrough_start.
  - apply writtenThrough_stop, Hs.
  - reflexivity.
  - apply writtenThrough_tabChange, Hs.
  - reflexivity.
  - unfold onFocusChanged. destruct focus as [found |]; [| reflexivity].
    destruct (truthyNum found); [apply writtenThrough_tabChange, Hs | reflexivity].
  - unfold reportTitle. destruct (truthyStr title); reflexivity.
  - unfold writtenThrough, loadState; simpl. destruct (persisted s); reflexivity.
Qed.

(** X1.  Write-through.  [loadState] always leaves the dictionaries in
    memory equal to the persisted snapshot; and from a state in which they
    are equal every handler ends in such a state again, so that a
    [loadState] after it changes nothing: no handler leaves a change of
    [titleTimers] or [tabToTitle] unsaved. *)
Theorem state_written_through :
  (∀ s, writtenThrough (loadState s))
  ∧ ∀ (ev : Event) (s : State),
      writtenThrough s →
      writtenThrough (step ev s) ∧ loadState (step ev s) = step ev s.
Proof.
  split.
  - intros s. unfold writtenThrough, loadState; simpl. destruct (persisted s); reflexivity.
  - intros ev s Hs. split; [apply writtenThrough_step, Hs |].
    apply loadState_writtenThrough, writtenThrough_step, Hs.
Qed.

Lemma state_written_through_witness :
  let s := step (EvReport 2000 7 (Some "Two Sum"))
             (step (EvTabChange 1000 1000 (Some 7)) initialState) in
  writtenThrough s ∧ loadState s = s.
Proof.
  intros s.
  apply (proj2 state_written_through (EvReport 2000 7 (Some "Two Sum"))).
  apply (proj2 state_written_through (EvTabChange 1000 1000 (Some 7))).
  reflexivity.
Defined.

(** ** The timers after each handler *)

Lemma tabs_tabChange nowStop nowStart newTabId s :
  tabToTitle (handleTabChange nowStop nowStart newTabId s) = tabToTitle s.
Proof.
  unfold handleTabChange. destruct (decide _) as [_ | _]; [reflexivity |].
  cbv zeta.
  set (s1 := match currentActiveTabId s with Some prev => _ | None => s end).
  assert (H1 : tabToTitle s1 = tabToTitle s).
  { subst s1. destruct (currentActiveTabId s); [| reflexivity].
    destruct (truthyStr _); [apply tabs_stop | reflexivity]. }
  destruct newTabId as [n |]; [| exact H1].
  destruct (truthyStr _); [rewrite tabs_start |]; exact H1.
Qed.

Lemma timers_tabChange nowStop nowStart newTabId s :
  currentActiveTabId s ≠ newTabId →
  titleTimers (handleTabChange nowStop nowStart newTabId s)
  = match newTabId with
    | Some n =>
        if truthyStr (tabToTitle s !! n)
        then startTitleTimers nowStart (default EmptyString (tabToTitle s !! n))
                              (stopPrevious nowStop s)
        else stopPrevious nowStop s
    | None => stopPrevious nowStop s
    end.
Proof.
  intros Hne. unfold handleTabChange.
  destruct (decide _) as [Heq | _]; [contradiction |].
  cbv zeta.
  set (s1 := match currentActiveTabId s with Some prev => _ | None => s end).
  assert (H1 : titleTimers s1 = stopPrevious nowStop s ∧ tabToTitle s1 = tabToTitle s).
  { subst s1. unfold stopPrevious. destruct (currentActiveTabId s); [| done].
    destruct (truthyStr _); [| done]. rewrite timers_stop, tabs_stop. done. }
  destruct H1 as [H1 H2].
  destruct newTabId as [n |]; [| exact H1].
  change (tabToTitle (withActive (Some n) s1)) with (tabToTitle s1). rewrite H2.
  destruct (truthyStr _); [| exact H1].
  rewrite timers_start. simpl. rewrite H1. reflexivity.
Qed.

Lemma timers_tabChange_same nowStop nowStart newTabId s :
  currentActiveTabId s = newTabId →
  handleTabChange nowStop nowStart newTabId s = s.
Proof. intros Heq. unfold handleTabChange. rewrite decide_True by exact Heq. reflexivity. Qed.

Lemma timers_tabRemoved now tabId s :
  titleTimers (handleTabRemoved now tabId s)
  = if decide (currentActiveTabId s = Some tabId) then
      if truthyStr (tabToTitle s !! tabId)
      then stopTitleTimers now (default EmptyString (tabToTitle s !! tabId))
                           (titleTimers s)
      else titleTimers s
    else titleTimers s.
Proof.
  unfold handleTabRemoved. cbv zeta.
  change (currentActiveTabId (withTabs _ s)) with (currentActiveTabId s).
  destruct (decide _); [| reflexivity].
  destruct (truthyStr _); [| reflexivity].
  simpl. rewrite timers_stop. reflexivity.
Qed.

Lemma timers_report now tabId title s :
  titleTimers (reportTitle now tabId title s)
  = if truthyStr title then
      if truthyNum (currentActiveTabId s)
         && bool_decide (currentActiveTabId s = Some tabId)
      then startTitleTimers now (default EmptyString title)
             (ensureTitleTimer (default EmptyString title) (titleTimers s))
      else ensureTitleTimer (default EmptyString title) (titleTimers s)
    else titleTimers s.
Proof.
  unfold reportTitle. destruct (truthyStr title); [| reflexivity].
  cbv zeta.
  change (currentActiveTabId (withTimers _ (withTabs _ s)))
    with (currentActiveTabId s).
  destruct (truthyNum (currentActiveTabId s) && _); reflexivity.
Qed.

Lemma timers_focusChanged nowStop nowStart nowAll focus s :
  titleTimers (onFocusChanged nowStop nowStart nowAll focus s)
  = match focus with
    | Some found =>
        if truthyNum found
        then titleTimers (handleTabChange nowStop nowStart found s)
        else map_imap (λ title t, Some (pauseTimer (nowAll title) t)) (titleTimers s)
    | None => map_imap (λ title t, Some (pauseTimer (nowAll title) t)) (titleTimers s)
    end.
Proof.
  unfold onFocusChanged. destruct focus as [found |]; [| reflexivity].
  destruct (truthyNum found); reflexivity.
Qed.

Lemma tabs_tabRemoved now tabId s :
  tabToTitle (handleTabRemoved now tabId s) = delete tabId (tabToTitle s).
Proof.
  unfold handleTabRemoved. cbv zeta.
  change (currentActiveTabId (withTabs _ s)) with (currentActiveTabId s).
  destruct (decide _); [| reflexivity].
  destruct (truthyStr _); [| reflexivity].
  simpl. rewrite tabs_stop. reflexivity.
Qed.

Lemma active_tabRemoved now tabId s :
  currentActiveTabId (handleTabRemoved now tabId s)
  = if decide (currentActiveTabId s = Some tabId) then None
    else currentActiveTabId s.
Proof.
  unfold handleTabRemoved. cbv zeta.
  change (currentActiveTabId (withTabs _ s)) with (currentActiveTabId s).
  destruct (decide _); reflexivity.
Qed.

Lemma ensuredTimer_lookup title tm t :
  tm !! title = Some t → ensuredTimer title tm = t.
Proof. unfold ensuredTimer. intros ->. reflexivity. Qed.

Lemma ensuredTimer_start now title tm title' :
  ensuredTimer title' (startTitleTimers now title tm)
  = if decide (title = title') then startTimer now (ensuredTimer title tm)
    else ensuredTimer title' tm.
Proof.
  unfold ensuredTimer at 1. rewrite lookup_startTitleTimers.
  destruct (decide _); reflexivity.
Qed.

Lemma ensuredTimer_stop now title tm title' :
  ensuredTimer title' (stopTitleTimers now title tm)
  = if decide (title = title') then stopTimer now (ensuredTimer title tm)
    else ensuredTimer title' tm.
Proof.
  unfold ensuredTimer at 1. rewrite lookup_stopTitleTimers.
  destruct (decide _) as [-> | _]; [| reflexivity].
  unfold ensuredTimer. destruct (tm !! title'); simpl; [reflexivity |].
  symmetry. apply stopTimer_fresh.
Qed.

Lemma ensuredTimer_pause now tm title :
  ensuredTimer title (map_imap (λ title t, Some (pauseTimer (now title) t)) tm)
  = pauseTimer (now title) (ensuredTimer title tm).
Proof.
  unfold ensuredTimer. rewrite map_lookup_imap.
  destruct (tm !! title); reflexivity.
Qed.

Lemma ensuredTimer_ensure_other title tm title' :
  ensuredTimer title' (ensureTitleTimer title tm) = ensuredTimer title' tm.
Proof.
  unfold ensureTitleTimer. destruct (tm !! title) eqn:E; [reflexivity |].
  unfold ensuredTimer. destruct (decide (title = title')) as [<- | Hne].
  - rewrite lookup_insert, E. destruct (decide _); done.
  - rewrite lookup_insert_ne by exact Hne. reflexivity.
Qed.

Lemma truthyNum_Some n : n ≠ 0 → truthyNum (Some n) = true.
Proof. intros Hn. simpl. destruct (Z.eqb_spec n 0); [contradiction | reflexivity]. Qed.

Lemma runAll_snoc evs ev s : runAll (evs ++ [ev]) s = step ev (runAll evs s).
Proof. unfold runAll. rewrite foldl_app. reflexivity. Qed.

Lemma runAll_app p q s : runAll (p ++ q) s = runAll q (runAll p s).
Proof. unfold runAll. apply foldl_app. Qed.

Lemma writtenThrough_runAll evs : ∀ s, writtenThrough s → writtenThrough (runAll evs s).
Proof.
  induction evs as [| ev evs IH]; intros s Hs; [exact Hs |].
  apply IH, writtenThrough_step, Hs.
Qed.

(** ** The counts *)

Lemma countsNonneg_start now title tm :
  countsNonneg tm → countsNonneg (startTitleTimers now title tm).
Proof.
  intros Htm title' t'. rewrite lookup_startTitleTimers.
  destruct (decide _) as [-> | _]; [| apply Htm].
  intros [= <-]. simpl.
  assert (0 ≤ activeCount (ensuredTimer title' tm)); [| lia].
  unfold ensuredTimer. destruct (tm !! title') eqn:E; [apply (Htm _ _ E) | simpl; lia].
Qed.

Lemma countsNonneg_stop now title tm :
  countsNonneg tm → countsNonneg (stopTitleTimers now title tm).
Proof.
  intros Htm title' t'. rewrite lookup_stopTitleTimers.
  destruct (decide _) as [-> | _]; [| apply Htm].
  destruct (tm !! title'); [| done]. intros [= <-].
  apply stopTimer_activeCount_nonneg.
Qed.

Lemma countsNonneg_pause now tm :
  countsNonneg (map_imap (λ title t, Some (pauseTimer (now title) t)) tm).
Proof.
  intros title t'. rewrite map_lookup_imap.
  destruct (tm !! title) as [t |]; [| done]. simpl. intros [= <-].
  unfold pauseTimer. destruct (runningSince t) as [rs |]; [destruct (negb _) |]; simpl; lia.
Qed.

Lemma countsNonneg_ensure title tm :
  countsNonneg tm → countsNonneg (ensureTitleTimer title tm).
Proof.
  intros Htm title' t'. unfold ensureTitleTimer.
  destruct (tm !! title) eqn:E; [apply Htm |].
  rewrite lookup_insert_Some. intros [[_ <-] | [_ Hl]]; [simpl; lia | apply (Htm _ _ Hl)].
Qed.

Lemma countsNonneg_stopPrevious nowStop s :
  countsNonneg (titleTimers s) → countsNonneg (stopPrevious nowStop s).
Proof.
  intros Hs. unfold stopPrevious. destruct (currentActiveTabId s); [| exact Hs].
  destruct (truthyStr _); [apply countsNonneg_stop, Hs | exact Hs].
Qed.

Lemma countsNonneg_tabChange nowStop nowStart newTabId s :
  countsNonneg (titleTimers s) →
  countsNonneg (titleTimers (handleTabChange nowStop nowStart newTabId s)).
Proof.
  intros Hs. destruct (decide (currentActiveTabId s = newTabId)) as [Heq | Hne].
  - rewrite timers_tabChange_same by exact Heq. exact Hs.
  - rewrite timers_tabChange by exact Hne.
    pose proof (countsNonneg_stopPrevious nowStop s Hs) as H1.
    destruct newTabId; [| exact H1].
    destruct (truthyStr _); [apply countsNonneg_start, H1 | exact H1].
Qed.

Lemma countsNonneg_step ev s :
  writtenThrough s → countsNonneg (titleTimers s) →
  countsNonneg (titleTimers (step ev s)).
Proof.
  intros Hw Hs. destruct ev as [now title | now title | now | nowStop nowStart newTabId
    | now tabId | nowStop nowStart nowAll focus | now tabId title |]; cbn [step].
  - rewrite timers_start. apply countsNonneg_start, Hs.
  - rewrite timers_stop. apply countsNonneg_stop, Hs.
  - apply countsNonneg_pause.
  - apply countsNonneg_tabChange, Hs.
  - rewrite timers_tabRemoved. destruct (decide _); [| exact Hs].
    destruct (truthyStr _); [apply countsNonneg_stop, Hs | exact Hs].
  - rewrite timers_focusChanged. destruct focus as [found |]; [| apply countsNonneg_pause].
    destruct (truthyNum found); [apply countsNonneg_tabChange, Hs | apply countsNonneg_pause].
  - rewrite timers_report. destruct (truthyStr title); [| exact Hs].
    destruct (_ && _); [apply countsNonneg_start |]; apply countsNonneg_ensure, Hs.
  - unfold loadState; simpl. rewrite Hw. exact Hs.
Qed.

(** X2.  In every state the engine reaches from its initial state, by any
    events with any clock readings, no timer has a negative
    [activeCount]. *)
Theorem counts_never_negative (evs : list Event) (title : string) (t : Timer) :
  titleTimers (runAll evs initialState) !! title = Some t → 0 ≤ activeCount t.
Proof.
  revert title t.
  change (countsNonneg (titleTimers (runAll evs initialState))).
  induction evs as [| ev evs IH] using rev_ind.
  - intros title t. simpl. rewrite lookup_empty. done.
  - rewrite runAll_snoc. apply countsNonneg_step; [| exact IH].
    apply writtenThrough_runAll. reflexivity.
Qed.

Lemma counts_never_negative_witness :
  let evs := [EvTabChange 1000 1000 (Some 7); EvReport 2000 7 (Some "Two Sum");
              EvStop 3000 "Two Sum"; EvStop 4000 "Two Sum"] in
  ∃ t, titleTimers (runAll evs initialState) !! "Two Sum" = Some t
       ∧ 0 ≤ activeCount t.
Proof.
  intros evs.
  exists {| accumulated := 1000; runningSince := None; activeCount := 0 |}.
  assert (Hl : titleTimers (runAll evs initialState) !! "Two Sum"
               = Some {| accumulated := 1000; runningSince := None;
                         activeCount := 0 |}) by (by vm_compute).
  split; [exact Hl|].
  exact (counts_never_negative evs "Two Sum" _ Hl).
Defined.

(** ** The accumulated time *)

Lemma follows_refl last last' tm :
  stampsUpTo last tm → last ≤ last' → follows last' tm tm.
Proof.
  intros Htm Hle. split; [| intros; lia].
  intros title t rs Hl Hrs. specialize (Htm _ _ _ Hl Hrs). lia.
Qed.

Lemma follows_trans l2 tm1 tm2 tm3 :
  (∀ title, accumulated (ensuredTimer title tm1)
            ≤ accumulated (ensuredTimer title tm2)) →
  follows l2 tm2 tm3 → follows l2 tm1 tm3.
Proof.
  intros H12 [H3 H23]. split; [exact H3 |].
  intros title. specialize (H12 title). specialize (H23 title). lia.
Qed.

Lemma stampsUpTo_weaken last last' tm :
  stampsUpTo last tm → last ≤ last' → stampsUpTo last' tm.
Proof. intros Htm Hle title t rs Hl Hrs. specialize (Htm _ _ _ Hl Hrs). lia. Qed.

Lemma stampsUpTo_ensured last tm title rs :
  stampsUpTo last tm → runningSince (ensuredTimer title tm) = Some rs → rs ≤ last.
Proof.
  intros Htm. unfold ensuredTimer. destruct (tm !! title) as [t |] eqn:E; [| done].
  apply (Htm _ _ _ E).
Qed.

Lemma follows_start last now title tm :
  stampsUpTo last tm → last ≤ now → follows now tm (startTitleTimers now title tm).
Proof.
  intros Htm Hle. split.
  - intros title' t' rs. rewrite lookup_startTitleTimers.
    destruct (decide _) as [-> | _].
    + intros [= <-]. unfold startTimer; simpl.
      destruct (_ && _); [intros [= <-]; lia |].
      intros Hrs. pose proof (stampsUpTo_ensured _ _ _ _ Htm Hrs). lia.
    + intros Hl Hrs. specialize (Htm _ _ _ Hl Hrs). lia.
  - intros title'. rewrite ensuredTimer_start.
    destruct (decide _) as [-> | _]; simpl; lia.
Qed.

Lemma stopTimer_accumulated last now t :
  (∀ rs, runningSince t = Some rs → rs ≤ last) → last ≤ now →
  accumulated t ≤ accumulated (stopTimer now t)
  ∧ ∀ rs, runningSince (stopTimer now t) = Some rs → rs ≤ last.
Proof.
  intros Ht Hle. unfold stopTimer.
  destruct (_ <=? 0).
  - destruct (runningSince t) as [rs |] eqn:E; [| simpl; split; [lia | done]].
    specialize (Ht _ eq_refl).
    destruct (negb _); simpl; (split; [lia |]); [done | intros ? [= <-]; lia].
  - simpl. split; [lia | exact Ht].
Qed.

Lemma pauseTimer_accumulated last now t :
  (∀ rs, runningSince t = Some rs → rs ≤ last) → last ≤ now →
  accumulated t ≤ accumulated (pauseTimer now t)
  ∧ ∀ rs, runningSince (pauseTimer now t) = Some rs → rs ≤ last.
Proof.
  intros Ht Hle. unfold pauseTimer.
  destruct (runningSince t) as [rs |] eqn:E; [| simpl; split; [lia | done]].
  specialize (Ht _ eq_refl).
  destruct (negb _); simpl; (split; [lia |]); [done | intros ? [= <-]; lia].
Qed.

Lemma follows_stop last now title tm :
  stampsUpTo last tm → last ≤ now → follows last tm (stopTitleTimers now title tm).
Proof.
  intros Htm Hle. split.
  - intros title' t' rs. rewrite lookup_stopTitleTimers.
    destruct (decide _) as [-> | _]; [| apply Htm].
    destruct (tm !! title') as [t |] eqn:E; [| done]. intros [= <-].
    apply (stopTimer_accumulated last now t); [intros rs'; apply (Htm _ _ rs' E) | exact Hle].
  - intros title'. rewrite ensuredTimer_stop.
    destruct (decide _) as [-> | _]; [| lia].
    apply (stopTimer_accumulated last now); [| exact Hle].
    intros rs. apply stampsUpTo_ensured, Htm.
Qed.

Lemma follows_pause last now tm :
  stampsUpTo last tm → (∀ title, last ≤ now title) →
  follows last tm (map_imap (λ title t, Some (pauseTimer (now title) t)) tm).
Proof.
  intros Htm Hle. split.
  - intros title t' rs. rewrite map_lookup_imap.
    destruct (tm !! title) as [t |] eqn:E; [| done]. simpl. intros [= <-].
    apply (pauseTimer_accumulated last (now title) t); [intros rs'; apply (Htm _ _ rs' E) | apply Hle].
  - intros title. rewrite ensuredTimer_pause.
    apply (pauseTimer_accumulated last (now title)); [| apply Hle].
    intros rs. apply stampsUpTo_ensured, Htm.
Qed.

Lemma follows_ensure last title tm :
  stampsUpTo last tm → follows last tm (ensureTitleTimer title tm).
Proof.
  intros Htm. split.
  - intros title' t' rs. unfold ensureTitleTimer.
    destruct (tm !! title) eqn:E; [apply Htm |].
    rewrite lookup_insert_Some. intros [[_ <-] | [_ Hl]]; [done | apply (Htm _ _ _ Hl)].
  - intros title'. rewrite ensuredTimer_ensure_other. lia.
Qed.

Lemma follows_stopPrevious last nowStop s :
  stampsUpTo last (titleTimers s) → last ≤ nowStop →
  follows last (titleTimers s) (stopPrevious nowStop s).
Proof.
  intros Hs Hle. unfold stopPrevious.
  destruct (currentActiveTabId s); [| apply (follows_refl last); [exact Hs | lia]].
  destruct (truthyStr _); [apply follows_stop; assumption |].
  apply (follows_refl last); [exact Hs | lia].
Qed.

Lemma follows_tabChange last nowStop nowStart newTabId s :
  stampsUpTo last (titleTimers s) → last ≤ nowStop → nowStop ≤ nowStart →
  follows nowStart (titleTimers s)
          (titleTimers (handleTabChange nowStop nowStart newTabId s)).
Proof.
  intros Hs H1 H2. destruct (decide (currentActiveTabId s = newTabId)) as [Heq | Hne].
  - rewrite timers_tabChange_same by exact Heq.
    apply (follows_refl last); [exact Hs | lia].
  - rewrite timers_tabChange by exact Hne.
    destruct (follows_stopPrevious last nowStop s Hs H1) as [Hst Hacc].
    assert (Hweak : follows nowStart (titleTimers s) (stopPrevious nowStop s)).
    { split; [| exact Hacc]. apply (stampsUpTo_weaken last); [exact Hst | lia]. }
    destruct newTabId; [| exact Hweak].
    destruct (truthyStr _); [| exact Hweak].
    apply (follows_trans _ _ (stopPrevious nowStop s)); [exact Hacc |].
    apply (follows_start last); [exact Hst | lia].
Qed.

Lemma follows_step last ev s :
  writtenThrough s → stampsUpTo last (titleTimers s) → readingsFrom last ev →
  follows (lastReading last ev) (titleTimers s) (titleTimers (step ev s)).
Proof.
  intros Hw Hs Hev.
  destruct ev as [now title | now title | now | nowStop nowStart newTabId
    | now tabId | nowStop nowStart nowAll focus | now tabId title |];
    cbn [step lastReading]; cbn [readingsFrom] in Hev.
  - rewrite timers_start. apply (follows_start last); assumption.
  - rewrite timers_stop.
    destruct (follows_stop last now title _ Hs Hev) as [Hst Hacc].
    split; [apply (stampsUpTo_weaken last); assumption | exact Hacc].
  - apply follows_pause; assumption.
  - destruct Hev as [H1 H2]. apply (follows_tabChange last); assumption.
  - rewrite timers_tabRemoved.
    destruct (decide _); [| apply (follows_refl last); assumption].
    destruct (truthyStr _); [| apply (follows_refl last); assumption].
    destruct (follows_stop last now (default EmptyString (tabToTitle s !! tabId))
                _ Hs Hev) as [Hst Hacc].
    split; [apply (stampsUpTo_weaken last); assumption | exact Hacc].
  - destruct Hev as (H1 & H2 & H3). rewrite timers_focusChanged.
    assert (Hp : follows nowStart (titleTimers s)
              (map_imap (λ title t, Some (pauseTimer (nowAll title) t)) (titleTimers s))).
    { destruct (follows_pause last nowAll _ Hs H3) as [Hst Hacc].
      split; [apply (stampsUpTo_weaken last); [exact Hst | lia] | exact Hacc]. }
    destruct focus as [found |]; [| exact Hp].
    destruct (truthyNum found); [| exact Hp].
    apply (follows_tabChange last); assumption.
  - rewrite timers_report. destruct (truthyStr title);
      [| apply (follows_refl last); assumption].
    destruct (follows_ensure last (default EmptyString title) _ Hs) as [Hst Hacc].
    destruct (_ && _).
    + apply (follows_trans _ _ (ensureTitleTimer (default EmptyString title) (titleTimers s)));
        [exact Hacc |].
      apply (follows_start last); assumption.
    + split; [apply (stampsUpTo_weaken last); assumption | exact Hacc].
  - unfold loadState; simpl. rewrite Hw. simpl.
    apply (follows_refl last); [exact Hs | lia].
Qed.

Lemma follows_runAll evs : ∀ last s,
  writtenThrough s → stampsUpTo last (titleTimers s) → chronologicalRun last evs →
  follows (lastOfRun last evs) (titleTimers s) (titleTimers (runAll evs s)).
Proof.
  induction evs as [| ev evs IH]; intros last s Hw Hs Hrun.
  - apply (follows_refl last); [exact Hs | simpl; lia].
  - destruct Hrun as [Hev Hrest].
    destruct (follows_step last ev s Hw Hs Hev) as [Hst Hacc].
    apply (follows_trans _ _ (titleTimers (step ev s))); [exact Hacc |].
    apply IH; [apply writtenThrough_step, Hw | exact Hst | exact Hrest].
Qed.

Lemma chronologicalRun_app p q : ∀ last,
  chronologicalRun last (p ++ q)
  ↔ chronologicalRun last p ∧ chronologicalRun (lastOfRun last p) q.
Proof.
  induction p as [| ev p IH]; intros last; simpl; [tauto |].
  rewrite IH. tauto.
Qed.

(** X3.  Along a run of events of any kind whose clock readings do not go
    back, from a written-through state whose stored readings are not later
    than the first reading, the [accumulated] time of every title after a
    prefix of the run is at most the one after the whole run: no handler
    ever takes banked time away, from the title it handles or from any
    other. *)
Theorem accumulated_never_decreases (last : Z) (p q : list Event) (s : State)
    (title : string) :
  writtenThrough s → stampsUpTo last (titleTimers s) →
  chronologicalRun last (p ++ q) →
  accumulated (timerOf title (runAll p s))
  ≤ accumulated (timerOf title (runAll (p ++ q) s)).
Proof.
  intros Hw Hs Hrun. apply chronologicalRun_app in Hrun as [Hp Hq].
  rewrite runAll_app.
  destruct (follows_runAll p last s Hw Hs Hp) as [Hst _].
  apply (follows_runAll q (lastOfRun last p) (runAll p s));
    [apply writtenThrough_runAll, Hw | exact Hst | exact Hq].
Qed.

Lemma accumulated_never_decreases_witness :
  let p := [EvTabChange 1000 1000 (Some 7); EvReport 2000 7 (Some "Two Sum")] in
  let q := [EvFocusChanged 5000 5000 (λ _, 5000) None] in
  accumulated (timerOf "Two Sum" (runAll p initialState))
  ≤ accumulated (timerOf "Two Sum" (runAll (p ++ q) initialState))
  ∧ accumulated (timerOf "Two Sum" (runAll (p ++ q) initialState)) = 3000.
Proof.
  intros p q. split; [|by vm_compute].
  apply (accumulated_never_decreases 0 p q initialState "Two Sum").
  - reflexivity.
  - intros title t rs Hl. simpl in Hl. by rewrite lookup_empty in Hl.
  - simpl. repeat split; lia.
Defined.

(** ** Focus *)

Lemma pauseTimer_stampNonzero now t :
  stampNonzero t →
  pauseTimer now t
  = {| accumulated := accumulated t + pending now t; runningSince := None;
       activeCount := 0 |}.
Proof.
  intros Ht. unfold pauseTimer, pending.
  destruct (runningSince t) as [rs |] eqn:E; [| f_equal; lia].
  specialize (Ht rs E). destruct (Z.eqb_spec rs 0); [contradiction | reflexivity].
Qed.

Lemma stampNonzero_fresh : stampNonzero freshTimer.
Proof. intros rs. discriminate. Qed.

(** X4.  When the window loses focus ([WINDOW_ID_NONE]), no tab is active
    any more, the tab mapping and the set of titles are as before, and
    every timer whose stored reading is not [0] is idle with the time since
    that reading banked; the elapsed time the popup computes from the
    persisted snapshot is then the same at every later clock value. *)
Theorem focus_lost_freezes_every_timer (nowStop nowStart : Z) (nowAll : string → Z)
    (s : State) :
  let s' := onFocusChanged nowStop nowStart nowAll None s in
  currentActiveTabId s' = None
  ∧ tabToTitle s' = tabToTitle s
  ∧ (∀ title, titleTimers s !! title = None → titleTimers s' !! title = None)
  ∧ (∀ title t, titleTimers s !! title = Some t → stampNonzero t →
       titleTimers s' !! title
       = Some {| accumulated := accumulated t + pending (nowAll title) t;
                 runningSince := None; activeCount := 0 |}
       ∧ ∀ later, elapsedMs later title (persisted s')
                  = accumulated t + pending (nowAll title) t).
Proof.
  cbv zeta. split; [reflexivity |]. split; [reflexivity |]. split.
  - intros title Hl. cbn. rewrite map_lookup_imap, Hl. reflexivity.
  - intros title t Hl Ht.
    assert (Hl' : map_imap (λ title t, Some (pauseTimer (nowAll title) t)) (titleTimers s)
                  !! title
                  = Some {| accumulated := accumulated t + pending (nowAll title) t;
                            runningSince := None; activeCount := 0 |}).
    { rewrite map_lookup_imap, Hl. simpl. rewrite pauseTimer_stampNonzero by exact Ht.
      reflexivity. }
    split; [exact Hl' |].
    intros later. unfold elapsedMs. cbn. rewrite Hl'. simpl. lia.
Qed.

Lemma focus_lost_freezes_every_timer_witness :
  let s := reportTitle 2000 7 (Some "Two Sum")
             (handleTabChange 1000 1000 (Some 7) initialState) in
  let s' := onFocusChanged 0 0 (λ _, 5000) None s in
  titleTimers s' !! "Two Sum"
  = Some {| accumulated := 0 + (5000 - 2000); runningSince := None;
            activeCount := 0 |}
  ∧ ∀ later, elapsedMs later "Two Sum" (persisted s') = 0 + (5000 - 2000).
Proof.
  intros s s'.
  destruct (focus_lost_freezes_every_timer 0 0 (λ _, 5000) s) as (_ & _ & _ & H).
  apply (H "Two Sum"
           {| accumulated := 0; runningSince := Some 2000; activeCount := 1 |}).
  - by vm_compute.
  - intros rs [= <-]. lia.
Defined.



(** ** Tabs *)



Lemma report_timerOf now tabId title s title' :
  timerOf title' (reportTitle now tabId title s)
  = if truthyStr title
       && truthyNum (currentActiveTabId s)
       && bool_decide (currentActiveTabId s = Some tabId)
       && bool_decide (title = Some title')
    then startTimer now (timerOf title' s)
    else timerOf title' s.
Proof.
  unfold timerOf. rewrite timers_report.
  destruct (truthyStr title) eqn:Et; [| reflexivity]. simpl.
  destruct (truthyNum (currentActiveTabId s) && _) eqn:Ea; simpl.
  - rewrite ensuredTimer_start, ensuredTimer_ensure.
    destruct title as [t |]; [| discriminate]. simpl.
    destruct (decide (t = title')) as [-> | Hne].
    + rewrite bool_decide_eq_true_2 by reflexivity. reflexivity.
    + rewrite bool_decide_eq_false_2 by congruence.
      apply ensuredTimer_ensure_other.
  - apply ensuredTimer_ensure_other.
Qed.

(** X7.  A [reportTitle] message never stops a timer: for every title it
    leaves [accumulated] as it is and never lowers [activeCount]; it
    changes the timer of no title but the reported one, and of none at all
    when the reporting tab is not the active one; a running timer keeps its
    reading. *)
Theorem report_never_stops (now : Z) (tabId : Z) (title : option string)
    (s : State) (title' : string) :
  let s' := reportTitle now tabId title s in
  accumulated (timerOf title' s') = accumulated (timerOf title' s)
  ∧ activeCount (timerOf title' s) ≤ activeCount (timerOf title' s')
  ∧ (title ≠ Some title' → timerOf title' s' = timerOf title' s)
  ∧ (currentActiveTabId s ≠ Some tabId → timerOf title' s' = timerOf title' s)
  ∧ (∀ rs, runningSince (timerOf title' s) = Some rs → rs ≠ 0 →
       runningSince (timerOf title' s') = Some rs).
Proof.
  cbv zeta. rewrite report_timerOf.
  destruct (truthyStr title && truthyNum (currentActiveTabId s)
            && bool_decide (currentActiveTabId s = Some tabId)
            && bool_decide (title = Some title')) eqn:E.
  - apply andb_prop in E as [E E4]. apply andb_prop in E as [E E3].
    apply bool_decide_eq_true in E3, E4.
    split; [reflexivity |]. split; [simpl; lia |].
    split; [intros H; contradiction |]. split; [intros H; contradiction |].
    intros rs Hrs Hne. unfold startTimer; simpl. rewrite Hrs. simpl.
    destruct (Z.eqb_spec rs 0); [contradiction |]. rewrite andb_false_r. reflexivity.
  - split; [reflexivity |]. split; [lia |]. done.
Qed.

Lemma report_never_stops_witness :
  let s := reportTitle 2000 7 (Some "Two Sum")
             (handleTabChange 1000 1000 (Some 7) initialState) in
  let s' := reportTitle 3000 8 (Some "3Sum") s in
  timerOf "Two Sum" s' = timerOf "Two Sum" s
  ∧ runningSince (timerOf "Two Sum" (reportTitle 4000 7 (Some "Two Sum") s))
    = Some 2000.
Proof.
  intros s s'. split.
  - destruct (report_never_stops 3000 8 (Some "3Sum") s "Two Sum")
      as (_ & _ & Hother & _).
    apply Hother. discriminate.
  - destruct (report_never_stops 4000 7 (Some "Two Sum") s "Two Sum")
      as (_ & _ & _ & _ & Hrun).
    apply Hrun; [by vm_compute | lia].
Defined.

(** X8.  When the active tab reports another title than the one it had, or
    none, the timer of the old title is left as it was: the report does not
    stop it, and neither does the next activation of another tab nor the
    removal of the tab, which look up the title the tab has by then. *)
Theorem title_change_leaves_old_timer (now nowStop nowStart : Z) (a : Z)
    (newTabId : option Z) (ta : string) (newTitle : option string) (s : State) :
  currentActiveTabId s = Some a → tabToTitle s !! a = Some ta →
  newTitle ≠ Some ta → newTabId ≠ Some a →
  (∀ b, newTabId = Some b → tabToTitle s !! b ≠ Some ta) →
  let s1 := reportTitle now a newTitle s in
  let s2 := handleTabChange nowStop nowStart newTabId s1 in
  timerOf ta s1 = timerOf ta s
  ∧ timerOf ta s2 = timerOf ta s
  ∧ timerOf ta (handleTabRemoved nowStop a s1) = timerOf ta s.
Proof.
  intros Hcur Ha Hnew Hab Hb. cbv zeta.
  assert (H1 : timerOf ta (reportTitle now a newTitle s) = timerOf ta s).
  { rewrite report_timerOf. rewrite (bool_decide_eq_false_2 (newTitle = Some ta)) by exact Hnew.
    rewrite andb_false_r. reflexivity. }
  assert (Hcur1 : currentActiveTabId (reportTitle now a newTitle s) = Some a).
  { unfold reportTitle. destruct (truthyStr newTitle); [| exact Hcur].
    cbv zeta. destruct (_ && _); [| exact Hcur].
    change (currentActiveTabId (saveState ?x)) with (currentActiveTabId x).
    rewrite active_start. exact Hcur. }
  assert (Htabs1 : tabToTitle (reportTitle now a newTitle s)
                   = if truthyStr newTitle
                     then <[a := default EmptyString newTitle]> (tabToTitle s)
                     else delete a (tabToTitle s)).
  { unfold reportTitle. destruct (truthyStr newTitle); [| reflexivity].
    cbv zeta. destruct (_ && _); [| reflexivity].
    change (tabToTitle (saveState ?x)) with (tabToTitle x).
    rewrite tabs_start. reflexivity. }
  assert (Hla : tabToTitle (reportTitle now a newTitle s) !! a ≠ Some ta).
  { rewrite Htabs1. destruct (truthyStr newTitle) eqn:Et.
    - rewrite lookup_insert. destruct (decide _); [| done].
      destruct newTitle; [simpl; congruence | discriminate].
    - rewrite lookup_delete. destruct (decide _); done. }
  split; [exact H1 |]. split.
  - rewrite <- H1. unfold timerOf at 1.
    rewrite timers_tabChange by (rewrite Hcur1; congruence).
    set (s1 := reportTitle now a newTitle s) in *.
    assert (Hp : ensuredTimer ta (stopPrevious nowStop s1) = timerOf ta s1).
    { unfold stopPrevious. rewrite Hcur1.
      destruct (tabToTitle s1 !! a) as [t |] eqn:E; [| reflexivity].
      destruct (truthyStr (Some t)); [| reflexivity].
      rewrite ensuredTimer_stop. cbn [from_option id].
      rewrite decide_False by congruence. reflexivity. }
    destruct newTabId as [b |]; [| exact Hp].
    destruct (tabToTitle s1 !! b) as [tb |] eqn:E; [| exact Hp].
    destruct (truthyStr (Some tb)); [| exact Hp].
    rewrite ensuredTimer_start. cbn [from_option id].
    rewrite decide_False; [exact Hp |].
    intros ->. subst s1. rewrite Htabs1 in E.
    assert (b ≠ a) by congruence.
    destruct (truthyStr newTitle).
    + rewrite lookup_insert_ne in E by congruence. apply (Hb b eq_refl E).
    + rewrite lookup_delete_ne in E by congruence. apply (Hb b eq_refl E).
  - rewrite <- H1. unfold timerOf at 1. rewrite timers_tabRemoved.
    set (s1 := reportTitle now a newTitle s) in *.
    destruct (decide _); [| reflexivity].
    destruct (tabToTitle s1 !! a) as [t |] eqn:E; [| reflexivity].
    destruct (truthyStr (Some t)); [| reflexivity].
    rewrite ensuredTimer_stop. cbn [from_option id].
    rewrite decide_False by congruence. reflexivity.
Qed.

Lemma title_change_leaves_old_timer_witness :
  let s := handleTabChange 3000 3000 (Some 7)
             (reportTitle 1000 7 (Some "Two Sum") initialState) in
  let s1 := reportTitle 4000 7 (Some "3Sum") s in
  let s2 := handleTabChange 9000 9000 (Some 8) s1 in
  timerOf "Two Sum" s2 = timerOf "Two Sum" s
  ∧ timerOf "Two Sum" s2
    = {| accumulated := 0; runningSince := Some 3000; activeCount := 1 |}.
Proof.
  intros s s1 s2.
  destruct (title_change_leaves_old_timer 4000 9000 9000 7 (Some 8) "Two Sum"
              (Some "3Sum") s) as (_ & H2 & _);
    [by vm_compute | by vm_compute | discriminate | discriminate | |].
  - intros b [= <-]. by vm_compute.
  - split; [exact H2|]. unfold s2, s1. rewrite H2. by vm_compute.
Defined.

Lemma state_ext s s' :
  writtenThrough s → writtenThrough s' →
  tabToTitle s = tabToTitle s' → titleTimers s = titleTimers s' →
  currentActiveTabId s = currentActiveTabId s' → s = s'.
Proof.
  unfold writtenThrough. destruct s, s'; simpl. intros -> -> -> -> ->. reflexivity.
Qed.

(** X9.  [handleTabRemoved] removes the mapping of the tab and writes the
    state.  When the tab was not the active one no timer and not the active
    tab change; when it was, no tab is active afterwards, and the timer of
    the title the tab had (if not empty) takes one stop, all other timers
    being left alone. *)
Theorem tab_removed_effects (now : Z) (tabId : Z) (s : State) :
  let s' := handleTabRemoved now tabId s in
  tabToTitle s' = delete tabId (tabToTitle s)
  ∧ persisted s' = (titleTimers s', tabToTitle s')
  ∧ (currentActiveTabId s ≠ Some tabId →
     titleTimers s' = titleTimers s
     ∧ currentActiveTabId s' = currentActiveTabId s)
  ∧ (currentActiveTabId s = Some tabId →
     currentActiveTabId s' = None
     ∧ ∀ title,
         timerOf title s'
         = if bool_decide (tabToTitle s !! tabId = Some title)
              && negb (String.eqb title EmptyString)
           then stopTimer now (timerOf title s)
           else timerOf title s).
Proof.
  cbv zeta. split; [apply tabs_tabRemoved |]. split; [reflexivity |]. split.
  - intros Hne. rewrite timers_tabRemoved, active_tabRemoved.
    rewrite !decide_False by exact Hne. done.
  - intros Heq. rewrite active_tabRemoved. rewrite decide_True by exact Heq.
    split; [reflexivity |]. intros title. unfold timerOf.
    rewrite timers_tabRemoved. rewrite decide_True by exact Heq.
    destruct (tabToTitle s !! tabId) as [t |] eqn:E.
    + cbn [truthyStr from_option id].
      destruct (decide (t = title)) as [-> | Hne].
      * rewrite bool_decide_eq_true_2 by reflexivity. cbn [andb].
        destruct (negb _); [| reflexivity].
        rewrite ensuredTimer_stop, decide_True by reflexivity. reflexivity.
      * rewrite bool_decide_eq_false_2 by congruence. cbn [andb].
        destruct (negb _); [| reflexivity].
        rewrite ensuredTimer_stop, decide_False by exact Hne. reflexivity.
    + rewrite bool_decide_eq_false_2 by discriminate. reflexivity.
Qed.

Lemma tab_removed_effects_witness :
  let s := reportTitle 2000 7 (Some "Two Sum")
             (handleTabChange 1000 1000 (Some 7) initialState) in
  let s' := handleTabRemoved 9000 7 s in
  currentActiveTabId s' = None
  ∧ timerOf "Two Sum" s'
    = {| accumulated := 7000; runningSince := None; activeCount := 0 |}
  ∧ titleTimers (handleTabRemoved 9000 8 s) = titleTimers s.
Proof.
  intros s s'.
  destruct (tab_removed_effects 9000 7 s) as (_ & _ & _ & Hactive).
  destruct Hactive as [Hcur Htimer]; [by vm_compute|].
  split; [exact Hcur|]. split.
  - unfold s'. rewrite Htimer. by vm_compute.
  - destruct (tab_removed_effects 9000 8 s) as (_ & _ & Hother & _).
    apply Hother. by vm_compute.
Defined.

Lemma stopPrevious_tabRemoved_other now nowStop a s :
  currentActiveTabId s ≠ Some a →
  stopPrevious nowStop (handleTabRemoved now a s) = stopPrevious nowStop s.
Proof.
  intros Hne. unfold stopPrevious.
  rewrite active_tabRemoved, tabs_tabRemoved, timers_tabRemoved.
  rewrite !decide_False by exact Hne.
  destruct (currentActiveTabId s) as [c |]; [| reflexivity].
  rewrite lookup_delete_ne by congruence. reflexivity.
Qed.

(** X10.  Removing tab [a] and activating another tab (or none) give the
    same state in either order, when the stop takes the same reading in
    both: the title of a closed active tab is stopped once, whichever of
    the two events comes first. *)
Theorem tab_removed_commutes_with_activation (now nowStart : Z) (a : Z)
    (newTabId : option Z) (s : State) :
  newTabId ≠ Some a →
  handleTabRemoved now a (handleTabChange now nowStart newTabId s)
  = handleTabChange now nowStart newTabId (handleTabRemoved now a s).
Proof.
  intros Hnew. apply state_ext.
  - reflexivity.
  - apply writtenThrough_tabChange. reflexivity.
  - rewrite tabs_tabRemoved, !tabs_tabChange, tabs_tabRemoved. reflexivity.
  - rewrite timers_tabRemoved, active_tabChange.
    rewrite decide_False by exact Hnew.
    destruct (decide (currentActiveTabId s = Some a)) as [Ha | Ha].
    + (* the removed tab was the active one *)
      assert (Hr : currentActiveTabId (handleTabRemoved now a s) = None).
      { rewrite active_tabRemoved, decide_True by exact Ha. reflexivity. }
      assert (Hstop : stopPrevious now s = titleTimers (handleTabRemoved now a s)).
      { unfold stopPrevious. rewrite timers_tabRemoved, Ha.
        rewrite decide_True by reflexivity. reflexivity. }
      rewrite timers_tabChange by (rewrite Ha; congruence).
      destruct newTabId as [b |].
      * rewrite (timers_tabChange _ _ (Some b)) by (rewrite Hr; discriminate).
        rewrite tabs_tabRemoved, lookup_delete_ne by congruence.
        assert (Hsr : stopPrevious now (handleTabRemoved now a s)
                      = titleTimers (handleTabRemoved now a s)).
        { unfold stopPrevious. rewrite Hr. reflexivity. }
        rewrite Hsr, Hstop. reflexivity.
      * rewrite timers_tabChange_same by exact Hr. exact Hstop.
    + destruct (decide (currentActiveTabId s = newTabId)) as [Heq | Hne].
      * rewrite !timers_tabChange_same;
          [| rewrite active_tabRemoved, decide_False by exact Ha; exact Heq | exact Heq].
        rewrite timers_tabRemoved, decide_False by exact Ha. reflexivity.
      * rewrite !timers_tabChange;
          [| rewrite active_tabRemoved, decide_False by exact Ha; exact Hne | exact Hne].
        rewrite stopPrevious_tabRemoved_other by exact Ha.
        destruct newTabId as [b |]; [| reflexivity].
        rewrite tabs_tabRemoved, lookup_delete_ne by congruence. reflexivity.
  - rewrite active_tabRemoved, !active_tabChange.
    rewrite decide_False by exact Hnew. reflexivity.
Qed.

Lemma tab_removed_commutes_with_activation_witness :
  let s := handleTabChange 3000 3000 (Some 7)
             (reportTitle 2000 8 (Some "3Sum")
                (reportTitle 1000 7 (Some "Two Sum") initialState)) in
  handleTabRemoved 9000 7 (handleTabChange 9000 9001 (Some 8) s)
  = handleTabChange 9000 9001 (Some 8) (handleTabRemoved 9000 7 s)
  ∧ accumulated (timerOf "Two Sum"
       (handleTabRemoved 9000 7 (handleTabChange 9000 9001 (Some 8) s))) = 6000.
Proof.
  intros s. split; [|by vm_compute].
  apply tab_removed_commutes_with_activation. discriminate.
Defined.

(** ** The time the popup shows *)

Lemma elapsedMs_view now title snapshot :
  elapsedMs now title snapshot = view now (ensuredTimer title snapshot.1).
Proof.
  unfold elapsedMs, view, ensuredTimer, pending.
  destruct (snapshot.1 !! title); [done|]. simpl. lia.
Qed.

Lemma view_mono last last' t : last ≤ last' → view last t ≤ view last' t.
Proof. intros Hle. unfold view, pending. destruct (runningSince t); lia. Qed.

Lemma view_start last now t :
  last ≤ now → stampPositive t →
  view last t ≤ view now (startTimer now t).
Proof.
  intros Hle Hpos. unfold view, pending, startTimer; simpl.
  destruct (runningSince t) as [rs|] eqn:E.
  - specialize (Hpos rs E). simpl.
    destruct (Z.eqb_spec rs 0); [lia|]. simpl. rewrite andb_false_r. lia.
  - simpl. destruct (_ && _); lia.
Qed.

Lemma view_stop last last' now t :
  last ≤ now → last ≤ last' → (∀ rs, runningSince t = Some rs → rs ≤ last) →
  view last t ≤ view last' (stopTimer now t).
Proof.
  intros Hnow Hle Hst. unfold view, pending, stopTimer.
  destruct (_ <=? 0).
  - destruct (runningSince t) as [rs|] eqn:E; [|simpl; lia].
    specialize (Hst rs eq_refl). destruct (negb _); simpl; lia.
  - simpl. destruct (runningSince t); lia.
Qed.

Lemma view_pause last last' now t :
  last ≤ now → last ≤ last' → (∀ rs, runningSince t = Some rs → rs ≤ last) →
  view last t ≤ view last' (pauseTimer now t).
Proof.
  intros Hnow Hle Hst. unfold view, pending, pauseTimer.
  destruct (runningSince t) as [rs|] eqn:E; [|simpl; lia].
  specialize (Hst rs eq_refl). destruct (negb _); simpl; lia.
Qed.

Lemma ahead_refl last last' tm : last ≤ last' → ahead last last' tm tm.
Proof. intros Hle title. by apply view_mono. Qed.

Lemma ahead_trans l0 l1 l2 tm0 tm1 tm2 :
  ahead l0 l1 tm0 tm1 → ahead l1 l2 tm1 tm2 → ahead l0 l2 tm0 tm2.
Proof. intros H01 H12 title. specialize (H01 title). specialize (H12 title). lia. Qed.

Lemma timersInv_ensured title tm :
  timersInv tm → stampPositive (ensuredTimer title tm).
Proof.
  intros Htm. unfold ensuredTimer. destruct (tm !! title) as [t|] eqn:E.
  - apply (Htm _ _ E).
  - intros rs. discriminate.
Qed.

Lemma ahead_start last now title tm :
  last ≤ now → timersInv tm → ahead last now tm (startTitleTimers now title tm).
Proof.
  intros Hle Htm title'. rewrite ensuredTimer_start.
  destruct (decide _) as [->|_]; [|by apply view_mono].
  apply view_start; [done|]. by apply timersInv_ensured.
Qed.

Lemma ahead_stop last last' now title tm :
  last ≤ now → last ≤ last' → stampsUpTo last tm →
  ahead last last' tm (stopTitleTimers now title tm).
Proof.
  intros Hnow Hle Hst title'. rewrite ensuredTimer_stop.
  destruct (decide _) as [->|_]; [|by apply view_mono].
  apply view_stop; [done|done|]. intros rs. by apply stampsUpTo_ensured.
Qed.

Lemma ahead_pause last last' now tm :
  (∀ title, last ≤ now title) → last ≤ last' → stampsUpTo last tm →
  ahead last last' tm (map_imap (λ title t, Some (pauseTimer (now title) t)) tm).
Proof.
  intros Hnow Hle Hst title. rewrite ensuredTimer_pause.
  apply view_pause; [done|done|]. intros rs. by apply stampsUpTo_ensured.
Qed.

Lemma ahead_ensure last last' title tm :
  last ≤ last' → ahead last last' tm (ensureTitleTimer title tm).
Proof.
  intros Hle title'. rewrite ensuredTimer_ensure_other. by apply view_mono.
Qed.

Lemma timersInv_stopPrevious nowStop s :
  timersInv (titleTimers s) → timersInv (stopPrevious nowStop s).
Proof.
  intros Hs. unfold stopPrevious. destruct (currentActiveTabId s); [|done].
  destruct (truthyStr _); [by apply timersInv_stop|done].
Qed.

Lemma ahead_stopPrevious last last' nowStop s :
  last ≤ nowStop → last ≤ last' → stampsUpTo last (titleTimers s) →
  ahead last last' (titleTimers s) (stopPrevious nowStop s).
Proof.
  intros Hnow Hle Hst. unfold stopPrevious.
  destruct (currentActiveTabId s); [|by apply ahead_refl].
  destruct (truthyStr _); [by apply ahead_stop|by apply ahead_refl].
Qed.

Lemma ahead_tabChange last nowStop nowStart newTabId s :
  last ≤ nowStop → nowStop ≤ nowStart →
  timersInv (titleTimers s) → stampsUpTo last (titleTimers s) →
  ahead last nowStart (titleTimers s)
        (titleTimers (handleTabChange nowStop nowStart newTabId s)).
Proof.
  intros H1 H2 Hinv Hst.
  destruct (decide (currentActiveTabId s = newTabId)) as [Heq|Hne].
  - rewrite timers_tabChange_same by exact Heq. apply ahead_refl. lia.
  - rewrite timers_tabChange by exact Hne.
    assert (Hstop : ahead last nowStart (titleTimers s) (stopPrevious nowStop s))
      by (apply ahead_stopPrevious; [done|lia|done]).
    destruct newTabId; [|exact Hstop].
    destruct (truthyStr _); [|exact Hstop].
    apply (ahead_trans _ nowStop _ _ (stopPrevious nowStop s)).
    + by apply ahead_stopPrevious.
    + apply ahead_start; [done|]. by apply timersInv_stopPrevious.
Qed.

Lemma ahead_step last ev s :
  writtenThrough s → engineInv s → stampsUpTo last (titleTimers s) →
  readingsFrom last ev →
  ahead last (lastReading last ev) (titleTimers s) (titleTimers (step ev s)).
Proof.
  intros Hw [Hinv _] Hst Hev.
  destruct ev as [now title | now title | now | nowStop nowStart newTabId
    | now tabId | nowStop nowStart nowAll focus | now tabId title |];
    cbn [step lastReading]; cbn [readingsFrom] in Hev.
  - rewrite timers_start. by apply ahead_start.
  - rewrite timers_stop. by apply ahead_stop.
  - by apply ahead_pause.
  - destruct Hev as [H1 H2]. by apply ahead_tabChange.
  - rewrite timers_tabRemoved.
    destruct (decide _); [|by apply ahead_refl].
    destruct (truthyStr _); [by apply ahead_stop|by apply ahead_refl].
  - destruct Hev as (H1 & H2 & H3). rewrite timers_focusChanged.
    assert (Hp : ahead last nowStart (titleTimers s)
              (map_imap (λ title t, Some (pauseTimer (nowAll title) t)) (titleTimers s)))
      by (apply ahead_pause; [done|lia|done]).
    destruct focus as [found|]; [|exact Hp].
    destruct (truthyNum found); [|exact Hp].
    by apply ahead_tabChange.
  - rewrite timers_report. destruct (truthyStr title); [|by apply ahead_refl].
    destruct (_ && _); [|by apply ahead_ensure].
    apply (ahead_trans _ last _ _
             (ensureTitleTimer (default EmptyString title) (titleTimers s))).
    + by apply ahead_ensure.
    + apply ahead_start; [done|]. by apply timersInv_ensure.
  - unfold loadState; simpl. rewrite Hw. simpl. by apply ahead_refl.
Qed.

Lemma engineInv_runAll evs : ∀ s,
  Forall clockPositive evs → engineInv s → engineInv (runAll evs s).
Proof.
  induction evs as [|ev evs IH]; intros s Hpos Hs; [done|].
  apply Forall_cons in Hpos as [Hev Hrest].
  apply IH; [done|]. by apply engineInv_step.
Qed.

Lemma ahead_runAll evs : ∀ last s,
  writtenThrough s → engineInv s → stampsUpTo last (titleTimers s) →
  chronologicalRun last evs → Forall clockPositive evs →
  ahead last (lastOfRun last evs) (titleTimers s) (titleTimers (runAll evs s)).
Proof.
  induction evs as [|ev evs IH]; intros last s Hw Hinv Hst Hrun Hpos.
  - by apply ahead_refl.
  - destruct Hrun as [Hev Hrest]. apply Forall_cons in Hpos as [Hposev Hposrest].
    apply (ahead_trans _ (lastReading last ev) _ _ (titleTimers (step ev s))).
    + by apply ahead_step.
    + apply IH; [by apply writtenThrough_step|by apply engineInv_step| |done|done].
      by destruct (follows_step last ev s Hw Hst Hev).
Qed.

(** X11.  The elapsed time the popup computes for a title never goes
    back: along a run of events with positive readings that do not go back,
    from a written-through state that satisfies the invariant of the engine
    and whose stored readings are not later than [last], the time computed
    from the snapshot at [last] is at most the one computed from the
    snapshot after the run at any clock value not before the last reading;
    so are the whole seconds. *)
Theorem shown_time_never_goes_back (last later : Z) (evs : list Event)
    (s : State) (title : string) :
  writtenThrough s → engineInv s → stampsUpTo last (titleTimers s) →
  chronologicalRun last evs → Forall clockPositive evs →
  lastOfRun last evs ≤ later →
  elapsedMs last title (persisted s)
  ≤ elapsedMs later title (persisted (runAll evs s))
  ∧ elapsedMs last title (persisted s) / 1000
    ≤ elapsedMs later title (persisted (runAll evs s)) / 1000.
Proof.
  intros Hw Hinv Hst Hrun Hpos Hlater.
  assert (Hle : elapsedMs last title (persisted s)
                ≤ elapsedMs later title (persisted (runAll evs s))).
  { rewrite !elapsedMs_view.
    rewrite Hw, (writtenThrough_runAll evs s Hw). simpl.
    pose proof (ahead_runAll evs last s Hw Hinv Hst Hrun Hpos title) as H1.
    pose proof (view_mono (lastOfRun last evs) later
                  (ensuredTimer title (titleTimers (runAll evs s))) Hlater).
    lia. }
  split; [exact Hle|]. apply Z.div_le_mono; [lia|exact Hle].
Qed.

Lemma shown_time_never_goes_back_witness :
  let evs := [EvTabChange 1000 1000 (Some 7); EvReport 2000 7 (Some "Two Sum");
              EvFocusChanged 5000 5000 (λ _, 5000) None] in
  elapsedMs 0 "Two Sum" (persisted initialState)
  ≤ elapsedMs 8000 "Two Sum" (persisted (runAll evs initialState))
  ∧ elapsedMs 8000 "Two Sum" (persisted (runAll evs initialState)) = 3000.
Proof.
  intros evs. split; [|by vm_compute].
  apply (shown_time_never_goes_back 0 8000 evs initialState "Two Sum").
  - reflexivity.
  - apply engineInv_initial.
  - intros title t rs Hl. simpl in Hl. by rewrite lookup_empty in Hl.
  - simpl. repeat split; lia.
  - repeat constructor; simpl; lia.
  - simpl. lia.
Defined.

End EngineEvents.

(** * More on the store: the other functions of the class *)

Module StoreWriters.
Import Store StoreProps.

(** ** Time spent, deletion, recommendations *)

Lemma updateTimeSpent_run now id extra m :
  (updateTimeSpent now id extra m).2
  = match objGet id (problems (current m)) with
    | Some p =>
        withProblems
          (objSet id {| info := info p; lastAccessed := now;
                        timeSpent := timeSpent p + extra |}
                  (problems (current m))) (current m) :: m
    | None => m
    end.
Proof.
  unfold updateTimeSpent, bind, current. simpl.
  by destruct (objGet id _).
Qed.

(** X14.  [updateTimeSpent] writes nothing when the catalogue has no
    record under the identifier.  When it has one it writes one document,
    in which that record has its [timeSpent] raised by the amount and
    [lastAccessed] set to the reading, the identifiers are in the same
    order, and every other record, the last used identifier, the
    recommendations, the revisions (the copy made at completion included),
    the tag statistics and the settings are unchanged; a second call adds
    to the sum of the first. *)
Theorem update_time_spent_effects (now : Z) (id : string) (extra : Z)
    (m : Medium) :
  let storage := current m in
  (objGet id (problems storage) = None →
   (updateTimeSpent now id extra m).2 = m)
  ∧ (∀ p, objGet id (problems storage) = Some p →
       ∃ doc,
         (updateTimeSpent now id extra m).2 = doc :: m
         ∧ objGet id (problems doc)
           = Some {| info := info p; lastAccessed := now;
                     timeSpent := timeSpent p + extra |}
         ∧ (problems doc).*1 = (problems storage).*1
         ∧ (∀ id', id' ≠ id →
              objGet id' (problems doc) = objGet id' (problems storage))
         ∧ lastUsedProblemId doc = lastUsedProblemId storage
         ∧ recommendations doc = recommendations storage
         ∧ revisions doc = revisions storage
         ∧ tagStats doc = tagStats storage
         ∧ settings doc = settings storage
         ∧ ∀ now' extra',
             timeSpent <$> objGet id
               (problems (current (updateTimeSpent now' id extra' (doc :: m)).2))
             = Some (timeSpent p + extra + extra')).
Proof.
  intros storage. split.
  - intros Hnone. rewrite updateTimeSpent_run. fold storage. by rewrite Hnone.
  - intros p Hp. rewrite updateTimeSpent_run. fold storage. rewrite Hp.
    eexists. split; [reflexivity|]. simpl.
    split; [by rewrite objGet_objSet, decide_True|].
    split; [by apply objSet_keys_existing; eexists|].
    split; [by intros id' Hne; rewrite objGet_objSet, decide_False|].
    do 5 (split; [reflexivity|]).
    intros now' extra'. rewrite updateTimeSpent_run. unfold current at 1 2. simpl.
    rewrite objGet_objSet, decide_True by done. simpl.
    by rewrite objGet_objSet, decide_True.
Qed.

Lemma update_time_spent_effects_witness :
  let m := (saveProblem 1000 twoSum []).2 in
  ∃ doc,
    (updateTimeSpent 2000 "1-1--two-sum" 5000 m).2 = doc :: m
    ∧ timeSpent <$> objGet "1-1--two-sum" (problems doc) = Some 5000
    ∧ timeSpent <$> objGet "1-1--two-sum"
        (problems (current (updateTimeSpent 3000 "1-1--two-sum" 250 (doc :: m)).2))
      = Some 5250.
Proof.
  intros m.
  destruct (update_time_spent_effects 2000 "1-1--two-sum" 5000 m) as [_ Hsome].
  destruct (Hsome {| info := twoSum; lastAccessed := 1000; timeSpent := 0 |})
    as (doc & Hrun & Hget & _ & _ & _ & _ & _ & _ & _ & Htwice).
  - reflexivity.
  - exists doc. split; [exact Hrun|]. split; [by rewrite Hget|].
    exact (Htwice 3000 250).
Defined.

Lemma length_objDelete {V} k (o : list (string * V)) :
  (length (objDelete k o) ≤ length o)%nat.
Proof. apply length_filter. Qed.

Lemma deleteProblem_run id m :
  (deleteProblem id m).2
  = (if decide (lastUsedProblemId (current m) = Some id)
     then withLastUsed None
            (withProblems (objDelete id (problems (current m))) (current m))
     else withProblems (objDelete id (problems (current m))) (current m))
    :: m.
Proof. reflexivity. Qed.

(** X15.  [deleteProblem] writes one document, also when there is no
    record to delete: the identifier has no record in it, every other
    identifier has the record it had, the last used identifier is cleared
    exactly when it was the deleted one (and [getLastUsedProblem] then
    returns [null]), and the recommendations, the revisions and the tag
    statistics of the deleted problem stay. *)
Theorem delete_problem_effects (id : string) (m : Medium) :
  let storage := current m in
  ∃ doc,
    (deleteProblem id m).2 = doc :: m
    ∧ (getProblem id (doc :: m)).1 = None
    ∧ (∀ id', id' ≠ id →
         objGet id' (problems doc) = objGet id' (problems storage))
    ∧ (length (problems doc) ≤ length (problems storage))%nat
    ∧ lastUsedProblemId doc
      = (if decide (lastUsedProblemId storage = Some id) then None
         else lastUsedProblemId storage)
    ∧ (lastUsedProblemId storage = Some id →
       (getLastUsedProblem (doc :: m)).1 = None)
    ∧ recommendations doc = recommendations storage
    ∧ revisions doc = revisions storage
    ∧ tagStats doc = tagStats storage
    ∧ settings doc = settings storage.
Proof.
  intros storage. rewrite deleteProblem_run. fold storage.
  eexists. split; [reflexivity|].
  unfold getProblem, getLastUsedProblem, getAllProblems, getStorage, bind, ret.
  cbn [fst snd].
  destruct (decide (lastUsedProblemId storage = Some id)) as [Hlast|Hlast]; simpl.
  - split; [by rewrite objGet_objDelete, decide_True|].
    split; [by intros id' Hne; rewrite objGet_objDelete, decide_False|].
    split; [apply length_objDelete|]. done.
  - split; [by rewrite objGet_objDelete, decide_True|].
    split; [by intros id' Hne; rewrite objGet_objDelete, decide_False|].
    split; [apply length_objDelete|]. done.
Qed.

Lemma delete_problem_effects_witness :
  let m := (saveProblem 1000 twoSum []).2 in
  ∃ doc,
    (deleteProblem "1-1--two-sum" m).2 = doc :: m
    ∧ (getProblem "1-1--two-sum" (doc :: m)).1 = None
    ∧ (getLastUsedProblem (doc :: m)).1 = None.
Proof.
  intros m.
  destruct (delete_problem_effects "1-1--two-sum" m)
    as (doc & Hrun & Hget & _ & _ & _ & Hlast & _).
  exists doc. split; [exact Hrun|]. split; [exact Hget|].
  apply Hlast. reflexivity.
Defined.

Lemma sliceFromStart_nonneg {A} (n : Z) (l : list A) :
  0 ≤ n → sliceFromStart n l = take (Z.to_nat n) l.
Proof.
  intros Hn. unfold sliceFromStart.
  destruct (Z.ltb_spec n 0); [lia|].
  destruct (Z.le_gt_cases n (Z.of_nat (length l))).
  - by rewrite Z.min_l.
  - rewrite Z.min_r, Nat2Z.id by lia.
    rewrite firstn_all. symmetry. apply take_ge.
    apply Nat2Z.inj_le. rewrite Z2Nat.id; lia.
Qed.

Lemma addRecommendations_run id recs m :
  (addRecommendations id recs m).2
  = {| problems := problems (current m);
       lastUsedProblemId := lastUsedProblemId (current m);
       recommendations :=
         <[id := sliceFromStart (maxRecommendations (settings (current m))) recs]>
           (recommendations (current m));
       revisions := revisions (current m);
       tagStats := tagStats (current m);
       settings := settings (current m) |} :: m.
Proof. reflexivity. Qed.

Lemma getRecommendations_value id m :
  (getRecommendations id m).1 = default [] (recommendations (current m) !! id).
Proof. reflexivity. Qed.

(** X16.  With a cap [maxRecommendations] that is not negative,
    [addRecommendations] stores the first [maxRecommendations] entries of
    the list under the identifier, in place of what was there:
    [getRecommendations] returns them, their number is the smaller of the
    cap and the length of the list, the lists of other identifiers are
    unchanged, and an identifier without a list reads as the empty
    list. *)
Theorem recommendations_capped (id : string) (recs : list SimilarQuestion)
    (m : Medium) :
  let storage := current m in
  let cap := maxRecommendations (settings storage) in
  0 ≤ cap →
  ∃ doc,
    (addRecommendations id recs m).2 = doc :: m
    ∧ (getRecommendations id (doc :: m)).1 = take (Z.to_nat cap) recs
    ∧ Z.of_nat (length (getRecommendations id (doc :: m)).1)
      = Z.min cap (Z.of_nat (length recs))
    ∧ (∀ id', id' ≠ id →
         (getRecommendations id' (doc :: m)).1 = (getRecommendations id' m).1)
    ∧ (recommendations storage !! id = None → (getRecommendations id m).1 = [])
    ∧ problems doc = problems storage
    ∧ lastUsedProblemId doc = lastUsedProblemId storage
    ∧ revisions doc = revisions storage
    ∧ tagStats doc = tagStats storage
    ∧ settings doc = settings storage.
Proof.
  intros storage cap Hcap. rewrite addRecommendations_run. fold storage cap.
  eexists. split; [reflexivity|].
  rewrite !getRecommendations_value. unfold current at 1 2; cbn [getStorage fst].
  cbn [recommendations]. rewrite lookup_insert_eq. cbn [from_option Datatypes.id].
  rewrite sliceFromStart_nonneg by done.
  split; [done|]. split; [rewrite length_take; lia|].
  split.
  { intros id' Hne. rewrite !getRecommendations_value.
    unfold current at 1; cbn [getStorage fst recommendations].
    by rewrite lookup_insert_ne. }
  split; [|done].
  fold storage. by intros ->.
Qed.

Lemma recommendations_capped_witness :
  let storage :=
    {| problems := []; lastUsedProblemId := None; recommendations := ∅;
       revisions := ∅; tagStats := ∅;
       settings := {| maxStoredProblems := 50; autoSave := true;
                      maxRecommendations := 2 |} |} in
  let recs := [sampleQuestion 15; sampleQuestion 16; sampleQuestion 18] in
  ∃ doc,
    (addRecommendations "1-1--two-sum" recs [storage]).2 = [doc; storage]
    ∧ (getRecommendations "1-1--two-sum" [doc; storage]).1
      = [sampleQuestion 15; sampleQuestion 16].
Proof.
  intros storage recs.
  destruct (recommendations_capped "1-1--two-sum" recs [storage])
    as (doc & Hrun & Hget & _).
  - simpl. lia.
  - exists doc. split; [exact Hrun | exact Hget].
Defined.

(** ** The record just saved *)

(** The head of the sort when the last entry is not older than the
    others. *)
Lemma sort_head_not_last (l : list (string * Problem)) (x : string * Problem) :
  l ≠ [] → (∀ e, e ∈ l → lastAccessed e.2 ≤ lastAccessed x.2) →
  ∃ h rest, sortByAccess (l ++ [x]) = h :: rest ∧ h ∈ l.
Proof.
  induction l as [|e l IH]; [done|]. intros _ Hall.
  unfold sortByAccess in *. simpl.
  destruct l as [|e' l'].
  - simpl. pose proof (Hall e (list_elem_of_here _ _)) as He.
    destruct (Z.leb_spec (lastAccessed e.2) (lastAccessed x.2)); [|lia].
    exists e, [x]. split; [done|]. left.
  - destruct IH as (h & rest & Heq & Hin); [done| |].
    { intros e0 He0. apply Hall. by right. }
    rewrite Heq. simpl.
    destruct (lastAccessed e.2 <=? lastAccessed h.2).
    + eexists _, _. split; [done|]. left.
    + eexists _, _. split; [done|]. by right.
Qed.

Lemma generateProblemId_nonempty data : generateProblemId data ≠ EmptyString.
Proof.
  unfold generateProblemId. destruct (pretty (number data)); discriminate.
Qed.

Lemma getLastUsedProblem_value m :
  (getLastUsedProblem m).1
  = match lastUsedProblemId (current m) with
    | Some id =>
        if negb (String.eqb id EmptyString)
        then objGet id (problems (current m)) else None
    | None => None
    end.
Proof.
  unfold getLastUsedProblem, bind, current. simpl.
  destruct (lastUsedProblemId _) as [id|]; [|done].
  by destruct (negb _).
Qed.

Lemma saved_record_survives now data storage :
  let id := generateProblemId data in
  let saved :=
    {| info := data; lastAccessed := now;
       timeSpent := match objGet id (problems storage) with
                    | Some existing => timeSpent existing
                    | None => 0
                    end |} in
  keysDistinct storage → withinCap storage →
  1 ≤ maxStoredProblems (settings storage) →
  (∀ e, e ∈ problems storage → lastAccessed e.2 ≤ now) →
  objGet id
    (problems (cleanupOldProblems
       (withLastUsed (Some id)
          (withProblems (objSet id saved (problems storage)) storage))))
  = Some saved.
Proof.
  intros id saved Hnd Hcap Hone Hclock.
  set (storage1 := withLastUsed _ _).
  destruct (objGet id (problems storage)) as [old|] eqn:Hold.
  - rewrite cleanup_within_cap.
    + simpl. by rewrite objGet_objSet, decide_True.
    + simpl. rewrite <- (length_fmap fst), objSet_keys_existing, length_fmap
        by (by eexists). exact Hcap.
  - assert (Hentries : problems storage1 = problems storage ++ [(id, saved)])
      by (simpl; by apply objSet_new).
    destruct (Z.le_gt_cases (Z.of_nat (length (problems storage1)))
                (maxStoredProblems (settings storage1))) as [Hle|Hgt].
    + rewrite cleanup_within_cap by exact Hle.
      simpl. by rewrite objGet_objSet, decide_True.
    + assert (Hlen : length (problems storage1) = S (length (problems storage)))
        by (rewrite Hentries, length_app; simpl; lia).
      unfold withinCap in Hcap.
      destruct (cleanup_over_cap storage1) as (Hfilter & _);
        [exact Hgt | simpl; lia
         | rewrite Hentries; by apply saved_entries_NoDup |].
      rewrite Hfilter, objGet_filter_keys.
      change (settings storage1) with (settings storage) in *.
      replace (length (problems storage1)
               - Z.to_nat (maxStoredProblems (settings storage)))%nat
        with 1%nat by lia.
      destruct (sort_head_not_last (problems storage) (id, saved))
        as (h & rest & Hsort & Hin).
      { intros Hnil. rewrite Hnil in Hcap, Hlen. simpl in *. lia. }
      { intros e He. simpl. by apply Hclock. }
      rewrite Hentries, Hsort. simpl.
      assert (Hne : h.1 ≠ id).
      { intros Hh. apply objGet_None in Hold. apply Hold.
        rewrite <- Hh. by apply list_elem_of_fmap_2. }
      rewrite decide_False by (rewrite list_elem_of_singleton; congruence).
      rewrite <- (objSet_new _ saved _ Hold).
      by rewrite objGet_objSet, decide_True.
Qed.

Lemma cleanup_settings storage :
  settings (cleanupOldProblems storage) = settings storage.
Proof. by destruct (cleanup_frame storage) as (_ & _ & _ & _ & ->). Qed.

Lemma cleanup_lastUsed storage :
  lastUsedProblemId (cleanupOldProblems storage) = lastUsedProblemId storage.
Proof. by destruct (cleanup_frame storage) as (-> & _). Qed.

(** X17.  When the catalogue has distinct identifiers and is within a cap
    of at least [1], and no record was accessed later than the reading,
    the record [saveProblem] saves is never the one its own eviction
    removes: afterwards it is the last used problem, and [getProblem] and
    [getLastUsedProblem] return it, with the [timeSpent] of the record it
    replaces or [0]. *)
Theorem saved_problem_is_last_used (now : Z) (data : ProblemData) (m : Medium) :
  let storage := current m in
  let id := generateProblemId data in
  let saved :=
    {| info := data; lastAccessed := now;
       timeSpent := match objGet id (problems storage) with
                    | Some existing => timeSpent existing
                    | None => 0
                    end |} in
  let m' := (saveProblem now data m).2 in
  keysDistinct storage → withinCap storage →
  1 ≤ maxStoredProblems (settings storage) →
  (∀ e, e ∈ problems storage → lastAccessed e.2 ≤ now) →
  lastUsedProblemId (current m') = Some id
  ∧ (getProblem id m').1 = Some saved
  ∧ (getLastUsedProblem m').1 = Some saved.
Proof.
  intros storage id saved m' Hnd Hcap Hone Hclock.
  pose proof (saved_record_survives now data storage Hnd Hcap Hone Hclock) as Hget.
  cbv zeta in Hget. fold id saved in Hget.
  assert (Hlast : lastUsedProblemId (current m') = Some id).
  { subst m'. rewrite saveProblem_run. unfold current at 1. cbn [getStorage fst].
    by rewrite cleanup_lastUsed. }
  assert (Hprob : objGet id (problems (current m')) = Some saved).
  { subst m'. rewrite saveProblem_run. unfold current at 1. cbn [getStorage fst].
    exact Hget. }
  split; [exact Hlast|]. split; [exact Hprob|].
  rewrite getLastUsedProblem_value, Hlast.
  destruct (String.eqb_spec id EmptyString) as [Hempty|_]; [|exact Hprob].
  by apply generateProblemId_nonempty in Hempty.
Qed.

Lemma saved_problem_is_last_used_witness :
  let m := (saveProblem 1000 twoSum [emptyWithCap 1]).2 in
  let m' := (saveProblem 2000 threeSum m).2 in
  (getLastUsedProblem m').1
  = Some {| info := threeSum; lastAccessed := 2000; timeSpent := 0 |}.
Proof.
  intros m m'.
  refine (proj2 (proj2 (saved_problem_is_last_used 2000 threeSum m _ _ _ _))).
  - apply (bool_decide_unpack _). by vm_compute.
  - unfold withinCap. simpl. lia.
  - simpl. lia.
  - intros e He. apply list_elem_of_singleton in He as ->. simpl. lia.
Defined.

(** ** The cap as an invariant *)

Lemma settings_runWrite w m : settings (current (runWrite w m)) = settings (current m).
Proof.
  destruct w as [now data|now id extra| |id|now id|id recs]; cbn [runWrite].
  - rewrite saveProblem_run. unfold current at 1. cbn [getStorage fst].
    by rewrite cleanup_settings.
  - rewrite updateTimeSpent_run. by destruct (objGet id _).
  - done.
  - rewrite deleteProblem_run. unfold current at 1. cbn [getStorage fst].
    by case_decide.
  - rewrite markProblemCompleted_run. by destruct (objGet id _).
  - done.
Qed.

Lemma keysDistinct_runWrite w m :
  keysDistinct (current m) → keysDistinct (current (runWrite w m)).
Proof.
  intros Hnd. pose proof (writers_keep_keys_distinct m Hnd)
    as (H1 & H2 & H3 & H4 & H5 & H6).
  destruct w; cbn [runWrite]; auto.
Qed.

Lemma withinCap_save now data m :
  keysDistinct (current m) → 0 ≤ maxStoredProblems (settings (current m)) →
  withinCap (current (saveProblem now data m).2).
Proof.
  intros Hnd Hcap. rewrite saveProblem_run. unfold current at 1.
  cbn [getStorage fst]. set (storage1 := withLastUsed _ _).
  unfold withinCap.
  destruct (Z.le_gt_cases (Z.of_nat (length (problems storage1)))
              (maxStoredProblems (settings storage1))) as [Hle|Hgt].
  - by rewrite cleanup_within_cap.
  - destruct (cleanup_over_cap storage1) as (_ & _ & _ & Hsize & _);
      [exact Hgt | exact Hcap | by apply objSet_NoDup |].
    rewrite cleanup_settings. lia.
Qed.

Lemma problems_delete id m :
  problems (current (deleteProblem id m).2) = objDelete id (problems (current m)).
Proof.
  rewrite deleteProblem_run. unfold current at 1. cbn [getStorage fst].
  by case_decide.
Qed.

Lemma withinCap_runWrite w m :
  keysDistinct (current m) → 0 ≤ maxStoredProblems (settings (current m)) →
  withinCap (current m) → withinCap (current (runWrite w m)).
Proof.
  intros Hnd Hcap Hin.
  destruct w as [now data|now id extra| |id|now id|id recs];
    [by apply withinCap_save|..];
    unfold withinCap in *; rewrite settings_runWrite; cbn [runWrite].
  - rewrite updateTimeSpent_run. destruct (objGet id _) eqn:E; [|done].
    unfold current at 1. cbn [getStorage fst withProblems problems].
    rewrite <- (length_fmap fst), objSet_keys_existing, length_fmap
      by (by eexists). exact Hin.
  - exact Hcap.
  - rewrite problems_delete.
    pose proof (length_objDelete id (problems (current m))). lia.
  - rewrite markProblemCompleted_run. destruct (objGet id _) eqn:E; [|done].
    unfold current at 1. cbn [getStorage fst updateTagStats problems].
    rewrite <- (length_fmap fst), objSet_keys_existing, length_fmap
      by (by eexists). exact Hin.
  - exact Hin.
Qed.

(** X18.  The cap is an invariant of the store.  For a catalogue with
    distinct identifiers and a cap that is not negative, [saveProblem]
    always leaves the catalogue within the cap; and from a catalogue
    within the cap, any sequence of the six writing functions leaves it
    within the cap, with distinct identifiers and the same settings. *)
Theorem catalogue_stays_within_cap (ws : list WriteOp) (m : Medium) :
  keysDistinct (current m) →
  0 ≤ maxStoredProblems (settings (current m)) →
  (∀ now data, withinCap (current (saveProblem now data m).2))
  ∧ (withinCap (current m) →
     withinCap (current (runWrites ws m))
     ∧ keysDistinct (current (runWrites ws m))
     ∧ settings (current (runWrites ws m)) = settings (current m)).
Proof.
  intros Hnd Hcap. split; [by intros; apply withinCap_save|].
  revert m Hnd Hcap. induction ws as [|w ws IH]; intros m Hnd Hcap Hin; [done|].
  simpl. destruct (IH (runWrite w m)) as (H1 & H2 & H3).
  - by apply keysDistinct_runWrite.
  - by rewrite settings_runWrite.
  - by apply withinCap_runWrite.
  - split; [exact H1|]. split; [exact H2|]. by rewrite H3, settings_runWrite.
Qed.

Lemma catalogue_stays_within_cap_witness :
  let ws := [WSave 1000 twoSum; WSave 2000 threeSum; WComplete 3000 "1-1--two-sum";
             WUpdateTime 4000 "15-15--3sum" 60000; WDelete "1-1--two-sum"] in
  withinCap (current (runWrites ws [emptyWithCap 1]))
  ∧ keysDistinct (current (runWrites ws [emptyWithCap 1])).
Proof.
  intros ws.
  destruct (catalogue_stays_within_cap ws [emptyWithCap 1]) as [_ Hinv].
  - apply NoDup_nil_2.
  - simpl. lia.
  - destruct Hinv as (H1 & H2 & _); [unfold withinCap; simpl; lia|].
    split; [exact H1 | exact H2].
Defined.

(** ** Completion *)



Lemma completed_count_drops id (o : list (string * Problem)) q q' :
  objGet id o = Some q →
  PopupStore.truthyBool (isCompleted (info q)) = true →
  PopupStore.truthyBool (isCompleted (info q')) = false →
  (length (List.filter (λ p, PopupStore.truthyBool (isCompleted (info p)))
             (objSet id q' o).*2)
   < length (List.filter (λ p, PopupStore.truthyBool (isCompleted (info p)))
               o.*2))%nat.
Proof.
  intros Hq Ht Hf. induction o as [|[k v] o IH]; [done|].
  simpl in *. destruct (decide (k = id)) as [->|Hne].
  - injection Hq as ->. simpl. rewrite Ht, Hf. simpl. exact (le_n _).
  - simpl. specialize (IH Hq).
    destruct (PopupStore.truthyBool (isCompleted (info v))); simpl;
      [apply (proj1 (Nat.succ_lt_mono _ _))|]; exact IH.
Qed.

(** X20.  [saveProblem] replaces the payload of a stored record: after
    [markProblemCompleted] and a second [saveProblem] of the same problem
    (catalogue within the cap), the record in the catalogue carries the
    completion fields of the new payload and the old [timeSpent], while the
    revision still holds the completed copy and the tag statistics are
    those after the completion.  When the new payload is not marked
    completed, the [completedProblems] count of the popup goes down. *)
Theorem resave_resets_completion (now1 now2 : Z) (data : ProblemData)
    (m : Medium) (p : Problem) :
  let storage := current m in
  let id := generateProblemId data in
  objGet id (problems storage) = Some p →
  withinCap storage →
  let m1 := (markProblemCompleted now1 id m).2 in
  let m2 := (saveProblem now2 data m1).2 in
  (getProblem id m1).1 = Some (completeProblem now1 p)
  ∧ (getProblem id m2).1
    = Some {| info := data; lastAccessed := now2; timeSpent := timeSpent p |}
  ∧ revisions (current m2) !! id = Some (completeProblem now1 p)
  ∧ tagStats (current m2) = tagStats (current m1)
  ∧ (isCompleted data ≠ Some true →
     (PopupStore.completedProblems (PopupStore.getProblemStats m2)
      < PopupStore.completedProblems (PopupStore.getProblemStats m1))%nat).
Proof.
  intros storage id Hp Hcap m1 m2.
  assert (Hm1 : m1 = updateTagStats
            {| problems := objSet id (completeProblem now1 p) (problems storage);
               lastUsedProblemId := lastUsedProblemId storage;
               recommendations := recommendations storage;
               revisions := <[id := completeProblem now1 p]> (revisions storage);
               tagStats := tagStats storage;
               settings := settings storage |}
            (completeProblem now1 p) true :: m).
  { subst m1. rewrite markProblemCompleted_run. fold storage. by rewrite Hp. }
  set (doc1 := updateTagStats _ _ _) in Hm1.
  assert (Hget1 : objGet id (problems doc1) = Some (completeProblem now1 p)).
  { subst doc1. simpl. by rewrite objGet_objSet, decide_True. }
  assert (Hkeys1 : (problems doc1).*1 = (problems storage).*1).
  { subst doc1. simpl. apply objSet_keys_existing. by eexists. }
  set (saved := {| info := data; lastAccessed := now2; timeSpent := timeSpent p |}).
  assert (Hm2 : m2 = withLastUsed (Some id)
                       (withProblems (objSet id saved (problems doc1)) doc1) :: m1).
  { subst m2. rewrite saveProblem_run. fold id.
    assert (Hcur : current m1 = doc1) by (by rewrite Hm1).
    rewrite Hcur, Hget1. cbn [completeProblem timeSpent]. fold saved.
    rewrite cleanup_within_cap; [done|].
    cbn [withLastUsed withProblems problems settings].
    rewrite <- (length_fmap fst), objSet_keys_existing, Hkeys1, length_fmap
      by (by eexists). exact Hcap. }
  split; [by rewrite Hm1|].
  split.
  { rewrite Hm2. unfold getProblem, getAllProblems, bind. simpl.
    by rewrite objGet_objSet, decide_True. }
  split.
  { rewrite Hm2. unfold current. simpl. by rewrite lookup_insert_eq. }
  split; [by rewrite Hm2, Hm1|].
  intros Hdata. rewrite Hm2, Hm1. cbn [PopupStore.getProblemStats PopupStore.completedProblems].
  cbn [withLastUsed withProblems problems].
  apply (completed_count_drops _ _ (completeProblem now1 p)); [exact Hget1|done|].
  simpl. destruct (isCompleted data) as [[]|]; done.
Qed.

Lemma resave_resets_completion_witness :
  let m := (saveProblem 1000 threeSum []).2 in
  let m1 := (markProblemCompleted 2000 "15-15--3sum" m).2 in
  let m2 := (saveProblem 3000 threeSum m1).2 in
  (isCompleted ∘ info) <$> (getProblem "15-15--3sum" m2).1 = Some (Some false)
  ∧ (isCompleted ∘ info) <$> revisions (current m2) !! "15-15--3sum"
    = Some (Some true)
  ∧ (PopupStore.completedProblems (PopupStore.getProblemStats m2)
     < PopupStore.completedProblems (PopupStore.getProblemStats m1))%nat.
Proof.
  intros m m1 m2.
  assert (Hcap : withinCap (current m)) by (unfold withinCap; simpl; lia).
  pose proof (resave_resets_completion 2000 3000 threeSum m
                {| info := threeSum; lastAccessed := 1000; timeSpent := 0 |}
                eq_refl Hcap) as H.
  cbv zeta in H. change (generateProblemId threeSum) with "15-15--3sum" in H.
  destruct H as (_ & Hget & Hrev & _ & Hcount).
  unfold m2, m1. rewrite Hget, Hrev. split; [done|]. split; [done|].
  apply Hcount. simpl. discriminate.
Defined.

(** ** Statistics, identifiers, search *)

Lemma most_used_fold (rest : list Problem) : ∀ a,
  let r := foldl (λ most current,
                    if timeSpent most <? timeSpent current then current else most)
                 a rest in
  ∃ pre post,
    a :: rest = pre ++ r :: post
    ∧ (∀ q, q ∈ pre → timeSpent q < timeSpent r)
    ∧ (∀ q, q ∈ post → timeSpent q ≤ timeSpent r).
Proof.
  induction rest as [|b rest IH]; intros a; simpl.
  - exists [], []. split; [done|]. split; intros q Hq; by apply elem_of_nil in Hq.
  - destruct (Z.ltb_spec (timeSpent a) (timeSpent b)) as [Hlt|Hge].
    + destruct (IH b) as (pre & post & Heq & Hpre & Hpost). simpl in *.
      exists (a :: pre), post. split; [by rewrite Heq|]. split; [|exact Hpost].
      intros q [->|Hq]%elem_of_cons; [|by apply Hpre].
      destruct pre as [|b' pre'].
      * simpl in Heq. injection Heq as <- _. exact Hlt.
      * simpl in Heq. injection Heq as <- _.
        pose proof (Hpre b (list_elem_of_here _ _)). lia.
    + destruct (IH a) as (pre & post & Heq & Hpre & Hpost). simpl in *.
      set (r := foldl _ a rest) in *. clearbody r. clear IH.
      destruct pre as [|a' pre'].
      * simpl in Heq. injection Heq as Ha Hrest.
        exists [], (b :: post). split; [simpl; congruence|].
        split; [intros q Hq; by apply elem_of_nil in Hq|].
        intros q [->|Hq]%elem_of_cons; [rewrite <- Ha; lia|by apply Hpost].
      * simpl in Heq. injection Heq as <- Hrest.
        exists (a :: b :: pre'), post. split; [simpl; congruence|].
        split; [|exact Hpost].
        pose proof (Hpre a (list_elem_of_here _ _)).
        intros q [->|[->|Hq]%elem_of_cons]%elem_of_cons; [done|lia|].
        apply Hpre. by right.
Qed.

(** X21.  [mostUsedProblem] is [null] exactly for the empty catalogue;
    otherwise it is a record of the catalogue whose [timeSpent] is greater
    than that of every record before it and at least that of every record
    after it: the first record of greatest [timeSpent]. *)
Theorem most_used_is_first_maximum (ps : list (string * Problem)) :
  (mostUsedProblem ps = None ↔ ps = [])
  ∧ ∀ p, mostUsedProblem ps = Some p →
      ∃ pre post,
        ps.*2 = pre ++ p :: post
        ∧ (∀ q, q ∈ pre → timeSpent q < timeSpent p)
        ∧ (∀ q, q ∈ post → timeSpent q ≤ timeSpent p).
Proof.
  split; [by destruct ps|].
  intros p. destruct ps as [|first rest]; [done|].
  unfold mostUsedProblem. intros [= <-]. simpl.
  destruct (Z.ltb_spec (timeSpent first.2) (timeSpent first.2)); [lia|].
  apply most_used_fold.
Qed.

Lemma most_used_is_first_maximum_witness :
  let m := (updateTimeSpent 3000 "15-15--3sum" 500
              (saveProblem 2000 threeSum (saveProblem 1000 twoSum []).2).2).2 in
  ∃ pre post,
    (problems (current m)).*2
    = pre ++ {| info := threeSum; lastAccessed := 3000; timeSpent := 500 |} :: post
    ∧ ∀ q, q ∈ pre → timeSpent q < 500.
Proof.
  intros m.
  destruct (proj2 (most_used_is_first_maximum (problems (current m)))
              {| info := threeSum; lastAccessed := 3000; timeSpent := 500 |})
    as (pre & post & Heq & Hpre & _).
  - by vm_compute.
  - exists pre, post. split; [exact Heq | exact Hpre].
Defined.

Lemma slugChar_lower c :
  slugChar c
  = (if isLowerOrDigit (toLowerCode c) then toLowerCode c else "-"%char)
  ∧ slugChar (slugChar c) = slugChar c
  ∧ slugChar (toLowerCode c) = slugChar c
  ∧ toLowerCode (toLowerCode c) = toLowerCode c
  ∧ (isLowerOrDigit (slugChar c) = true ∨ slugChar c = "-"%char).
Proof.
  destruct c as [[] [] [] [] [] [] [] []]; vm_compute;
    (repeat split; [reflexivity..|]); auto.
Qed.


Lemma startsWith_spec s search :
  startsWith s search = true ↔ ∃ post, s = search +:+ post.
Proof.
  revert s. induction search as [|c p IH]; intros s; simpl.
  - split; [intros _; by exists s|done].
  - destruct s as [|d r].
    + split; [done|]. intros [post Hpost]. discriminate.
    + rewrite andb_true_iff, IH. split.
      * intros [Hc [post ->]]. apply Ascii.eqb_eq in Hc as ->. by exists post.
      * intros [post [= -> ->]]. split; [apply Ascii.eqb_refl|by exists post].
Qed.

Lemma includes_spec s search :
  includes s search = true ↔ ∃ pre post, s = pre +:+ search +:+ post.
Proof.
  induction s as [|d r IH]; simpl.
  - rewrite orb_false_r, startsWith_spec. split.
    + intros [post ->]. by exists EmptyString, post.
    + intros (pre & post & Heq). destruct pre; [by exists post|discriminate].
  - rewrite orb_true_iff, (startsWith_spec (String d r)), IH. split.
    + intros [[post ->]|(pre & post & ->)].
      * by exists EmptyString, post.
      * by exists (String d pre), post.
    + intros (pre & post & Heq). destruct pre as [|c pre].
      * left. by exists post.
      * right. injection Heq as -> ->. by exists pre, post.
Qed.

Lemma toLowerCase_idemp s : toLowerCase (toLowerCase s) = toLowerCase s.
Proof.
  induction s as [|c s IH]; [done|]. simpl. rewrite IH. f_equal.
  apply slugChar_lower.
Qed.

Lemma someTagIncludes_spec tag ts :
  someTagIncludes tag ts = true
  ↔ ∃ t pre post, t ∈ ts ∧ toLowerCase t = pre +:+ toLowerCase tag +:+ post.
Proof.
  unfold someTagIncludes. rewrite existsb_exists. split.
  - intros (t & Hin & Hinc). apply includes_spec in Hinc as (pre & post & Heq).
    exists t, pre, post. split; [by apply list_elem_of_In|done].
  - intros (t & pre & post & Hin & Heq). exists t.
    split; [by apply list_elem_of_In|]. apply includes_spec. by exists pre, post.
Qed.

(** X23.  [getProblemsByTag] writes nothing and returns, in catalogue
    order, exactly the stored problems one of whose tags contains the
    query as a substring, both put to lower case; the case of the query is
    immaterial; the empty query returns every problem that has a tag.  A
    recommendation [getRandomRecommendationByTag] returns is one of the
    stored recommendations with such a tag. *)
Theorem tag_search_matches (tag : string) (m : Medium) :
  (getProblemsByTag tag m).2 = m
  ∧ (∀ p, p ∈ (getProblemsByTag tag m).1
          ↔ p ∈ (problems (current m)).*2
            ∧ ∃ t pre post,
                t ∈ tags (info p)
                ∧ toLowerCase t = pre +:+ toLowerCase tag +:+ post)
  ∧ (getProblemsByTag tag m).1 `sublist_of` (problems (current m)).*2
  ∧ (getProblemsByTag (toLowerCase tag) m).1 = (getProblemsByTag tag m).1
  ∧ (∀ p, p ∈ (getProblemsByTag EmptyString m).1
          ↔ p ∈ (problems (current m)).*2 ∧ tags (info p) ≠ [])
  ∧ (∀ i r, (getRandomRecommendationByTag tag i m).1 = Some r →
       r ∈ (getAllRecommendations m).1
       ∧ ∃ t pre post,
           t ∈ sqTags r ∧ toLowerCase t = pre +:+ toLowerCase tag +:+ post).
Proof.
  assert (Hval : ∀ tag, (getProblemsByTag tag m).1
            = List.filter (λ p, someTagIncludes tag (tags (info p)))
                          (problems (current m)).*2) by done.
  split; [done|]. split; [|split; [|split; [|split]]].
  - intros p. rewrite Hval, list_elem_of_In, filter_In, <- list_elem_of_In.
    by rewrite someTagIncludes_spec.
  - rewrite Hval. generalize ((problems (current m)).*2). intros l.
    induction l as [|p l IH]; [done|]. simpl.
    destruct (someTagIncludes _ _); by constructor.
  - rewrite !Hval. unfold someTagIncludes. by rewrite toLowerCase_idemp.
  - intros p. rewrite Hval, list_elem_of_In, filter_In, <- list_elem_of_In.
    rewrite someTagIncludes_spec. split.
    + intros [Hin (t & _ & _ & Ht & _)]. split; [done|].
      intros Hnil. rewrite Hnil in Ht. by apply elem_of_nil in Ht.
    + intros [Hin Htags]. split; [done|].
      destruct (tags (info p)) as [|t ts]; [done|].
      exists t, EmptyString, (toLowerCase t). split; [left|done].
  - intros i r Hr.
    assert (Hin : r ∈ List.filter (λ rec, someTagIncludes tag (sqTags rec))
                                  (getAllRecommendations m).1)
      by (by apply list_elem_of_lookup_2 in Hr).
    rewrite list_elem_of_In, filter_In, <- list_elem_of_In in Hin.
    by rewrite someTagIncludes_spec in Hin.
Qed.

Lemma tag_search_matches_witness :
  let m := (saveProblem 2000 threeSum (saveProblem 1000 twoSum []).2).2 in
  {| info := twoSum; lastAccessed := 1000; timeSpent := 0 |}
  ∈ (getProblemsByTag "hash" m).1.
Proof.
  intros m.
  destruct (tag_search_matches "hash" m) as (_ & Hspec & _).
  apply Hspec. split.
  - vm_compute. left.
  - exists "Hash Table", "", " table". split; [|reflexivity].
    simpl. right. left.
Defined.

Lemma foldl_snd {A} (f : A → Problem → A) (a : A) (ps : list (string * Problem)) :
  foldl f a ps.*2 = foldl (λ acc e, f acc e.2) a ps.
Proof. revert a. induction ps as [|e ps IH]; intros a; [done|]. simpl. apply IH. Qed.

(** X24.  The reads the popup makes of the storage entry itself agree
    with the functions of the class on every medium, the empty one
    included: the last used problem, the number of problems, the total
    time, the most used problem, the tag statistics, the recommendations
    and the random picks; and the popup's count of completed problems is at
    most the number of problems. *)
Theorem popup_reads_agree_with_manager (m : Medium) (i : nat) :
  PopupStore.getLastUsedProblem m = (getLastUsedProblem m).1
  ∧ PopupStore.totalProblems (PopupStore.getProblemStats m)
    = (getProblemStats m).1.1
  ∧ PopupStore.statsTotalTimeSpent (PopupStore.getProblemStats m)
    = (getProblemStats m).1.2
  ∧ PopupStore.statsMostUsedProblem (PopupStore.getProblemStats m)
    = mostUsedProblem (getAllProblems m).1
  ∧ (PopupStore.completedProblems (PopupStore.getProblemStats m)
     ≤ PopupStore.totalProblems (PopupStore.getProblemStats m))%nat
  ∧ PopupStore.getTagStats m = (getTagStats m).1
  ∧ PopupStore.getAllRecommendations m = (getAllRecommendations m).1
  ∧ PopupStore.getRandomRecommendation i m = (getRandomRecommendation i m).1
  ∧ PopupStore.getRandomRevisionProblem i m = (getRandomRevisionProblem i m).1.
Proof.
  destruct m as [|storage m].
  { by repeat split. }
  split.
  { rewrite getLastUsedProblem_value. done. }
  split; [by unfold getProblemStats, getAllProblems, bind; simpl; rewrite length_fmap|].
  split.
  { unfold getProblemStats, getAllProblems, bind, totalTimeSpent; simpl.
    apply foldl_snd. }
  split.
  { unfold getAllProblems, bind, mostUsedProblem; simpl.
    by destruct (problems storage). }
  split; [|done].
  simpl. generalize ((problems storage).*2). intros l.
  induction l as [|p l IH]; [done|]. simpl.
  destruct (PopupStore.truthyBool _); simpl; lia.
Qed.

End StoreWriters.

(** * The text of the timer in the popup *)

Module PopupProps.
Import Engine EngineProps EngineEvents Backup.Text Popup TextProps.

Lemma chars_app a b : chars (a +:+ b) = chars a ++ chars b.
Proof. induction a as [|c a IH]; [done|]. simpl. by rewrite IH. Qed.

Lemma readUnit_pretty (n : Z) (u : ascii) rest :
  digitOf u = None →
  readUnit u (chars (pretty n) ++ u :: rest) = Some (n, rest).
Proof.
  intros Hu. unfold readUnit. rewrite readNumber_pretty by exact Hu.
  by rewrite decide_True.
Qed.

Lemma readUnit_other (n : Z) (u v : ascii) rest :
  digitOf u = None → u ≠ v →
  readUnit v (chars (pretty n) ++ u :: rest) = None.
Proof.
  intros Hu Hne. unfold readUnit. rewrite readNumber_pretty by exact Hu.
  by rewrite decide_False.
Qed.

Lemma readSeconds_formatSeconds sec :
  0 ≤ sec → readSeconds (formatSeconds sec) = Some sec.
Proof.
  intros Hsec. unfold formatSeconds.
  destruct (Z.ltb_spec sec 0); [lia|].
  destruct (Z.ltb_spec sec 60).
  - unfold readSeconds. rewrite chars_app. change (chars "s") with ["s"%char].
    by rewrite readUnit_pretty.
  - cbv zeta. destruct (Z.ltb_spec 0 (sec / 3600)) as [Hh|Hh].
    + unfold readSeconds. rewrite !chars_app.
      change (chars "h ") with ["h"; " "]%char.
      change (chars "m ") with ["m"; " "]%char.
      change (chars "s") with ["s"%char].
      cbn [app].
      rewrite (readUnit_other _ "h" "s") by done.
      rewrite (readUnit_other _ "h" "m") by done.
      rewrite readUnit_pretty by done.
      rewrite readUnit_pretty by done.
      rewrite readUnit_pretty by done.
      rewrite decide_True by done. f_equal.
      pose proof (Z.div_mod sec 3600 ltac:(lia)).
      pose proof (Z.div_mod (sec mod 3600) 60 ltac:(lia)).
      pose proof (Z.mod_pos_bound sec 3600 ltac:(lia)).
      assert ((sec mod 3600) mod 60 = sec mod 60).
      { apply Z.mod_mod_divide. by exists 60. }
      lia.
    + assert (sec / 3600 = 0).
      { pose proof (Z.div_pos sec 3600 ltac:(lia) ltac:(lia)). lia. }
      unfold readSeconds. rewrite !chars_app.
      change (chars "m ") with ["m"; " "]%char.
      change (chars "s") with ["s"%char].
      cbn [app].
      rewrite (readUnit_other _ "m" "s") by done.
      rewrite readUnit_pretty by done.
      rewrite readUnit_pretty by done.
      rewrite decide_True by done. f_equal.
      pose proof (Z.div_mod sec 3600 ltac:(lia)).
      pose proof (Z.div_mod (sec mod 3600) 60 ltac:(lia)).
      assert ((sec mod 3600) mod 60 = sec mod 60).
      { apply Z.mod_mod_divide. by exists 60. }
      lia.
Qed.

(** X13.  [formatSeconds] prints ["0s"] for a negative number and the
    number followed by [s] below a minute; and it prints different texts
    for different durations that are not negative. *)
Theorem format_seconds_distinguishes_durations :
  (∀ sec, sec < 0 → formatSeconds sec = "0s")
  ∧ (∀ sec, 0 ≤ sec < 60 → formatSeconds sec = pretty sec +:+ "s")
  ∧ (∀ sec, 0 ≤ sec → readSeconds (formatSeconds sec) = Some sec)
  ∧ (∀ a b, 0 ≤ a → 0 ≤ b → formatSeconds a = formatSeconds b → a = b).
Proof.
  split; [|split; [|split]].
  - intros sec Hsec. unfold formatSeconds. by destruct (Z.ltb_spec sec 0); [|lia].
  - intros sec [H0 H60]. unfold formatSeconds.
    destruct (Z.ltb_spec sec 0); [lia|]. by destruct (Z.ltb_spec sec 60); [|lia].
  - apply readSeconds_formatSeconds.
  - intros a b Ha Hb Heq.
    pose proof (readSeconds_formatSeconds a Ha) as Hra.
    rewrite Heq, readSeconds_formatSeconds in Hra by exact Hb. congruence.
Qed.

Lemma format_seconds_distinguishes_durations_witness :
  readSeconds (formatSeconds 3725) = Some 3725
  ∧ formatSeconds 3725 = "1h 2m 5s".
Proof.
  split; [|by vm_compute].
  apply (proj1 (proj2 (proj2 format_seconds_distinguishes_durations))). lia.
Defined.

Example format_seconds_evaluated :
  formatSeconds 59 = "59s" ∧ formatSeconds 60 = "1m 0s"
  ∧ formatSeconds 3599 = "59m 59s" ∧ formatSeconds 3600 = "1h 0m 0s"
  ∧ formatSeconds 86399 = "23h 59m 59s" ∧ formatSeconds (-5) = "0s".
Proof. by vm_compute. Qed.

(** X12.  After the window lost focus, with no stored reading equal to
    [0] before, the text [updateTimeForTab] shows for a tab is the same at
    every clock value; for a tab with a title that has a timer it is the
    text of the whole seconds of the accumulated time and the time that
    was pending when the loss was handled. *)
Theorem popup_text_frozen_while_unfocused (nowStop nowStart : Z)
    (nowAll : string → Z) (s : State) :
  (∀ title t, titleTimers s !! title = Some t → stampNonzero t) →
  let s' := onFocusChanged nowStop nowStart nowAll None s in
  ∀ (tabId : option Z) (now now' : Z),
    updateTimeForTab now tabId (persisted s')
    = updateTimeForTab now' tabId (persisted s')
    ∧ ∀ id title t,
        tabId = Some id → id ≠ 0 → tabToTitle s !! id = Some title →
        title ≠ EmptyString → titleTimers s !! title = Some t →
        updateTimeForTab now tabId (persisted s')
        = formatSeconds ((accumulated t + pending (nowAll title) t) / 1000).
Proof.
  intros Hst s' tabId now now'.
  assert (Hel : ∀ at_ title t, titleTimers s !! title = Some t →
            elapsedMs at_ title (persisted s')
            = accumulated t + pending (nowAll title) t).
  { intros at_ title t Hl. unfold elapsedMs. cbn.
    rewrite map_lookup_imap, Hl. simpl.
    rewrite pauseTimer_stampNonzero by (by apply (Hst title)). simpl. lia. }
  assert (Htimers : (persisted s').1
            = map_imap (λ title t, Some (pauseTimer (nowAll title) t)) (titleTimers s))
    by done.
  assert (Htabs : (persisted s').2 = tabToTitle s) by done.
  clearbody s'. split.
  - unfold updateTimeForTab. destruct tabId as [id|]; [|done].
    destruct (negb (id =? 0)); [|done]. rewrite Htabs.
    destruct (tabToTitle s !! id) as [title|]; [|done].
    destruct (negb (String.eqb title EmptyString)); [|done].
    rewrite Htimers, map_lookup_imap.
    destruct (titleTimers s !! title) as [t|] eqn:Hl; [|done]. simpl.
    by rewrite !(Hel _ title t Hl).
  - intros id title t -> Hid Htab Htitle Hl. unfold updateTimeForTab.
    destruct (Z.eqb_spec id 0); [done|]. simpl. rewrite Htabs, Htab.
    destruct (String.eqb_spec title EmptyString); [done|]. simpl.
    rewrite Htimers, map_lookup_imap, Hl. simpl.
    by rewrite (Hel _ title t Hl).
Qed.

Lemma popup_text_frozen_while_unfocused_witness :
  let s := reportTitle 2000 7 (Some "Two Sum")
             (handleTabChange 1000 1000 (Some 7) initialState) in
  let s' := onFocusChanged 67000 67000 (λ _, 67000) None s in
  updateTimeForTab 70000 (Some 7) (persisted s')
  = updateTimeForTab 99000 (Some 7) (persisted s')
  ∧ updateTimeForTab 70000 (Some 7) (persisted s') = "1m 5s".
Proof.
  intros s s'.
  assert (Hst : ∀ title t, titleTimers s !! title = Some t → stampNonzero t).
  { assert (Htm : titleTimers s
              = {[ "Two Sum" := {| accumulated := 0; runningSince := Some 2000;
                                   activeCount := 1 |} ]}) by (by vm_compute).
    intros title t Hl rs Hrs. rewrite Htm in Hl.
    apply lookup_singleton_Some in Hl as [_ <-]. injection Hrs as <-. lia. }
  destruct (popup_text_frozen_while_unfocused 67000 67000 (λ _, 67000) s Hst
              (Some 7) 70000 99000) as [Hsame Htext].
  split; [exact Hsame|]. unfold s'.
  rewrite (Htext 7 "Two Sum"
             {| accumulated := 0; runningSince := Some 2000; activeCount := 1 |});
    [by vm_compute | done | lia | by vm_compute | discriminate | by vm_compute].
Defined.

End PopupProps.

(** * More on [importData] *)

Module ImportProps.
Import Store Backup.

(** X25.  What [importData] does with every text, over any text layer: it
    writes exactly when the text parses to an object whose [problems]
    property is an object or an array, and then it writes the parsed value
    whole; in every other case (a text that does not parse, a value that is
    not an object, a [problems] property that is missing, [null], a
    boolean, a number or a string) it returns [false] and leaves the medium
    as it was. *)
Theorem import_decision `{JsonText} (jsonData : string) (raw : RawMedium) :
  importData jsonData raw
  = match parse jsonData with
    | Some (JObj fields) =>
        match objGet "problems" fields with
        | Some (JObj _) | Some (JArr _) => (true, JObj fields :: raw)
        | _ => (false, raw)
        end
    | _ => (false, raw)
    end.
Proof.
  unfold importData.
  destruct (parse jsonData) as [[|b|n|s|items|fields]|]; try done.
  simpl.
  destruct (objGet "problems" fields) as [[|b|n|s|items|fs]|];
    try done; simpl; by rewrite ?andb_false_r.
Qed.

End ImportProps.
